(** * simple-parser: lexer, type descriptors and parser, embedded from the Python sources

    The development follows the layout of the repository:
    - [Py]        the few pieces of Python semantics the sources rely on
                  (exceptions, [int()] on a digit string, character classes);
    - [Types]     src/folder/types.py;
    - [Lexer]     src/folder/token.py;
    - [Ast]       src/front/expression.py and src/front/statement.py;
    - [Parse]     src/folder/parser.py;
    - [Traced]    the same methods, keeping a log of the symbol table.

    Source text is a list of code points below 256 (Latin-1), which is what
    [ascii] holds; identifiers, literals and diagnostics are [string]s. *)

From stdpp Require Import gmap strings list pretty.
From Stdlib Require Import ZArith Lia Ascii.
From Stdlib Require String.

Local Open Scope Z_scope.
Set Warnings "-register-all".

(* ===================================================================== *)
(** ** Python semantics used by the sources                               *)
(* ===================================================================== *)

Module Py.

(** The exceptions the operations of the sources raise: [int()],
    [dict.get], [list.pop] and [assert].  What the interpreter raises when
    a resource runs out ([RecursionError] past its recursion limit on a
    deeply nested text, [MemoryError]) is not represented: where the
    program would raise one of them, the methods below go on. *)
Inductive exn : Type :=
| ValueError
| TypeError
| IndexError
| AssertionError.

(** A call either returns or raises. *)
Inductive result (A : Type) : Type :=
| Ok (a : A)
| Raise (e : exn).
Arguments Ok {A} a.
Arguments Raise {A} e.

Definition bind {A B} (r : result A) (k : A -> result B) : result B :=
  match r with
  | Ok a => k a
  | Raise e => Raise e
  end.

(** [assert cond] *)
Definition assert (cond : bool) : result unit :=
  if cond then Ok tt else Raise AssertionError.

(** *** Characters

    [str.isdigit] and [str.isalpha] on the code points below 256.  Besides
    the ASCII digits, the superscripts U+00B2, U+00B3 and U+00B9 are digits
    for [isdigit]; the letters of Latin-1 are U+00AA, U+00B5, U+00BA,
    U+00C0..U+00D6, U+00D8..U+00F6 and U+00F8..U+00FF. *)

Definition ord (c : ascii) : N := N_of_ascii c.

Definition between (lo hi : N) (c : ascii) : bool :=
  ((lo <=? ord c) && (ord c <=? hi))%N.

Definition ascii_digit (c : ascii) : bool := between 48 57 c.

Definition ascii_letter (c : ascii) : bool :=
  between 65 90 c || between 97 122 c.

Definition isdigit (c : ascii) : bool :=
  ascii_digit c || between 178 179 c || between 185 185 c.

Definition isalpha (c : ascii) : bool :=
  ascii_letter c
  || between 170 170 c || between 181 181 c || between 186 186 c
  || between 192 214 c || between 216 246 c || between 248 255 c.

Definition newline : ascii := ascii_of_N 10.
Definition underscore : ascii := ascii_of_N 95.
Definition double_quote : ascii := ascii_of_N 34.

(** *** [int(text)] on the slices [tokenize_number] passes

    Such a slice starts with an [isdigit] character and continues with
    characters of [number_chars].  The text being code points below 256,
    its only decimal digits are the ASCII digits (the superscripts are
    digits for [isdigit] but not for [int]; the decimal digits of other
    scripts, which [int] converts, lie beyond).  Python accepts the slice
    when every character is an ASCII digit or an underscore, each
    underscore stands between two digits, and (default
    [sys.get_int_max_str_digits()]) it has at most 4300 digits; otherwise
    [int] raises [ValueError]. *)

Definition int_max_str_digits : nat := 4300.

Definition digit_value (c : ascii) : Z := Z.of_N (ord c) - 48.

(** [need_digit] is set at the start and after an underscore. *)
Fixpoint int_digits (acc : Z) (need_digit : bool) (s : list ascii) : option Z :=
  match s with
  | [] => if need_digit then None else Some acc
  | c :: s' =>
      if ascii_digit c then int_digits (10 * acc + digit_value c) false s'
      else if bool_decide (c = underscore) then
        if need_digit then None else int_digits acc true s'
      else None
  end.

Definition count_digits (s : list ascii) : nat :=
  length (filter (fun c => ascii_digit c = true) s).

Definition int (s : list ascii) : result Z :=
  match int_digits 0 true s with
  | Some n =>
      if (count_digits s <=? int_max_str_digits)%nat then Ok n
      else Raise ValueError
  | None => Raise ValueError
  end.

(** [str(text[a:b])] *)
Definition slice (a b : nat) (s : list ascii) : list ascii :=
  take (b - a) (drop a s).

End Py.

Import Py.

(* ===================================================================== *)
(** ** src/folder/types.py                                                *)
(* ===================================================================== *)

Module Types.

(** The objects: what each class stores in its slots.  A [TupleType]
    stores the size and alignment its constructor computed. *)
Inductive UnqualifiedType : Type :=
| Void
| Integer (width : Z) (signed : bool)
| Floating (width : Z)
| Pointer (underlying : QualifiedType)
| Array (underlying : QualifiedType) (count : Z)
| Tuple (types : list QualifiedType) (size align : Z)
| Function (return_type : QualifiedType) (arguments : list QualifiedType)
with QualifiedType : Type :=
| Qualified (unqualified : UnqualifiedType) (flags : Z).

Definition unqualified (q : QualifiedType) : UnqualifiedType :=
  match q with Qualified u _ => u end.
Definition flags (q : QualifiedType) : Z :=
  match q with Qualified _ f => f end.

(** [QualifiedType.Reference = 1 << 0], [Constant = 1 << 1]. *)
Definition Reference : Z := Z.shiftl 1 0.
Definition Constant : Z := Z.shiftl 1 1.
Definition ConstReference : Z := Z.lor Reference Constant.

(** [QualifiedType.__init__(unqual, flags = 0)] *)
Definition QualifiedType_init (unqual : UnqualifiedType) (fl : Z) : QualifiedType :=
  Qualified unqual fl.

(** [bool(self.flags & self.Reference)] *)
Definition is_reference (q : QualifiedType) : bool :=
  negb (Z.land (flags q) Reference =? 0).
Definition is_const (q : QualifiedType) : bool :=
  negb (Z.land (flags q) Constant =? 0).

(** [add_flags] builds a new value. *)
Definition add_flags (q : QualifiedType) (fl : Z) : QualifiedType :=
  QualifiedType_init (unqualified q) (Z.lor (flags q) fl).

(** [sizeof] and [alignof], dispatched on the class. *)
Fixpoint sizeof (t : UnqualifiedType) : Z :=
  match t with
  | Void => 0
  | Integer w _ => w
  | Floating w => w
  | Pointer _ => 8
  | Array u c => qsizeof u * c
  | Tuple _ sz _ => sz
  | Function _ _ => 0
  end
with qsizeof (q : QualifiedType) : Z :=
  match q with Qualified u _ => sizeof u end.

Fixpoint alignof (t : UnqualifiedType) : Z :=
  match t with
  | Void => 0
  | Integer w _ => w
  | Floating w => w
  | Pointer _ => 8
  | Array u _ => qalignof u
  | Tuple _ _ al => al
  | Function _ _ => 0
  end
with qalignof (q : QualifiedType) : Z :=
  match q with Qualified u _ => alignof u end.

(** The constructors, with their assertions. *)

Definition VoidType : UnqualifiedType := Void.

(** [assert w & (w - 1) == 0]: in Python [&] binds tighter than [==]. *)
Definition IntegerType (w : Z) (signed : bool) : result UnqualifiedType :=
  bind (assert (Z.land w (w - 1) =? 0)) (fun _ =>
  bind (if w =? 1 then assert (negb signed) else Ok tt) (fun _ =>
  Ok (Integer w signed))).

Definition FloatingType (width : Z) : result UnqualifiedType :=
  bind (assert ((width =? 32) || (width =? 64))) (fun _ =>
  Ok (Floating width)).

Definition PointerType (t : QualifiedType) : UnqualifiedType := Pointer t.

Definition ArrayType (underlying : QualifiedType) (count : Z) : result UnqualifiedType :=
  bind (assert (negb (is_reference underlying))) (fun _ =>
  Ok (Array underlying count)).

(** The loop of [TupleType.__init__]: one step per member, carrying
    [(self.types, size, align)]. *)
Definition tuple_step (acc : list QualifiedType * Z * Z) (tp : QualifiedType)
  : list QualifiedType * Z * Z :=
  let '(tys, size, align) := acc in
  let align := Z.max align (qalignof tp) in
  let size := size + (if is_reference tp then 8 else qsizeof tp) in
  (tys ++ [tp], size, align).

Definition TupleType (types : list QualifiedType) : UnqualifiedType :=
  let '(tys, size, align) := fold_left tuple_step types ([], 0, 0) in
  Tuple tys size align.

Definition FunctionType (ret_type : QualifiedType) (arg_types : list QualifiedType)
  : UnqualifiedType :=
  Function ret_type arg_types.

(** The built-in the parser installs: [QualifiedType(IntegerType(32), 0)]. *)
Definition i32 : QualifiedType := Qualified (Integer 32 true) 0.

(** Spec-side reading of the Tuple row of the size table. *)
Definition member_slot (m : QualifiedType) : Z :=
  if is_reference m then 8 else qsizeof m.
Definition sum_member_slots (ms : list QualifiedType) : Z :=
  foldr Z.add 0 (member_slot <$> ms).
Definition max_member_align (ms : list QualifiedType) : Z :=
  foldr Z.max 0 (qalignof <$> ms).

End Types.

(* ===================================================================== *)
(** ** src/folder/token.py                                                *)
(* ===================================================================== *)

Module Lexer.

(** [TokenType], an [IntEnum] numbered from 1 by [enum.auto()]. *)
Module TokenType.
Inductive t : Type :=
| Error | EndOfFile
| LParen | RParen | LBrace | RBrace | LBracket | RBracket
| Comma | Dot | Semicolon | Colon | Arrow
| Tilde
| Equal | Bang | Plus | Minus | Star | Slash | Percent
| Ampersand | Pipe | Caret | LShift | RShift | Greater | Lesser
| EqualEqual | BangEqual | PlusEqual | MinusEqual | StarEqual | SlashEqual
| PercentEqual | AmpersandEqual | PipeEqual | CaretEqual
| LShiftEqual | RShiftEqual | GreaterEqual | LesserEqual
| Identifier | BoolLiteral | IntLiteral | FloatLiteral | StringLiteral
| AndKW | OrKW | NotKW | ReturnKW | IfKW | ElseKW | VarKW | FnKW.

Definition to_int (tp : t) : Z :=
  match tp with
  | Error => 1 | EndOfFile => 2
  | LParen => 3 | RParen => 4 | LBrace => 5 | RBrace => 6
  | LBracket => 7 | RBracket => 8
  | Comma => 9 | Dot => 10 | Semicolon => 11 | Colon => 12 | Arrow => 13
  | Tilde => 14
  | Equal => 15 | Bang => 16 | Plus => 17 | Minus => 18 | Star => 19
  | Slash => 20 | Percent => 21 | Ampersand => 22 | Pipe => 23 | Caret => 24
  | LShift => 25 | RShift => 26 | Greater => 27 | Lesser => 28
  | EqualEqual => 29 | BangEqual => 30 | PlusEqual => 31 | MinusEqual => 32
  | StarEqual => 33 | SlashEqual => 34 | PercentEqual => 35
  | AmpersandEqual => 36 | PipeEqual => 37 | CaretEqual => 38
  | LShiftEqual => 39 | RShiftEqual => 40 | GreaterEqual => 41
  | LesserEqual => 42
  | Identifier => 43 | BoolLiteral => 44 | IntLiteral => 45
  | FloatLiteral => 46 | StringLiteral => 47
  | AndKW => 48 | OrKW => 49 | NotKW => 50 | ReturnKW => 51 | IfKW => 52
  | ElseKW => 53 | VarKW => 54 | FnKW => 55
  end.

(** [a == b] on token types compares the enum values. *)
Definition eqb (a b : t) : bool := to_int a =? to_int b.
End TokenType.
Import TokenType.

(** What a token's [value] slot can hold: [None], an [int], a [str] or
    an [UnknownCharacterError]. *)
Inductive Value : Type :=
| VNone
| VInt (n : Z)
| VStr (s : string)
| UnknownCharacterError (char : ascii).

Module Token.
Record t : Type := mk { type : TokenType.t; value : Value; line : nat }.

(** [Token.__bool__] *)
Definition bool (tok : t) : Datatypes.bool :=
  TokenType.to_int EndOfFile <? TokenType.to_int (type tok).
End Token.
Abbreviation Token := Token.t.

Record Tokenizer : Type := mkTokenizer {
  source : list ascii;
  idx : nat;
  line : nat
}.

Definition single_char_literals (c : ascii) : option TokenType.t :=
  match c with
  | "("%char => Some LParen | ")"%char => Some RParen
  | "["%char => Some LBracket | "]"%char => Some RBracket
  | "{"%char => Some LBrace | "}"%char => Some RBrace
  | ","%char => Some Comma | "."%char => Some Dot
  | ";"%char => Some Semicolon | ":"%char => Some Colon
  | "~"%char => Some Tilde
  | _ => None
  end.

Definition keyword_map (text : string) : option TokenType.t :=
  if String.eqb text "and" then Some AndKW
  else if String.eqb text "or" then Some OrKW
  else if String.eqb text "not" then Some NotKW
  else if String.eqb text "return" then Some ReturnKW
  else if String.eqb text "if" then Some IfKW
  else if String.eqb text "else" then Some ElseKW
  else if String.eqb text "var" then Some VarKW
  else if String.eqb text "fn" then Some FnKW
  else None.

Definition regular_operators (c : ascii) : option (TokenType.t * TokenType.t) :=
  match c with
  | "+"%char => Some (Plus, PlusEqual)
  | "*"%char => Some (Star, StarEqual)
  | "/"%char => Some (Slash, SlashEqual)
  | "%"%char => Some (Percent, PercentEqual)
  | "&"%char => Some (Ampersand, AmpersandEqual)
  | "|"%char => Some (Pipe, PipeEqual)
  | "^"%char => Some (Caret, CaretEqual)
  | "!"%char => Some (Bang, BangEqual)
  | "="%char => Some (Equal, EqualEqual)
  | _ => None
  end.

(** [c in number_chars], [c in identifier_chars] *)
Definition number_chars (c : ascii) : bool :=
  ascii_digit c || bool_decide (c = underscore).
Definition identifier_chars (c : ascii) : bool :=
  ascii_letter c || ascii_digit c || bool_decide (c = underscore).

(** [Tokenizer.__init__] *)
Definition Tokenizer_init (text : list ascii) : Tokenizer :=
  mkTokenizer text 0 0.

(** [Tokenizer.match] *)
Definition match_ (c : ascii) (t : Tokenizer) : bool * Tokenizer :=
  match source t !! idx t with
  | Some c' =>
      if bool_decide (c' = c)
      then (true, mkTokenizer (source t) (S (idx t)) (line t))
      else (false, t)
  | None => (false, t)
  end.

(** [while self.idx < len(self.source) and self.source[self.idx] in chars:
       self.idx += 1]
    run for at most [n] rounds; [len(source) - idx] rounds exhaust it. *)
Fixpoint scan (chars : ascii -> bool) (src : list ascii) (n : nat) (i : nat) : nat :=
  match n with
  | O => i
  | S n' =>
      match src !! i with
      | Some c => if chars c then scan chars src n' (S i) else i
      | None => i
      end
  end.

Definition tokenize_number (t : Tokenizer) : result (Token * Tokenizer) :=
  let start_idx := (idx t - 1)%nat in
  let i := scan number_chars (source t) (length (source t) - idx t) (idx t) in
  bind (int (slice start_idx i (source t))) (fun number =>
  Ok (Token.mk IntLiteral (VInt number) (line t),
      mkTokenizer (source t) i (line t))).

Definition tokenize_identifier (t : Tokenizer) : Token * Tokenizer :=
  let start_idx := (idx t - 1)%nat in
  let i := scan identifier_chars (source t) (length (source t) - idx t) (idx t) in
  let text := String.string_of_list_ascii (slice start_idx i (source t)) in
  let t' := mkTokenizer (source t) i (line t) in
  match keyword_map text with
  | Some kw => (Token.mk kw VNone (line t), t')
  | None => (Token.mk Identifier (VStr text) (line t), t')
  end.

(** The loop of [tokenize_string], carrying [(self.idx, self.line)]. *)
Fixpoint string_loop (close : ascii) (src : list ascii) (n : nat) (i ln : nat)
  : nat * nat :=
  match n with
  | O => (i, ln)
  | S n' =>
      match src !! i with
      | Some c =>
          if bool_decide (c = close) then (i, ln)
          else string_loop close src n' (S i)
                 (if bool_decide (c = newline) then S ln else ln)
      | None => (i, ln)
      end
  end.

(** [close = self.source[self.idx - 1]] is the character [__call__] has
    just read. *)
Definition tokenize_string (close : ascii) (t : Tokenizer) : Token * Tokenizer :=
  let start_idx := idx t in
  let start_line := line t in
  let '(i, ln) :=
    string_loop close (source t) (length (source t) - idx t) (idx t) (line t) in
  let i := S i in
  let text := String.string_of_list_ascii (slice start_idx (i - 1) (source t)) in
  (Token.mk StringLiteral (VStr text) start_line, mkTokenizer (source t) i ln).

(** The second [if] chain of [__call__], reached by every character the
    first chain does not return or [continue] on. *)
Definition operator_chain (c : ascii) (t : Tokenizer) : Token * Tokenizer :=
  match regular_operators c with
  | Some (plain, assign) =>
      let '(m, t) := match_ "="%char t in
      if m then (Token.mk assign VNone (line t), t)
      else (Token.mk plain VNone (line t), t)
  | None =>
      if bool_decide (c = "-"%char) then
        let '(m, t) := match_ ">"%char t in
        if m then (Token.mk Arrow VNone (line t), t)
        else
          let '(m, t) := match_ "="%char t in
          if m then (Token.mk MinusEqual VNone (line t), t)
          else (Token.mk Minus VNone (line t), t)
      else if bool_decide (c = ">"%char) then
        let '(m, t) := match_ ">"%char t in
        if m then
          let '(m, t) := match_ "="%char t in
          if m then (Token.mk RShiftEqual VNone (line t), t)
          else (Token.mk RShift VNone (line t), t)
        else
          let '(m, t) := match_ "="%char t in
          if m then (Token.mk GreaterEqual VNone (line t), t)
          else (Token.mk Greater VNone (line t), t)
      else if bool_decide (c = "<"%char) then
        let '(m, t) := match_ "<"%char t in
        if m then
          let '(m, t) := match_ "="%char t in
          if m then (Token.mk LShiftEqual VNone (line t), t)
          else (Token.mk LShift VNone (line t), t)
        else
          let '(m, t) := match_ "="%char t in
          if m then (Token.mk LesserEqual VNone (line t), t)
          else (Token.mk Lesser VNone (line t), t)
      else (Token.mk Error (UnknownCharacterError c) (line t), t)
  end.

Definition end_of_file (t : Tokenizer) : Token * Tokenizer :=
  (Token.mk EndOfFile (VInt (Z.of_nat (idx t))) (line t), t).

(** [Tokenizer.__call__]: the [while] loop run for at most [n] rounds.
    Only a space makes it go round again. *)
Fixpoint call_loop (n : nat) (t : Tokenizer) : result (Token * Tokenizer) :=
  match n with
  | O => Ok (end_of_file t)
  | S n' =>
      match source t !! idx t with
      | None => Ok (end_of_file t)
      | Some c =>
          let line0 := line t in
          let t := mkTokenizer (source t) (S (idx t)) (line t) in
          if bool_decide (c = " "%char) then call_loop n' t
          else if bool_decide (c = newline) then
            Ok (operator_chain c (mkTokenizer (source t) (idx t) (S (line t))))
          else
            match single_char_literals c with
            | Some tp => Ok (Token.mk tp VNone line0, t)
            | None =>
                if isdigit c then tokenize_number t
                else if isalpha c || bool_decide (c = underscore) then
                  Ok (tokenize_identifier t)
                else if bool_decide (c = "'"%char) || bool_decide (c = double_quote) then
                  Ok (tokenize_string c t)
                else Ok (operator_chain c t)
            end
      end
  end.

Definition call (t : Tokenizer) : result (Token * Tokenizer) :=
  call_loop (length (source t) - idx t) t.

(** A character for which some branch of [__call__] other than the final
    [else] is written. *)
Definition recognized (c : ascii) : bool :=
  bool_decide (c = " "%char) || bool_decide (c = newline)
  || bool_decide (is_Some (single_char_literals c))
  || isdigit c || isalpha c || bool_decide (c = underscore)
  || bool_decide (c = "'"%char) || bool_decide (c = double_quote)
  || bool_decide (is_Some (regular_operators c))
  || bool_decide (c = "-"%char) || bool_decide (c = ">"%char)
  || bool_decide (c = "<"%char).

(** *** Vocabulary of the statements about the tokenizer *)

Definition text (s : string) : list ascii := String.list_ascii_of_string s.

(** The newlines of a text. *)
Definition count_newlines (s : list ascii) : nat :=
  length (filter (fun c => c = newline) s).

(** The digit strings [int] accepts: digits, with single underscores
    between digits. *)
Inductive grouped : list ascii -> Prop :=
| grouped_last d : ascii_digit d = true -> grouped [d]
| grouped_digit d s : ascii_digit d = true -> grouped s -> grouped (d :: s)
| grouped_sep d s :
    ascii_digit d = true -> grouped s -> grouped (d :: underscore :: s).

Definition strip_underscores (s : list ascii) : list ascii :=
  filter (fun c => c <> underscore) s.

(** The number a string of digits writes, continuing from [acc]. *)
Definition decimal_from (acc : Z) (ds : list ascii) : Z :=
  fold_left (fun acc c => 10 * acc + digit_value c) ds acc.
Definition decimal (ds : list ascii) : Z := decimal_from 0 ds.


(** What each token type carries.  BoolLiteral and FloatLiteral are in the
    enumeration, but no rule of the tokenizer builds them. *)
Definition payload_ok (tok : Token) : Prop :=
  match Token.type tok with
  | Identifier =>
      exists s, Token.value tok = VStr s /\ keyword_map s = None
  | IntLiteral => exists n, Token.value tok = VInt n /\ 0 <= n
  | StringLiteral => exists s, Token.value tok = VStr s
  | Error =>
      exists c, Token.value tok = UnknownCharacterError c
                /\ (recognized c = false \/ c = newline)
  | EndOfFile => exists n, Token.value tok = VInt n /\ 0 <= n
  | BoolLiteral | FloatLiteral => False
  | _ => Token.value tok = VNone
  end.

(** The token [tokenize_identifier] builds for a word. *)
Definition word_token (word : string) (ln : nat) : Token :=
  match keyword_map word with
  | Some kw => Token.mk kw VNone ln
  | None => Token.mk Identifier (VStr word) ln
  end.

(** A run ends at the end of the text or before a character that the
    scanning loop refuses. *)
Definition stops (chars : ascii -> bool) (post : list ascii) : Prop :=
  match post with
  | [] => True
  | c :: _ => chars c = false
  end.

(** The tokenizer after a step, seen from the tokenizer before it. *)
Definition later (t t' : Tokenizer) : Prop :=
  source t' = source t
  /\ (idx t <= idx t')%nat
  /\ (line t <= line t')%nat
  /\ (idx t' <= Nat.max (idx t) (S (length (source t))))%nat.

(** The operator token types, all without payload. *)
Definition operator_type (tp : TokenType.t) : bool :=
  match tp with
  | TokenType.Equal | TokenType.Bang | TokenType.Plus | TokenType.Minus
  | TokenType.Star | TokenType.Slash | TokenType.Percent | TokenType.Ampersand
  | TokenType.Pipe | TokenType.Caret | TokenType.LShift | TokenType.RShift
  | TokenType.Greater | TokenType.Lesser | TokenType.EqualEqual
  | TokenType.BangEqual | TokenType.PlusEqual | TokenType.MinusEqual
  | TokenType.StarEqual | TokenType.SlashEqual | TokenType.PercentEqual
  | TokenType.AmpersandEqual | TokenType.PipeEqual | TokenType.CaretEqual
  | TokenType.LShiftEqual | TokenType.RShiftEqual | TokenType.GreaterEqual
  | TokenType.LesserEqual | TokenType.Arrow => true
  | _ => false
  end.

End Lexer.

(* ===================================================================== *)
(** ** src/front/expression.py, src/front/statement.py                    *)
(* ===================================================================== *)

Module Ast.
Import Lexer Types.

Module ConstantKind.
Inductive t : Type := Bool | Int | Float | String.
End ConstantKind.

Module UnaryOperatorKind.
Inductive t : Type := Negate | Posate | Flip | Invert.
End UnaryOperatorKind.

Module BinaryOperatorKind.
Inductive t : Type :=
| Add | Subtract | Multiply | Divide | Modulo
| Bitand | Bitor | Bitxor | LShift | RShift
| CmpGreater | CmpGreaterEqual | CmpLesser | CmpLesserEqual
| CmpEqual | CmpInEqual.

(** [BinaryOperator.operator_strings] *)
Definition operator_strings (k : t) : string :=
  match k with
  | Add => "+" | Subtract => "-" | Multiply => "*" | Divide => "/"
  | Modulo => "%" | Bitand => "&" | Bitxor => "^" | Bitor => "|"
  | LShift => "<<" | RShift => ">>"
  | CmpGreater => ">" | CmpGreaterEqual => ">="
  | CmpLesser => "<" | CmpLesserEqual => "<="
  | CmpEqual => "==" | CmpInEqual => "!="
  end.
End BinaryOperatorKind.

(** A slot that holds an expression may hold [None]: [parse_atom] falls
    off its [if] chain when no branch applies. *)
Inductive Expression : Type :=
| Constant (kind : ConstantKind.t) (value : Value)
| Identifier (name : Value)
| UnaryOperator (operator : UnaryOperatorKind.t) (expr : option Expression)
| BinaryOperator (lhs : option Expression) (operator : BinaryOperatorKind.t)
                 (rhs : option Expression)
| TernaryOperator (condition if_clause else_clause : option Expression).

Inductive Statement : Type :=
| ExpressionStatement (expr : option Expression)
| ReturnStatement (expr : option Expression)
| StatementBlock (statements : list Statement)
| IfStatement (condition : option Expression) (if_clause : Statement)
              (else_clause : option Statement)
| VariableDeclaration (name : Value) (qualified_type : QualifiedType)
                      (initializer : option Expression)
| FunctionDef (name : Value) (function_type : UnqualifiedType)
              (arg_names : list Value) (code : option Statement)
| ModuleDefinition (statements : list Statement).

Definition arguments (ft : UnqualifiedType) : list QualifiedType :=
  match ft with
  | Function _ args => args
  | _ => []
  end.

Definition is_StatementBlock (s : Statement) : bool :=
  match s with StatementBlock _ => true | _ => false end.

(** [FunctionDefinition.__init__], with its two assertions. *)
Definition FunctionDefinition (name : Value) (tp : UnqualifiedType)
    (names : list Value) (code : option Statement) : result Statement :=
  bind (assert (length (arguments tp) =? length names)%nat) (fun _ =>
  bind (assert (match code with
                | None => true
                | Some c => is_StatementBlock c
                end)) (fun _ =>
  Ok (FunctionDef name tp names code))).

End Ast.

(* ===================================================================== *)
(** ** src/folder/parser.py                                               *)
(* ===================================================================== *)

Module Parse.
Import Lexer Types Ast.

Module SymbolEntryKind.
(** [Variable] and [Type] are reserved words here. *)
Inductive t : Type := Variable_ | Type_.
Definition eqb (a b : t) : bool :=
  match a, b with
  | Variable_, Variable_ | Type_, Type_ => true
  | _, _ => false
  end.
End SymbolEntryKind.

Module SymbolEntry.
Record t : Type := mk { kind : SymbolEntryKind.t; type : QualifiedType }.
End SymbolEntry.

Module OpInfo.
Record t : Type := mk {
  precedence : Z;
  left_associativity : bool;
  kind : BinaryOperatorKind.t
}.
End OpInfo.

(** [Parser.operator_map]; [None] for a token type that is not a key. *)
Definition operator_map (tp : TokenType.t) : option OpInfo.t :=
  match tp with
  | TokenType.Star => Some (OpInfo.mk 0 true BinaryOperatorKind.Multiply)
  | TokenType.Slash => Some (OpInfo.mk 0 true BinaryOperatorKind.Divide)
  | TokenType.Percent => Some (OpInfo.mk 0 true BinaryOperatorKind.Modulo)
  | TokenType.Plus => Some (OpInfo.mk (-1) true BinaryOperatorKind.Add)
  | TokenType.Minus => Some (OpInfo.mk (-1) true BinaryOperatorKind.Subtract)
  | TokenType.LShift => Some (OpInfo.mk (-2) true BinaryOperatorKind.LShift)
  | TokenType.RShift => Some (OpInfo.mk (-2) true BinaryOperatorKind.RShift)
  | TokenType.Greater => Some (OpInfo.mk (-3) true BinaryOperatorKind.CmpGreater)
  | TokenType.GreaterEqual =>
      Some (OpInfo.mk (-3) true BinaryOperatorKind.CmpGreaterEqual)
  | TokenType.Lesser => Some (OpInfo.mk (-3) true BinaryOperatorKind.CmpLesser)
  | TokenType.LesserEqual =>
      Some (OpInfo.mk (-3) true BinaryOperatorKind.CmpLesserEqual)
  | TokenType.Equal => Some (OpInfo.mk (-4) true BinaryOperatorKind.CmpEqual)
  | TokenType.BangEqual => Some (OpInfo.mk (-4) true BinaryOperatorKind.CmpInEqual)
  | TokenType.Ampersand => Some (OpInfo.mk (-5) true BinaryOperatorKind.Bitand)
  | TokenType.Caret => Some (OpInfo.mk (-6) true BinaryOperatorKind.Bitxor)
  | TokenType.Pipe => Some (OpInfo.mk (-7) true BinaryOperatorKind.Bitor)
  | _ => None
  end.

Record Parser : Type := mkParser {
  source_code : list ascii;
  tokenizer : Tokenizer;
  token : Token;
  errors : list string;
  symbol_table : list (gmap string SymbolEntry.t);
  void_type : QualifiedType
}.

Definition set_token (tz : Tokenizer) (tok : Token) (p : Parser) : Parser :=
  mkParser (source_code p) tz tok (errors p) (symbol_table p) (void_type p).
Definition set_errors (es : list string) (p : Parser) : Parser :=
  mkParser (source_code p) (tokenizer p) (token p) es (symbol_table p) (void_type p).
Definition set_symbol_table (st : list (gmap string SymbolEntry.t)) (p : Parser)
  : Parser :=
  mkParser (source_code p) (tokenizer p) (token p) (errors p) st (void_type p).

(** [Parser.__init__] *)
Definition Parser_init (text : list ascii) : result Parser :=
  let tz := Tokenizer_init text in
  Py.bind (Lexer.call tz) (fun '(tok, tz) =>
  let void := QualifiedType_init VoidType 0 in
  let table : list (gmap string SymbolEntry.t) := [∅] in
  Py.bind (IntegerType 32 true) (fun int32 =>
  let entry := SymbolEntry.mk SymbolEntryKind.Type_ (QualifiedType_init int32 0) in
  let table := alter (insert "i32"%string entry) (length table - 1)%nat table in
  Ok (mkParser text tz tok [] table void))).

(** *** Methods as state transformers

    A method call on a parser either returns a value and the parser
    after the call, or raises, or is not finished within the fuel the
    model was given. *)
Inductive outcome (A : Type) : Type :=
| Return (a : A) (p : Parser)
| Raised (e : exn)
| OutOfFuel.
Arguments Return {A} a p.
Arguments Raised {A} e.
Arguments OutOfFuel {A}.

Definition M (A : Type) : Type := Parser -> outcome A.

Definition ret {A} (a : A) : M A := fun p => Return a p.

Definition bind {A B} (m : M A) (k : A -> M B) : M B :=
  fun p =>
    match m p with
    | Return a p' => k a p'
    | Raised e => Raised e
    | OutOfFuel => OutOfFuel
    end.

Definition out_of_fuel {A} : M A := fun _ => OutOfFuel.

Definition lift {A} (r : result A) : M A :=
  fun p => match r with Ok a => Return a p | Raise e => Raised e end.

Definition get {A} (f : Parser -> A) : M A := fun p => Return (f p) p.

Declare Scope parser_scope.
Delimit Scope parser_scope with parser.
Notation "x <- c ;; k" := (bind c (fun x => k))
  (at level 100, c at next level, right associativity) : parser_scope.
Notation "c ;;; k" := (bind c (fun _ => k))
  (at level 100, right associativity) : parser_scope.
Local Open Scope parser_scope.

(** [self.token = self.tokenizer()] *)
Definition read_token : M unit :=
  fun p =>
    match Lexer.call (tokenizer p) with
    | Ok (tok, tz) => Return tt (set_token tz tok p)
    | Raise e => Raised e
    end.

(** [self.errors.append(s)] *)
Definition errors_append (s : string) : M unit :=
  fun p => Return tt (set_errors (errors p ++ [s]) p).

(** [d.get(key, None)]: the key is hashed, and an
    [UnknownCharacterError] (a dataclass with [eq] and without [frozen])
    is unhashable. *)
Definition dict_get (d : gmap string SymbolEntry.t) (key : Value)
  : result (option SymbolEntry.t) :=
  match key with
  | VStr s => Ok (d !! s)
  | VNone | VInt _ => Ok None
  | UnknownCharacterError _ => Raise TypeError
  end.

Fixpoint search_scopes (key : Value) (scopes : list (gmap string SymbolEntry.t))
  : result (option SymbolEntry.t) :=
  match scopes with
  | [] => Ok None
  | d :: rest =>
      Py.bind (dict_get d key) (fun e =>
      match e with
      | Some e => Ok (Some e)
      | None => search_scopes key rest
      end)
  end.

Definition search_symbol (key : Value) : M (option SymbolEntry.t) :=
  fun p => lift (search_scopes key (reverse (symbol_table p))) p.

Definition enter_scope : M unit :=
  fun p => Return tt (set_symbol_table (symbol_table p ++ [∅]) p).

(** [list.pop()] raises [IndexError] on an empty list. *)
Definition leave_scope : M unit :=
  fun p =>
    match symbol_table p with
    | [] => Raised IndexError
    | _ => Return tt (set_symbol_table (removelast (symbol_table p)) p)
    end.

Definition advance : M Token :=
  t <- get token ;;
  read_token ;;;
  ret t.

Definition match_ (tp : TokenType.t) : M bool :=
  t <- get token ;;
  if TokenType.eqb (Token.type t) tp then read_token ;;; ret true
  else ret false.

Definition consume (t : TokenType.t) (s : string) : M bool :=
  tok <- get token ;;
  if TokenType.eqb (Token.type tok) t then read_token ;;; ret true
  else errors_append s ;;; ret false.

(** [f"{name}"] *)
Definition format (v : Value) : string :=
  match v with
  | VNone => "None"
  | VInt n => pretty n
  | VStr s => s
  | UnknownCharacterError c => "UnknownChar('" +:+ String c EmptyString +:+ "')"
  end.

Definition parse_type_expression : M QualifiedType :=
  tok <- get token ;;
  let name := Token.value tok in
  consume TokenType.Identifier "Type must be an identifier" ;;;
  entry <- search_symbol name ;;
  void <- get void_type ;;
  match entry with
  | None =>
      errors_append ("No type found with name " +:+ format name) ;;;
      ret void
  | Some entry =>
      if negb (SymbolEntryKind.eqb (SymbolEntry.kind entry) SymbolEntryKind.Type_)
      then
        errors_append "Non-type symbol used as a type expression" ;;;
        ret void
      else
        m <- match_ TokenType.Ampersand ;;
        if m then ret (add_flags (SymbolEntry.type entry) Reference)
        else ret (SymbolEntry.type entry)
  end.

(** The default of [parse_expression]'s [min_prec]. *)
Definition default_min_prec : Z := -1000.

(** The argument loop of [parse_function_definition], carrying
    [(arg_names, arg_types)]. *)
Fixpoint arguments_loop (n : nat) (names : list Value) (tys : list QualifiedType)
  : M (list Value * list QualifiedType) :=
  match n with
  | O => out_of_fuel
  | S n =>
      tok <- get token ;;
      if TokenType.eqb (Token.type tok) TokenType.Identifier then
        t <- advance ;;
        let arg_name := Token.value t in
        consume TokenType.Colon "Expected ':' after function parameter name" ;;;
        arg_type <- parse_type_expression ;;
        let names := names ++ [arg_name] in
        let tys := tys ++ [arg_type] in
        m <- match_ TokenType.Comma ;;
        if negb m then ret (names, tys)
        else arguments_loop n names tys
      else ret (names, tys)
  end.

Fixpoint parse_atom (n : nat) : M (option Expression) :=
  match n with
  | O => out_of_fuel
  | S n =>
      tok <- get token ;;
      m <- match_ TokenType.Identifier ;;
      if m then ret (Some (Identifier (Token.value tok))) else
      m <- match_ TokenType.IntLiteral ;;
      if m then ret (Some (Constant ConstantKind.Int (Token.value tok))) else
      m <- match_ TokenType.StringLiteral ;;
      if m then ret (Some (Constant ConstantKind.String (Token.value tok))) else
      m <- match_ TokenType.Minus ;;
      if m then e <- parse_atom n ;;
                ret (Some (UnaryOperator UnaryOperatorKind.Negate e)) else
      m <- match_ TokenType.Plus ;;
      if m then e <- parse_atom n ;;
                ret (Some (UnaryOperator UnaryOperatorKind.Posate e)) else
      m <- match_ TokenType.Bang ;;
      if m then e <- parse_atom n ;;
                ret (Some (UnaryOperator UnaryOperatorKind.Flip e)) else
      m <- match_ TokenType.Tilde ;;
      if m then e <- parse_atom n ;;
                ret (Some (UnaryOperator UnaryOperatorKind.Invert e)) else
      m <- match_ TokenType.LParen ;;
      if m then parse_parenthesis n
      else ret None
  end

with parse_parenthesis (n : nat) : M (option Expression) :=
  match n with
  | O => out_of_fuel
  | S n =>
      e <- parse_expression n default_min_prec ;;
      consume TokenType.RParen "Expected ')' after expression in parenthesis" ;;;
      ret e
  end

with parse_expression (n : nat) (min_prec : Z) : M (option Expression) :=
  match n with
  | O => out_of_fuel
  | S n =>
      lhs <- parse_atom n ;;
      expression_loop n min_prec lhs
  end

(** The [while] loop of [parse_expression], carrying [lhs]. *)
with expression_loop (n : nat) (min_prec : Z) (lhs : option Expression)
  : M (option Expression) :=
  match n with
  | O => out_of_fuel
  | S n =>
      tok <- get token ;;
      match operator_map (Token.type tok) with
      | None => ret lhs
      | Some info =>
          if OpInfo.precedence info <? min_prec then ret lhs
          else
            advance ;;;
            let next_prec :=
              OpInfo.precedence info
              + (if OpInfo.left_associativity info then 1 else 0) in
            rhs <- parse_expression n next_prec ;;
            expression_loop n min_prec
              (Some (BinaryOperator lhs (OpInfo.kind info) rhs))
      end
  end.

Definition parse_variable_declaration (n : nat) : M Statement :=
  tok <- get token ;;
  let name := Token.value tok in
  consume TokenType.Identifier "Variable declaration must have a name!" ;;;
  consume TokenType.Colon "Expected ':' after variable declaration name" ;;;
  tp <- parse_type_expression ;;
  m <- match_ TokenType.Equal ;;
  init <- (if m then parse_expression n default_min_prec else ret None) ;;
  consume TokenType.Semicolon "Expected ';' after variable declaration" ;;;
  ret (VariableDeclaration name tp init).

Fixpoint parse_statement (n : nat) : M Statement :=
  match n with
  | O => out_of_fuel
  | S n =>
      m <- match_ TokenType.ReturnKW ;;
      if m then
        e <- parse_expression n default_min_prec ;;
        consume TokenType.Semicolon "Expected ';' after return statement" ;;;
        ret (ReturnStatement e)
      else
      m <- match_ TokenType.FnKW ;;
      if m then parse_function_definition n else
      m <- match_ TokenType.VarKW ;;
      if m then parse_variable_declaration n else
      m <- match_ TokenType.IfKW ;;
      if m then parse_if n else
      m <- match_ TokenType.LBrace ;;
      if m then parse_block n []
      else
        e <- parse_expression n default_min_prec ;;
        consume TokenType.Semicolon "Expected ';' after expression statement" ;;;
        ret (ExpressionStatement e)
  end

(** [parse_block]: its loop, carrying [statements]. *)
with parse_block (n : nat) (statements : list Statement) : M Statement :=
  match n with
  | O => out_of_fuel
  | S n =>
      m <- match_ TokenType.RBrace ;;
      if negb m then
        s <- parse_statement n ;;
        parse_block n (statements ++ [s])
      else ret (StatementBlock statements)
  end

with parse_if (n : nat) : M Statement :=
  match n with
  | O => out_of_fuel
  | S n =>
      consume TokenType.LParen "Expected '(' after if statement" ;;;
      condition <- parse_expression n default_min_prec ;;
      consume TokenType.RParen "Expected ')' after if's condition" ;;;
      if_clause <- parse_statement n ;;
      m <- match_ TokenType.ElseKW ;;
      if m then
        else_clause <- parse_statement n ;;
        ret (IfStatement condition if_clause (Some else_clause))
      else ret (IfStatement condition if_clause None)
  end

with parse_function_definition (n : nat) : M Statement :=
  match n with
  | O => out_of_fuel
  | S n =>
      tok <- get token ;;
      let name := Token.value tok in
      consume TokenType.Identifier "Function definition must have a name!" ;;;
      consume TokenType.LParen "Expected '(' after function name" ;;;
      args <- arguments_loop n [] [] ;;
      let '(arg_names, arg_types) := args in
      consume TokenType.RParen "Expected ')' after function arguments" ;;;
      consume TokenType.Arrow "Expected '->' after function arguments" ;;;
      ret_tp <- parse_type_expression ;;
      let func_type := FunctionType ret_tp arg_types in
      m <- match_ TokenType.Semicolon ;;
      if m then lift (FunctionDefinition name func_type arg_names None)
      else
        consume TokenType.LBrace "Expected '{' after function definition" ;;;
        code <- parse_block n [] ;;
        lift (FunctionDefinition name func_type arg_names (Some code))
  end.

(** [parse_module]: its loop, carrying [statements]. *)
Fixpoint module_loop (n : nat) (statements : list Statement) : M Statement :=
  match n with
  | O => out_of_fuel
  | S n =>
      tok <- get token ;;
      if negb (TokenType.eqb (Token.type tok) TokenType.EndOfFile) then
        stmt <- parse_statement n ;;
        module_loop n (statements ++ [stmt])
      else ret (ModuleDefinition statements)
  end.

Definition parse_module (n : nat) : M Statement := module_loop n [].

(** What a caller sees of [p = Parser(text); m = p.parse_module()]
    followed by reading [p.errors]. *)
Inductive run_result : Type :=
| Parsed (module : Statement) (diagnostics : list string)
| Failed (e : exn)
| Unfinished.

Definition run (n : nat) (text : string) : run_result :=
  match Parser_init (String.list_ascii_of_string text) with
  | Ok p =>
      match parse_module n p with
      | Return m p' => Parsed m (errors p')
      | Raised e => Failed e
      | OutOfFuel => Unfinished
      end
  | Raise e => Failed e
  end.

(** [Parser(text).parse_expression()] *)
Definition run_expression (n : nat) (text : string) : outcome (option Expression) :=
  match Parser_init (String.list_ascii_of_string text) with
  | Ok p => parse_expression n default_min_prec p
  | Raise e => Raised e
  end.

(** The symbol table [__init__] builds: the root scope with the
    built-in. *)
Definition root_scope : gmap string SymbolEntry.t :=
  {[ "i32"%string := SymbolEntry.mk SymbolEntryKind.Type_ i32 ]}.
Definition root_table : list (gmap string SymbolEntry.t) := [root_scope].

(** A computation that leaves the symbol table as it found it. *)
Definition keeps_table {A} (m : M A) : Prop :=
  forall p a p', m p = Return a p' -> symbol_table p' = symbol_table p.

(** *** Vocabulary of the statements about the parser *)

(** [Constant(ConstantKind.Int, n)] in an expression slot. *)
Definition int_const (n : Z) : option Expression :=
  Some (Constant ConstantKind.Int (VInt n)).

(** The message of [parse_statement]'s last branch. *)
Definition stuck_message : string := "Expected ';' after expression statement".


(** The parser after a method call, seen from the parser before it. *)
Definition follows (p p' : Parser) : Prop :=
  errors p `prefix_of` errors p'
  /\ source_code p' = source_code p
  /\ void_type p' = void_type p
  /\ later (tokenizer p) (tokenizer p').

Definition advances {A} (m : M A) : Prop :=
  forall p a p', m p = Return a p' -> follows p p'.

(** A computation whose diagnostics extend the diagnostics it found. *)
Definition appends_only {A} (m : M A) : Prop :=
  forall p a p', m p = Return a p' -> errors p `prefix_of` errors p'.

(** A computation that leaves the text and the Void placeholder alone and
    moves the tokenizer forward only. *)
Definition keeps_frame {A} (m : M A) : Prop :=
  forall p a p',
    m p = Return a p' ->
    source_code p' = source_code p
    /\ void_type p' = void_type p
    /\ source (tokenizer p') = source (tokenizer p)
    /\ (idx (tokenizer p) <= idx (tokenizer p'))%nat
    /\ (line (tokenizer p) <= line (tokenizer p'))%nat.

(** A computation that returns only values with [Q] and raises nothing
    but the tokenizer's [ValueError] and the lookup's [TypeError]. *)
Definition yields {A} (m : M A) (Q : A -> Prop) : Prop :=
  forall p,
    match m p with
    | Return a _ => Q a
    | Raised e => e = ValueError \/ e = TypeError
    | OutOfFuel => True
    end.

(** A function definition as [FunctionDefinition.__init__] asserts it. *)
Definition well_formed_function (s : Statement) : Prop :=
  exists name ret args names code,
    s = FunctionDef name (Function ret args) names code
    /\ length args = length names
    /\ (code = None \/ exists body, code = Some (StatementBlock body)).

(** The token types on which a branch of [parse_statement], of
    [parse_atom] applies. *)
Definition starts_statement (tp : TokenType.t) : bool :=
  match tp with
  | TokenType.ReturnKW | TokenType.FnKW | TokenType.VarKW
  | TokenType.IfKW | TokenType.LBrace => true
  | _ => false
  end.

Definition starts_atom (tp : TokenType.t) : bool :=
  match tp with
  | TokenType.Identifier | TokenType.IntLiteral | TokenType.StringLiteral
  | TokenType.Minus | TokenType.Plus | TokenType.Bang | TokenType.Tilde
  | TokenType.LParen => true
  | _ => false
  end.

(** The token types on which a statement is parsed without reading a
    token: nothing starts there, it is no operator and no [';']. *)
Definition no_progress (tp : TokenType.t) : bool :=
  negb (starts_statement tp) && negb (starts_atom tp)
  && negb (bool_decide (is_Some (operator_map tp)))
  && negb (TokenType.eqb tp TokenType.Semicolon).

(** Where [parse_expression(min_prec)] may stop: in front of a token that
    is no operator, or an operator below [min_prec]. *)
Definition stops_before (min_prec : Z) (tp : TokenType.t) : Prop :=
  match operator_map tp with
  | None => True
  | Some info => OpInfo.precedence info < min_prec
  end.

(** An expression the loop of [parse_expression(min_prec)] has folded: a
    binary operator of the table, of precedence [min_prec] or more. *)
Definition folded_at (min_prec : Z) (e : option Expression) : Prop :=
  exists lhs rhs tp info,
    operator_map tp = Some info
    /\ min_prec <= OpInfo.precedence info
    /\ e = Some (BinaryOperator lhs (OpInfo.kind info) rhs).

End Parse.

(* ===================================================================== *)
(** ** src/folder/parser.py, with the history of the symbol table         *)
(* ===================================================================== *)

(** The methods of [Parse] once more, word for word, in a monad that also
    keeps a log.  Every assignment to a field of the parser is followed by
    an entry with the symbol table as it is then, and every lookup that
    returns by an entry with the key and what was found.  The log is kept
    when a call raises or is not finished.  Erasing the log gives the
    methods of [Parse] back. *)
Module Traced.
Import Lexer Types Ast Parse.

Inductive event : Type :=
| Table (scopes : list (gmap string SymbolEntry.t))
| Lookup (key : Value) (found : option SymbolEntry.t).

Inductive outcome (A : Type) : Type :=
| Return (a : A) (p : Parser) (log : list event)
| Raised (e : exn) (log : list event)
| OutOfFuel (log : list event).
Arguments Return {A} a p log.
Arguments Raised {A} e log.
Arguments OutOfFuel {A} log.

Definition M (A : Type) : Type := Parser -> list event -> outcome A.

Definition ret {A} (a : A) : M A := fun p log => Return a p log.

Definition bind {A B} (m : M A) (k : A -> M B) : M B :=
  fun p log =>
    match m p log with
    | Return a p' log' => k a p' log'
    | Raised e log' => Raised e log'
    | OutOfFuel log' => OutOfFuel log'
    end.

Definition out_of_fuel {A} : M A := fun _ log => OutOfFuel log.

Definition lift {A} (r : result A) : M A :=
  fun p log => match r with Ok a => Return a p log | Raise e => Raised e log end.

Definition get {A} (f : Parser -> A) : M A := fun p log => Return (f p) p log.

(** The parser after an assignment, and the symbol table it has then. *)
Definition assigned (p' : Parser) (log : list event) : outcome unit :=
  Return tt p' (log ++ [Table (symbol_table p')]).

Declare Scope traced_scope.
Delimit Scope traced_scope with traced.
Notation "x <- c ;; k" := (bind c (fun x => k))
  (at level 100, c at next level, right associativity) : traced_scope.
Notation "c ;;; k" := (bind c (fun _ => k))
  (at level 100, right associativity) : traced_scope.
Local Open Scope traced_scope.

(** [self.token = self.tokenizer()] *)
Definition read_token : M unit :=
  fun p log =>
    match Lexer.call (tokenizer p) with
    | Ok (tok, tz) => assigned (set_token tz tok p) log
    | Raise e => Raised e log
    end.

(** [self.errors.append(s)] *)
Definition errors_append (s : string) : M unit :=
  fun p log => assigned (set_errors (errors p ++ [s]) p) log.

Definition search_symbol (key : Value) : M (option SymbolEntry.t) :=
  fun p log =>
    match search_scopes key (reverse (symbol_table p)) with
    | Ok found => Return found p (log ++ [Lookup key found])
    | Raise e => Raised e log
    end.

Definition enter_scope : M unit :=
  fun p log => assigned (set_symbol_table (symbol_table p ++ [∅]) p) log.

Definition leave_scope : M unit :=
  fun p log =>
    match symbol_table p with
    | [] => Raised IndexError log
    | _ => assigned (set_symbol_table (removelast (symbol_table p)) p) log
    end.

Definition advance : M Token :=
  t <- get token ;;
  read_token ;;;
  ret t.

Definition match_ (tp : TokenType.t) : M bool :=
  t <- get token ;;
  if TokenType.eqb (Token.type t) tp then read_token ;;; ret true
  else ret false.

Definition consume (t : TokenType.t) (s : string) : M bool :=
  tok <- get token ;;
  if TokenType.eqb (Token.type tok) t then read_token ;;; ret true
  else errors_append s ;;; ret false.

Definition parse_type_expression : M QualifiedType :=
  tok <- get token ;;
  let name := Token.value tok in
  consume TokenType.Identifier "Type must be an identifier" ;;;
  entry <- search_symbol name ;;
  void <- get void_type ;;
  match entry with
  | None =>
      errors_append ("No type found with name " +:+ format name) ;;;
      ret void
  | Some entry =>
      if negb (SymbolEntryKind.eqb (SymbolEntry.kind entry) SymbolEntryKind.Type_)
      then
        errors_append "Non-type symbol used as a type expression" ;;;
        ret void
      else
        m <- match_ TokenType.Ampersand ;;
        if m then ret (add_flags (SymbolEntry.type entry) Reference)
        else ret (SymbolEntry.type entry)
  end.

(** The argument loop of [parse_function_definition], carrying
    [(arg_names, arg_types)]. *)
Fixpoint arguments_loop (n : nat) (names : list Value) (tys : list QualifiedType)
  : M (list Value * list QualifiedType) :=
  match n with
  | O => out_of_fuel
  | S n =>
      tok <- get token ;;
      if TokenType.eqb (Token.type tok) TokenType.Identifier then
        t <- advance ;;
        let arg_name := Token.value t in
        consume TokenType.Colon "Expected ':' after function parameter name" ;;;
        arg_type <- parse_type_expression ;;
        let names := names ++ [arg_name] in
        let tys := tys ++ [arg_type] in
        m <- match_ TokenType.Comma ;;
        if negb m then ret (names, tys)
        else arguments_loop n names tys
      else ret (names, tys)
  end.

Fixpoint parse_atom (n : nat) : M (option Expression) :=
  match n with
  | O => out_of_fuel
  | S n =>
      tok <- get token ;;
      m <- match_ TokenType.Identifier ;;
      if m then ret (Some (Identifier (Token.value tok))) else
      m <- match_ TokenType.IntLiteral ;;
      if m then ret (Some (Constant ConstantKind.Int (Token.value tok))) else
      m <- match_ TokenType.StringLiteral ;;
      if m then ret (Some (Constant ConstantKind.String (Token.value tok))) else
      m <- match_ TokenType.Minus ;;
      if m then e <- parse_atom n ;;
                ret (Some (UnaryOperator UnaryOperatorKind.Negate e)) else
      m <- match_ TokenType.Plus ;;
      if m then e <- parse_atom n ;;
                ret (Some (UnaryOperator UnaryOperatorKind.Posate e)) else
      m <- match_ TokenType.Bang ;;
      if m then e <- parse_atom n ;;
                ret (Some (UnaryOperator UnaryOperatorKind.Flip e)) else
      m <- match_ TokenType.Tilde ;;
      if m then e <- parse_atom n ;;
                ret (Some (UnaryOperator UnaryOperatorKind.Invert e)) else
      m <- match_ TokenType.LParen ;;
      if m then parse_parenthesis n
      else ret None
  end

with parse_parenthesis (n : nat) : M (option Expression) :=
  match n with
  | O => out_of_fuel
  | S n =>
      e <- parse_expression n default_min_prec ;;
      consume TokenType.RParen "Expected ')' after expression in parenthesis" ;;;
      ret e
  end

with parse_expression (n : nat) (min_prec : Z) : M (option Expression) :=
  match n with
  | O => out_of_fuel
  | S n =>
      lhs <- parse_atom n ;;
      expression_loop n min_prec lhs
  end

(** The [while] loop of [parse_expression], carrying [lhs]. *)
with expression_loop (n : nat) (min_prec : Z) (lhs : option Expression)
  : M (option Expression) :=
  match n with
  | O => out_of_fuel
  | S n =>
      tok <- get token ;;
      match operator_map (Token.type tok) with
      | None => ret lhs
      | Some info =>
          if OpInfo.precedence info <? min_prec then ret lhs
          else
            advance ;;;
            let next_prec :=
              OpInfo.precedence info
              + (if OpInfo.left_associativity info then 1 else 0) in
            rhs <- parse_expression n next_prec ;;
            expression_loop n min_prec
              (Some (BinaryOperator lhs (OpInfo.kind info) rhs))
      end
  end.

Definition parse_variable_declaration (n : nat) : M Statement :=
  tok <- get token ;;
  let name := Token.value tok in
  consume TokenType.Identifier "Variable declaration must have a name!" ;;;
  consume TokenType.Colon "Expected ':' after variable declaration name" ;;;
  tp <- parse_type_expression ;;
  m <- match_ TokenType.Equal ;;
  init <- (if m then parse_expression n default_min_prec else ret None) ;;
  consume TokenType.Semicolon "Expected ';' after variable declaration" ;;;
  ret (VariableDeclaration name tp init).

Fixpoint parse_statement (n : nat) : M Statement :=
  match n with
  | O => out_of_fuel
  | S n =>
      m <- match_ TokenType.ReturnKW ;;
      if m then
        e <- parse_expression n default_min_prec ;;
        consume TokenType.Semicolon "Expected ';' after return statement" ;;;
        ret (ReturnStatement e)
      else
      m <- match_ TokenType.FnKW ;;
      if m then parse_function_definition n else
      m <- match_ TokenType.VarKW ;;
      if m then parse_variable_declaration n else
      m <- match_ TokenType.IfKW ;;
      if m then parse_if n else
      m <- match_ TokenType.LBrace ;;
      if m then parse_block n []
      else
        e <- parse_expression n default_min_prec ;;
        consume TokenType.Semicolon "Expected ';' after expression statement" ;;;
        ret (ExpressionStatement e)
  end

(** [parse_block]: its loop, carrying [statements]. *)
with parse_block (n : nat) (statements : list Statement) : M Statement :=
  match n with
  | O => out_of_fuel
  | S n =>
      m <- match_ TokenType.RBrace ;;
      if negb m then
        s <- parse_statement n ;;
        parse_block n (statements ++ [s])
      else ret (StatementBlock statements)
  end

with parse_if (n : nat) : M Statement :=
  match n with
  | O => out_of_fuel
  | S n =>
      consume TokenType.LParen "Expected '(' after if statement" ;;;
      condition <- parse_expression n default_min_prec ;;
      consume TokenType.RParen "Expected ')' after if's condition" ;;;
      if_clause <- parse_statement n ;;
      m <- match_ TokenType.ElseKW ;;
      if m then
        else_clause <- parse_statement n ;;
        ret (IfStatement condition if_clause (Some else_clause))
      else ret (IfStatement condition if_clause None)
  end

with parse_function_definition (n : nat) : M Statement :=
  match n with
  | O => out_of_fuel
  | S n =>
      tok <- get token ;;
      let name := Token.value tok in
      consume TokenType.Identifier "Function definition must have a name!" ;;;
      consume TokenType.LParen "Expected '(' after function name" ;;;
      args <- arguments_loop n [] [] ;;
      let '(arg_names, arg_types) := args in
      consume TokenType.RParen "Expected ')' after function arguments" ;;;
      consume TokenType.Arrow "Expected '->' after function arguments" ;;;
      ret_tp <- parse_type_expression ;;
      let func_type := FunctionType ret_tp arg_types in
      m <- match_ TokenType.Semicolon ;;
      if m then lift (FunctionDefinition name func_type arg_names None)
      else
        consume TokenType.LBrace "Expected '{' after function definition" ;;;
        code <- parse_block n [] ;;
        lift (FunctionDefinition name func_type arg_names (Some code))
  end.

(** [parse_module]: its loop, carrying [statements]. *)
Fixpoint module_loop (n : nat) (statements : list Statement) : M Statement :=
  match n with
  | O => out_of_fuel
  | S n =>
      tok <- get token ;;
      if negb (TokenType.eqb (Token.type tok) TokenType.EndOfFile) then
        stmt <- parse_statement n ;;
        module_loop n (statements ++ [stmt])
      else ret (ModuleDefinition statements)
  end.

Definition parse_module (n : nat) : M Statement := module_loop n [].

(** Forgetting the log. *)
Definition erase {A} (o : outcome A) : Parse.outcome A :=
  match o with
  | Return a p _ => Parse.Return a p
  | Raised e _ => Parse.Raised e
  | OutOfFuel _ => Parse.OutOfFuel
  end.

Definition log_of {A} (o : outcome A) : list event :=
  match o with
  | Return _ _ log => log
  | Raised _ log => log
  | OutOfFuel log => log
  end.

(** [p = Parser(text); p.parse_module()]: the log of the call, started
    with the table the constructor built. *)
Definition history (n : nat) (text : list ascii) : list event :=
  match Parser_init text with
  | Ok p => log_of (parse_module n p [Table (symbol_table p)])
  | Raise _ => []
  end.

(** *** Vocabulary of the statements about the log *)

(** An entry as the root scope alone allows it: the table is the root
    table; a lookup finds nothing, or finds the built-in under its name. *)
Definition root_event (ev : event) : Prop :=
  match ev with
  | Table scopes => scopes = root_table
  | Lookup key found =>
      found = None
      \/ (key = VStr "i32"
          /\ found = Some (SymbolEntry.mk SymbolEntryKind.Type_ i32))
  end.

(** The traced method does what the method does. *)
Definition erases {A} (mt : M A) (m : Parse.M A) : Prop :=
  forall p log, erase (mt p log) = m p.

(** The log is only added to. *)
Definition grows {A} (mt : M A) : Prop :=
  forall p log, log `prefix_of` log_of (mt p log).

(** Started on the root table with a log of root entries, the method logs
    root entries only and, if it returns, returns on the root table. *)
Definition stays_root {A} (mt : M A) : Prop :=
  forall p log,
    symbol_table p = root_table ->
    Forall root_event log ->
    Forall root_event (log_of (mt p log))
    /\ match mt p log with
       | Return _ p' _ => symbol_table p' = root_table
       | _ => True
       end.

End Traced.

(* ===================================================================== *)
(** * Properties                                                          *)
(* ===================================================================== *)

(** ** Type descriptors *)

Module TypesFacts.
Import Types.

Lemma max_member_align_nonneg ts : 0 <= max_member_align ts.
Proof.
  unfold max_member_align.
  induction ts as [|m ts IH]; [reflexivity|].
  rewrite fmap_cons. cbn [foldr]. lia.
Qed.

Lemma max_member_align_cons m ts :
  max_member_align (m :: ts) = Z.max (qalignof m) (max_member_align ts).
Proof. reflexivity. Qed.

Lemma sum_member_slots_cons m ts :
  sum_member_slots (m :: ts) = member_slot m + sum_member_slots ts.
Proof. reflexivity. Qed.

(** The state of the constructor's loop after the members [ts], started
    from [(tys, size, align)]. *)
Lemma tuple_loop ts : forall tys size align,
  0 <= align ->
  fold_left tuple_step ts (tys, size, align)
  = (tys ++ ts, size + sum_member_slots ts, Z.max align (max_member_align ts)).
Proof.
  induction ts as [|tp ts IH]; intros tys size align Hal.
  - cbn. rewrite app_nil_r. f_equal; [f_equal|]; lia.
  - cbn [fold_left tuple_step]. rewrite IH by lia.
    rewrite max_member_align_cons, sum_member_slots_cons, <- app_assoc.
    unfold member_slot. cbn [app]. f_equal; [f_equal|]; lia.
Qed.

Lemma TupleType_eq ts :
  TupleType ts = Tuple ts (sum_member_slots ts) (Z.max 0 (max_member_align ts)).
Proof. unfold TupleType. rewrite tuple_loop by lia. reflexivity. Qed.

Lemma max_member_align_upper ts :
  Forall (fun m => qalignof m <= max_member_align ts) ts.
Proof.
  induction ts as [|m ts IH]; constructor.
  - rewrite max_member_align_cons. lia.
  - eapply Forall_impl; [exact IH|]. cbn beta. intros x Hx.
    rewrite max_member_align_cons. lia.
Qed.

Lemma max_member_align_attained ts :
  max_member_align ts = 0
  \/ Exists (fun m => qalignof m = max_member_align ts) ts.
Proof.
  induction ts as [|m ts IH]; [left; reflexivity|].
  rewrite max_member_align_cons. destruct (Z.max_spec (qalignof m) (max_member_align ts)) as [[Hlt ->]|[Hle ->]].
  - destruct IH as [H0|Hex].
    + pose proof (max_member_align_nonneg ts). left; lia.
    + right. apply Exists_cons_tl. exact Hex.
  - right. apply Exists_cons_hd. reflexivity.
Qed.

(** C8: [sizeof(Integer(32)) == 32]; an Array's size is its element's
    size times the count and its alignment is its element's;
    [sizeof(Array(Integer(32), 4)) == 128]; a Tuple's size is the sum over
    its members of 8 for a reference and of the member's size otherwise,
    and its alignment is the largest member alignment (0 for no member):
    it bounds every member's and, unless it is 0, some member has it;
    [alignof(Tuple([Integer(32), Integer(32)])) == 32]. *)
Theorem sizeof_alignof_table :
  (IntegerType 32 true = Ok (Integer 32 true)
   /\ sizeof (Integer 32 true) = 32)
  /\ (forall u c,
        ArrayType u c
        = (if is_reference u then Raise AssertionError else Ok (Array u c))
        /\ sizeof (Array u c) = qsizeof u * c
        /\ alignof (Array u c) = qalignof u)
  /\ (ArrayType i32 4 = Ok (Array i32 4) /\ sizeof (Array i32 4) = 128)
  /\ (forall ts,
        sizeof (TupleType ts) = sum_member_slots ts
        /\ alignof (TupleType ts) = max_member_align ts
        /\ Forall (fun m => qalignof m <= alignof (TupleType ts)) ts
        /\ (alignof (TupleType ts) = 0
            \/ Exists (fun m => qalignof m = alignof (TupleType ts)) ts))
  /\ alignof (TupleType [i32; i32]) = 32.
Proof.
  split; [split; reflexivity|].
  split.
  { intros u c. split; [|split; reflexivity].
    unfold ArrayType. destruct (is_reference u); reflexivity. }
  split; [split; reflexivity|].
  split; [|reflexivity].
  intros ts. rewrite TupleType_eq. cbn [sizeof alignof].
  pose proof (max_member_align_nonneg ts) as Hnn.
  rewrite Z.max_r by exact Hnn.
  split; [reflexivity|]. split; [reflexivity|].
  split; [apply max_member_align_upper | apply max_member_align_attained].
Qed.

(** The bit test of [IntegerType.__init__] accepts 0 and the powers of
    two, and nothing else. *)
Lemma land_pred_pos (p : positive) :
  Z.land (Z.pos p) (Z.pos p - 1) = 0 <-> exists k, 0 <= k /\ Z.pos p = 2 ^ k.
Proof.
  induction p as [p IH|p IH|].
  - (* odd and above 1: bit 0 of both is not shared, bit of [2p] is *)
    split.
    + intros H. exfalso.
      replace (Z.pos p~1 - 1) with (2 * Z.pos p) in H by lia.
      replace (Z.pos p~1) with (2 * Z.pos p + 1) in H by lia.
      assert (Hl : Z.land (2 * Z.pos p + 1) (2 * Z.pos p) = 2 * Z.pos p).
      { apply Z.bits_inj'. intros n Hn. rewrite Z.land_spec.
        destruct (Z.eq_dec n 0) as [->|Hne].
        - rewrite Z.testbit_odd_0, Z.testbit_even_0. reflexivity.
        - replace n with (Z.succ (n - 1)) by lia.
          rewrite Z.testbit_odd_succ, Z.testbit_even_succ by lia.
          apply andb_diag. }
      lia.
    + intros (k & Hk & E). exfalso.
      destruct (Z.eq_dec k 0) as [->|Hne]; [cbn in E; lia|].
      assert (Heven : Z.even (2 ^ k) = true).
      { replace k with (Z.succ (k - 1)) by lia.
        rewrite Z.pow_succ_r by lia. apply Z.even_mul. }
      rewrite <- E in Heven. discriminate.
  - replace (Z.pos p~0) with (2 * Z.pos p) by lia.
    assert (Hl : Z.land (2 * Z.pos p) (2 * Z.pos p - 1)
                 = 2 * Z.land (Z.pos p) (Z.pos p - 1)).
    { apply Z.bits_inj'. intros n Hn.
      rewrite Z.land_spec.
      destruct (Z.eq_dec n 0) as [->|Hne].
      - rewrite !Z.testbit_even_0. reflexivity.
      - replace n with (Z.succ (n - 1)) by lia.
        rewrite !Z.testbit_even_succ by lia.
        replace (2 * Z.pos p - 1) with (2 * (Z.pos p - 1) + 1) by lia.
        rewrite Z.testbit_odd_succ by lia.
        rewrite Z.land_spec. reflexivity. }
    rewrite Hl. split.
    + intros H. assert (H' : Z.land (Z.pos p) (Z.pos p - 1) = 0) by lia.
      apply IH in H' as (k & Hk & E). exists (Z.succ k). split; [lia|].
      rewrite Z.pow_succ_r by lia. lia.
    + intros (k & Hk & E).
      destruct (Z.eq_dec k 0) as [->|Hne]; [cbn in E; lia|].
      assert (E' : Z.pos p = 2 ^ (k - 1)).
      { replace k with (Z.succ (k - 1)) in E by lia.
        rewrite Z.pow_succ_r in E by lia. lia. }
      assert (H' : Z.land (Z.pos p) (Z.pos p - 1) = 0).
      { apply IH. exists (k - 1). split; [lia | exact E']. }
      lia.
  - split; [intros _; exists 0; split; [lia | reflexivity] | reflexivity].
Qed.

Lemma land_pred_neg (p : positive) : Z.land (Z.neg p) (Z.neg p - 1) <> 0.
Proof.
  intros H.
  assert (Hneg : Z.land (Z.neg p) (Z.neg p - 1) < 0).
  { apply Z.land_neg. lia. }
  lia.
Qed.

Lemma land_pred_zero_iff (w : Z) :
  Z.land w (w - 1) = 0 <-> w = 0 \/ exists k, 0 <= k /\ w = 2 ^ k.
Proof.
  destruct w as [|p|p].
  - split; [left; reflexivity | reflexivity].
  - rewrite land_pred_pos. split; [intros H; right; exact H|].
    intros [H|H]; [discriminate | exact H].
  - split.
    + intros H. exfalso. exact (land_pred_neg p H).
    + intros [H|(k & Hk & E)]; [discriminate|].
      pose proof (Z.pow_nonneg 2 k ltac:(lia)). lia.
Qed.

(** When [IntegerType(w, signed)] returns. *)
Lemma IntegerType_returns w signed :
  IntegerType w signed = Ok (Integer w signed)
  <-> (w = 0 \/ exists k, 0 <= k /\ w = 2 ^ k) /\ ~ (w = 1 /\ signed = true).
Proof.
  rewrite <- land_pred_zero_iff. unfold IntegerType, assert, Py.bind.
  destruct (Z.eqb_spec (Z.land w (w - 1)) 0) as [E|E].
  - destruct (Z.eqb_spec w 1) as [E1|E1].
    + destruct signed; cbn; split; try discriminate.
      * intros [_ H]. exfalso. apply H. split; [exact E1 | reflexivity].
      * intros _. split; [exact E|]. intros [_ H]; discriminate.
      * reflexivity.
    + split; [|reflexivity]. intros _. split; [exact E|]. intros [H _]. contradiction.
  - split; [discriminate|]. intros [H _]. contradiction.
Qed.

Lemma IntegerType_raises w signed :
  IntegerType w signed = Ok (Integer w signed)
  \/ IntegerType w signed = Raise AssertionError.
Proof.
  unfold IntegerType, assert, Py.bind.
  destruct (Z.land w (w - 1) =? 0); [|right; reflexivity].
  destruct (w =? 1); [|left; reflexivity].
  destruct signed; [right | left]; reflexivity.
Qed.

Lemma FloatingType_returns width :
  FloatingType width
  = (if bool_decide (width = 32 \/ width = 64) then Ok (Floating width)
     else Raise AssertionError).
Proof.
  unfold FloatingType, assert, Py.bind.
  destruct (Z.eqb_spec width 32) as [->|H32]; [reflexivity|].
  destruct (Z.eqb_spec width 64) as [->|H64]; [reflexivity|].
  cbn. rewrite bool_decide_eq_false_2; [reflexivity|]. intros [?|?]; contradiction.
Qed.

(** C7: the constructor accepts the width 0, which is no power of two:
    [0 & (0 - 1) == 0].  (No negative width passes, and no other width
    that is not a power of two: [IntegerType_returns].) *)
Theorem IntegerType_accepts_zero_width :
  IntegerType 0 true = Ok (Integer 0 true)
  /\ IntegerType 0 false = Ok (Integer 0 false)
  /\ ~ (exists k, 0 <= k /\ 0 = 2 ^ k).
Proof.
  split; [reflexivity|]. split; [reflexivity|].
  intros (k & Hk & E).
  pose proof (Z.pow_pos_nonneg 2 k ltac:(lia) Hk). lia.
Qed.


(** *** Further properties of the type descriptors *)

(** A flag test [bool(flags & (1 << n))] reads bit [n]. *)
Lemma land_pow2_eqb x n :
  0 <= n -> (Z.land x (2 ^ n) =? 0) = negb (Z.testbit x n).
Proof.
  intros Hn. destruct (Z.testbit x n) eqn:Hb; cbn [negb].
  - apply Z.eqb_neq. intros H0.
    assert (Hbit : Z.testbit (Z.land x (2 ^ n)) n = true).
    { rewrite Z.land_spec, Hb, Z.pow2_bits_true by exact Hn. reflexivity. }
    rewrite H0, Z.bits_0 in Hbit. discriminate.
  - apply Z.eqb_eq. apply Z.bits_inj'. intros m Hm.
    rewrite Z.land_spec, Z.bits_0, Z.pow2_bits_eqb by exact Hn.
    destruct (Z.eqb_spec n m) as [->|Hne].
    + rewrite Hb. reflexivity.
    + apply andb_false_r.
Qed.

Lemma is_reference_bit q : is_reference q = Z.testbit (flags q) 0.
Proof.
  unfold is_reference, Reference. change (Z.shiftl 1 0) with (2 ^ 0).
  rewrite land_pow2_eqb by lia. apply negb_involutive.
Qed.

Lemma is_const_bit q : is_const q = Z.testbit (flags q) 1.
Proof.
  unfold is_const, Constant. change (Z.shiftl 1 1) with (2 ^ 1).
  rewrite land_pow2_eqb by lia. apply negb_involutive.
Qed.

(** X1: [IntegerType(w, signed)] returns the integer type exactly when [w]
    is 0 or a power of two and it is not the signed width 1; in every other
    case it raises [AssertionError]. *)
Theorem IntegerType_accepted_widths w signed :
  (IntegerType w signed = Ok (Integer w signed)
   <-> (w = 0 \/ exists k, 0 <= k /\ w = 2 ^ k) /\ ~ (w = 1 /\ signed = true))
  /\ (IntegerType w signed = Raise AssertionError
      <-> ~ ((w = 0 \/ exists k, 0 <= k /\ w = 2 ^ k) /\ ~ (w = 1 /\ signed = true))).
Proof.
  pose proof (IntegerType_returns w signed) as Hret.
  split; [exact Hret|].
  destruct (IntegerType_raises w signed) as [Hok|Hraise].
  - rewrite Hok. split; [discriminate|].
    intros Hn. exfalso. apply Hn. apply Hret. exact Hok.
  - split; [|intros _; exact Hraise].
    intros _ Hc. apply Hret in Hc. rewrite Hraise in Hc. discriminate.
Qed.

Lemma IntegerType_accepted_widths_witness :
  IntegerType 32 true = Ok (Integer 32 true).
Proof.
  apply (proj2 (proj1 (IntegerType_accepted_widths 32 true))).
  split.
  - right. exists 5. split; [lia | reflexivity].
  - intros [H _]. discriminate H.
Defined.

Lemma is_reference_add_flags q h :
  is_reference (add_flags q h) = is_reference q || Z.testbit h 0.
Proof.
  rewrite !is_reference_bit. destruct q as [u fl].
  cbn [add_flags QualifiedType_init flags unqualified]. apply Z.lor_spec.
Qed.

Lemma is_const_add_flags q h :
  is_const (add_flags q h) = is_const q || Z.testbit h 1.
Proof.
  rewrite !is_const_bit. destruct q as [u fl].
  cbn [add_flags QualifiedType_init flags unqualified]. apply Z.lor_spec.
Qed.

(** X2: [add_flags] sets flags and touches nothing else: the result is a
    reference (is const) when the original was or the added flags say so,
    the unqualified type, size and alignment are those of the original,
    adding the same flags twice is adding them once, and adding in two
    steps is adding the union.  In particular [add_flags(Reference)] gives
    a reference and keeps constness. *)
Theorem add_flags_sets_bits q f g :
  is_reference (add_flags q f) = is_reference q || Z.testbit f 0
  /\ is_const (add_flags q f) = is_const q || Z.testbit f 1
  /\ is_reference (add_flags q Reference) = true
  /\ is_const (add_flags q Reference) = is_const q
  /\ is_const (add_flags q Constant) = true
  /\ is_reference (add_flags q Constant) = is_reference q
  /\ unqualified (add_flags q f) = unqualified q
  /\ qsizeof (add_flags q f) = qsizeof q
  /\ qalignof (add_flags q f) = qalignof q
  /\ add_flags (add_flags q f) f = add_flags q f
  /\ add_flags (add_flags q f) g = add_flags q (Z.lor f g).
Proof.
  pose proof (is_reference_add_flags q) as Hr.
  pose proof (is_const_add_flags q) as Hc.
  split; [apply Hr|]. split; [apply Hc|].
  split; [rewrite Hr; apply orb_true_r|].
  split; [rewrite Hc; apply orb_false_r|].
  split; [rewrite Hc; apply orb_true_r|].
  split; [rewrite Hr; apply orb_false_r|].
  destruct q as [u fl]. unfold add_flags, QualifiedType_init. cbn [unqualified flags].
  repeat split.
  - rewrite <- Z.lor_assoc, Z.lor_diag. reflexivity.
  - rewrite Z.lor_assoc. reflexivity.
Qed.

(** X3: no array of references can be built from a derived reference:
    [ArrayType(q.add_flags(Reference), count)] raises for every [q] and
    [count]; constness of the element does not matter. *)
Theorem array_of_reference_is_rejected q count :
  ArrayType (add_flags q Reference) count = Raise AssertionError
  /\ ArrayType (add_flags q Constant) count
     = (if is_reference q then Raise AssertionError
        else Ok (Array (add_flags q Constant) count)).
Proof.
  unfold ArrayType. rewrite !is_reference_add_flags.
  change (Z.testbit Reference 0) with true. change (Z.testbit Constant 0) with false.
  rewrite orb_true_r, orb_false_r. split; [reflexivity|].
  destruct (is_reference q); reflexivity.
Qed.

Lemma sum_member_slots_app a b :
  sum_member_slots (a ++ b) = sum_member_slots a + sum_member_slots b.
Proof.
  induction a as [|m a IH]; [reflexivity|].
  rewrite <- app_comm_cons, !sum_member_slots_cons, IH. lia.
Qed.

Lemma max_member_align_app a b :
  max_member_align (a ++ b) = Z.max (max_member_align a) (max_member_align b).
Proof.
  induction a as [|m a IH].
  - cbn [app]. pose proof (max_member_align_nonneg b).
    change (max_member_align []) with 0. lia.
  - rewrite <- app_comm_cons, !max_member_align_cons, IH. lia.
Qed.

(** X4: a tuple keeps its members in order, and tuples compose: the size
    of the tuple of [a ++ b] is the sum of the sizes of the tuples of [a]
    and of [b], its alignment the larger of their alignments; the empty
    tuple has size and alignment 0, and no tuple has a negative
    alignment. *)
Theorem tuple_of_concatenation a b :
  (exists size align, TupleType (a ++ b) = Tuple (a ++ b) size align)
  /\ sizeof (TupleType (a ++ b)) = sizeof (TupleType a) + sizeof (TupleType b)
  /\ alignof (TupleType (a ++ b))
     = Z.max (alignof (TupleType a)) (alignof (TupleType b))
  /\ sizeof (TupleType []) = 0
  /\ alignof (TupleType []) = 0
  /\ 0 <= alignof (TupleType a).
Proof.
  rewrite !TupleType_eq. cbn [sizeof alignof].
  pose proof (max_member_align_nonneg a). pose proof (max_member_align_nonneg b).
  pose proof (max_member_align_nonneg (a ++ b)).
  split; [eexists; eexists; reflexivity|].
  split; [apply sum_member_slots_app|].
  split; [rewrite max_member_align_app; lia|].
  split; [reflexivity|]. split; [reflexivity|]. lia.
Qed.

End TypesFacts.

(** ** Tokenizer *)

Module LexerFacts.
Import Lexer.

(** [__call__] on a tokenizer that stands on a character: the first
    round of the loop is taken. *)
Lemma call_at src i ln c :
  src !! i = Some c ->
  call (mkTokenizer src i ln) = call_loop (S (length src - S i)) (mkTokenizer src i ln).
Proof.
  intros H. unfold call. cbn [source idx].
  apply lookup_lt_Some in H.
  replace (length src - i)%nat with (S (length src - S i)) by lia.
  reflexivity.
Qed.

Lemma bool_decide_is_Some_false {A} (o : option A) :
  bool_decide (is_Some o) = false -> o = None.
Proof.
  destruct o; [|reflexivity]. intros H.
  apply bool_decide_eq_false in H. exfalso. apply H. eexists; reflexivity.
Qed.

(** What [recognized c = false] rules out, test by test. *)
Lemma unrecognized_tests c :
  recognized c = false ->
  bool_decide (c = " "%char) = false
  /\ bool_decide (c = newline) = false
  /\ single_char_literals c = None
  /\ isdigit c = false
  /\ (isalpha c || bool_decide (c = underscore)) = false
  /\ (bool_decide (c = "'"%char) || bool_decide (c = double_quote)) = false
  /\ regular_operators c = None
  /\ bool_decide (c = "-"%char) = false
  /\ bool_decide (c = ">"%char) = false
  /\ bool_decide (c = "<"%char) = false.
Proof.
  unfold recognized. intros H.
  repeat match type of H with
         | (_ || _) = false => apply orb_false_elim in H; destruct H as [H ?]
         end.
  repeat match goal with
         | H : bool_decide (is_Some _) = false |- _ =>
             apply bool_decide_is_Some_false in H
         end.
  repeat split; try assumption.
  - apply orb_false_intro; assumption.
  - apply orb_false_intro; assumption.
Qed.

Lemma call_unrecognized src i ln c :
  src !! i = Some c ->
  recognized c = false ->
  call (mkTokenizer src i ln)
  = Ok (Token.mk TokenType.Error (UnknownCharacterError c) ln,
        mkTokenizer src (S i) ln).
Proof.
  intros Hc Hr. rewrite (call_at _ _ _ _ Hc).
  apply unrecognized_tests in Hr
    as (Hsp & Hnl & Hsc & Hd & Ha & Hq & Hop & Hm & Hg & Hl).
  cbn [call_loop source idx line]. rewrite Hc, Hsp, Hnl, Hsc, Hd, Ha, Hq.
  unfold operator_chain. rewrite Hop, Hm, Hg, Hl. reflexivity.
Qed.

(** C10: ["->"] lexes to Arrow, ["<<="] to LShiftEqual, [">="] to
    GreaterEqual; on a character for which [__call__] has no branch (as
    '@') the tokenizer returns an Error token that carries the
    character, with the cursor one past it; a parser that reads such a
    token has the diagnostics it had. *)
Theorem operators_and_unknown_characters :
  call (Tokenizer_init (text "->"))
    = Ok (Token.mk TokenType.Arrow VNone 0, mkTokenizer (text "->") 2 0)
  /\ call (Tokenizer_init (text "<<="))
    = Ok (Token.mk TokenType.LShiftEqual VNone 0, mkTokenizer (text "<<=") 3 0)
  /\ call (Tokenizer_init (text ">="))
    = Ok (Token.mk TokenType.GreaterEqual VNone 0, mkTokenizer (text ">=") 2 0)
  /\ recognized "@"%char = false
  /\ (forall src i ln c,
        src !! i = Some c ->
        recognized c = false ->
        call (mkTokenizer src i ln)
        = Ok (Token.mk TokenType.Error (UnknownCharacterError c) ln,
              mkTokenizer src (S i) ln))
  /\ (forall p c,
        source (Parse.tokenizer p) !! idx (Parse.tokenizer p) = Some c ->
        recognized c = false ->
        exists p',
          Parse.advance p = Parse.Return (Parse.token p) p'
          /\ Token.type (Parse.token p') = TokenType.Error
          /\ Token.value (Parse.token p') = UnknownCharacterError c
          /\ idx (Parse.tokenizer p') = S (idx (Parse.tokenizer p))
          /\ Parse.errors p' = Parse.errors p).
Proof.
  split; [reflexivity|]. split; [reflexivity|]. split; [reflexivity|].
  split; [reflexivity|]. split; [exact call_unrecognized|].
  intros p c Hc Hr. destruct p as [sc [src i ln] tok es st vt].
  cbn [Parse.tokenizer source idx] in Hc.
  eexists. unfold Parse.advance, Parse.bind, Parse.get, Parse.read_token, Parse.ret.
  cbn [Parse.tokenizer Parse.token].
  rewrite (call_unrecognized _ _ _ _ Hc Hr).
  split; [reflexivity|]. cbn. repeat split; reflexivity.
Qed.

Lemma operators_and_unknown_characters_witness :
  call (mkTokenizer (text "a@b") 1 0)
  = Ok (Token.mk TokenType.Error (UnknownCharacterError "@"%char) 0,
        mkTokenizer (text "a@b") 2 0).
Proof.
  apply (proj1 (proj2 (proj2 (proj2 (proj2 operators_and_unknown_characters))))
           (text "a@b") 1%nat 0%nat "@"%char); reflexivity.
Defined.


Lemma count_newlines_cons c s :
  count_newlines (c :: s)
  = ((if bool_decide (c = newline) then 1 else 0) + count_newlines s)%nat.
Proof.
  unfold count_newlines. rewrite filter_cons.
  destruct (decide (c = newline)) as [->|Hne].
  - rewrite bool_decide_eq_true_2 by reflexivity. reflexivity.
  - rewrite bool_decide_eq_false_2 by exact Hne. reflexivity.
Qed.

(** The loop of [tokenize_string] runs over a body free of the closing
    quote and stops on the quote behind it. *)
Lemma string_loop_body close body : forall pre post n ln,
  close ∉ body ->
  (length body < n)%nat ->
  string_loop close (pre ++ body ++ close :: post) n (length pre) ln
  = ((length pre + length body)%nat, (ln + count_newlines body)%nat).
Proof.
  induction body as [|c body IH]; intros pre post n ln Hnot Hn.
  - destruct n as [|n]; [cbn in Hn; lia|].
    cbn [string_loop app]. rewrite list_lookup_middle by reflexivity.
    rewrite bool_decide_eq_true_2 by reflexivity.
    cbn. f_equal; lia.
  - destruct n as [|n]; [cbn in Hn; lia|].
    apply not_elem_of_cons in Hnot as [Hne Hnot].
    cbn [string_loop]. rewrite <- app_comm_cons.
    rewrite list_lookup_middle by reflexivity.
    rewrite bool_decide_eq_false_2 by (intros E; apply Hne; symmetry; exact E).
    replace (pre ++ c :: body ++ close :: post)
      with ((pre ++ [c]) ++ body ++ close :: post)
      by (rewrite <- app_assoc; reflexivity).
    replace (S (length pre)) with (length (pre ++ [c]))
      by (rewrite length_app; cbn; lia).
    rewrite IH by (try assumption; cbn in Hn; lia).
    rewrite count_newlines_cons, length_app. cbn [length].
    destruct (bool_decide (c = newline)); f_equal; lia.
Qed.

Lemma slice_middle (pre body post : list ascii) :
  slice (length pre) (length pre + length body) (pre ++ body ++ post) = body.
Proof.
  unfold slice. rewrite drop_app_length.
  replace (length pre + length body - length pre)%nat with (length body) by lia.
  apply take_app_length.
Qed.

(** C9: on an opening quote [q] (single or double) followed by a body
    without [q] and then [q], the tokenizer returns a StringLiteral whose
    text is the body, character for character, and whose line is the line
    the tokenizer was on at the opening quote; afterwards the cursor is
    behind the closing quote and the line counter has grown by the
    newlines of the body.  So ['ab\nc'] gives the text [ab\nc] on line 0
    and leaves the counter at 1. *)
Theorem string_literal_token :
  (forall pre body post q ln,
      q = "'"%char \/ q = double_quote ->
      q ∉ body ->
      call (mkTokenizer (pre ++ q :: body ++ q :: post) (length pre) ln)
      = Ok (Token.mk TokenType.StringLiteral
              (VStr (String.string_of_list_ascii body)) ln,
            mkTokenizer (pre ++ q :: body ++ q :: post)
              (length pre + length body + 2) (ln + count_newlines body)))
  /\ call (Tokenizer_init ("'" :: "a" :: "b" :: newline :: "c" :: "'" :: nil)%char)
     = Ok (Token.mk TokenType.StringLiteral
             (VStr (String.string_of_list_ascii ("a" :: "b" :: newline :: "c" :: nil)%char))
             0,
           mkTokenizer ("'" :: "a" :: "b" :: newline :: "c" :: "'" :: nil)%char 6 1).
Proof.
  split; [|reflexivity].
  intros pre body post q ln Hq Hnot.
  set (src := pre ++ q :: body ++ q :: post).
  assert (Hlook : src !! length pre = Some q)
    by (apply list_lookup_middle; reflexivity).
  rewrite (call_at _ _ _ _ Hlook).
  cbn [call_loop source idx line]. rewrite Hlook.
  assert (Hdispatch :
    bool_decide (q = " "%char) = false /\ bool_decide (q = newline) = false
    /\ single_char_literals q = None /\ isdigit q = false
    /\ (isalpha q || bool_decide (q = underscore)) = false
    /\ (bool_decide (q = "'"%char) || bool_decide (q = double_quote)) = true)
    by (destruct Hq as [-> | ->]; repeat split; reflexivity).
  destruct Hdispatch as (-> & -> & -> & -> & -> & ->).
  unfold tokenize_string. cbn [source idx line].
  assert (Hlen : length src = (length pre + S (length body + S (length post)))%nat).
  { unfold src. rewrite length_app. cbn [length]. rewrite length_app. reflexivity. }
  assert (Hfuel : (length body < length src - S (length pre))%nat) by lia.
  revert Hfuel. generalize (length src - S (length pre))%nat. intros n Hfuel.
  assert (Hloop :
    string_loop q src n (S (length pre)) ln
    = ((length pre + length body + 1)%nat, (ln + count_newlines body)%nat)).
  { unfold src.
    replace (pre ++ q :: body ++ q :: post)
      with ((pre ++ [q]) ++ body ++ q :: post)
      by (rewrite <- app_assoc; reflexivity).
    replace (S (length pre)) with (length (pre ++ [q]))
      by (rewrite length_app; cbn; lia).
    rewrite string_loop_body by assumption.
    rewrite length_app. cbn [length]. f_equal; lia. }
  rewrite Hloop.
  replace (S (length pre + length body + 1) - 1)%nat
    with (S (length pre) + length body)%nat by lia.
  assert (Hslice : slice (S (length pre)) (S (length pre) + length body) src = body).
  { unfold src.
    replace (pre ++ q :: body ++ q :: post)
      with ((pre ++ [q]) ++ body ++ q :: post)
      by (rewrite <- app_assoc; reflexivity).
    replace (S (length pre)) with (length (pre ++ [q]))
      by (rewrite length_app; cbn; lia).
    apply slice_middle. }
  rewrite Hslice.
  replace (S (length pre + length body + 1)) with (length pre + length body + 2)%nat by lia.
  reflexivity.
Qed.

Lemma string_literal_token_witness :
  call (mkTokenizer (text "x = 'a b';") 4 0)
  = Ok (Token.mk TokenType.StringLiteral (VStr "a b") 0,
        mkTokenizer (text "x = 'a b';") 9 0).
Proof.
  apply (proj1 string_literal_token (text "x = ") (text "a b") (text ";")
           "'"%char 0%nat).
  - left; reflexivity.
  - intros H. repeat (apply elem_of_cons in H as [H|H]; [discriminate|]).
    apply elem_of_nil in H. exact H.
Defined.

(** *** Integer literals *)

(** The scanning loop runs over a run of accepted characters and stops
    at the end of the text or on the first character not accepted. *)
Lemma scan_run chars run : forall pre post n,
  Forall (fun c => chars c = true) run ->
  match post with [] => True | c :: _ => chars c = false end ->
  (length run <= n)%nat ->
  scan chars (pre ++ run ++ post) n (length pre) = (length pre + length run)%nat.
Proof.
  induction run as [|c run IH]; intros pre post n Hall Hstop Hn.
  - cbn [app length]. rewrite Nat.add_0_r.
    destruct n as [|n]; [reflexivity|]. cbn [scan].
    destruct post as [|c post].
    + rewrite app_nil_r, lookup_ge_None_2 by lia. reflexivity.
    + rewrite list_lookup_middle by reflexivity. rewrite Hstop. reflexivity.
  - destruct n as [|n]; [cbn in Hn; lia|].
    apply Forall_cons in Hall as [Hc Hall].
    cbn [scan]. rewrite <- app_comm_cons.
    rewrite list_lookup_middle by reflexivity. rewrite Hc.
    replace (pre ++ c :: run ++ post) with ((pre ++ [c]) ++ run ++ post)
      by (rewrite <- app_assoc; reflexivity).
    replace (S (length pre)) with (length (pre ++ [c]))
      by (rewrite length_app; cbn; lia).
    rewrite IH by (try assumption; cbn in Hn; lia).
    rewrite length_app. cbn [length]. lia.
Qed.

Lemma ascii_digit_not_underscore d : ascii_digit d = true -> d <> underscore.
Proof. intros H ->. discriminate. Qed.

Lemma strip_digit d s :
  ascii_digit d = true -> strip_underscores (d :: s) = d :: strip_underscores s.
Proof.
  intros H. unfold strip_underscores. rewrite filter_cons.
  destruct (decide (d <> underscore)) as [_|Hn]; [reflexivity|].
  exfalso. apply Hn. apply ascii_digit_not_underscore. exact H.
Qed.

Lemma strip_underscore s : strip_underscores (underscore :: s) = strip_underscores s.
Proof.
  unfold strip_underscores. rewrite filter_cons.
  destruct (decide (underscore <> underscore)) as [Hn|_]; [|reflexivity].
  exfalso. apply Hn. reflexivity.
Qed.

Lemma int_digits_grouped s :
  grouped s ->
  forall acc need,
    int_digits acc need s = Some (decimal_from acc (strip_underscores s)).
Proof.
  induction 1 as [d Hd | d s Hd Hs IH | d s Hd Hs IH]; intros acc need.
  - cbn [int_digits]. rewrite Hd. rewrite strip_digit by exact Hd. reflexivity.
  - cbn [int_digits]. rewrite Hd, IH. rewrite strip_digit by exact Hd. reflexivity.
  - cbn [int_digits]. rewrite Hd.
    change (ascii_digit underscore) with false. cbv iota.
    rewrite bool_decide_eq_true_2 by reflexivity.
    rewrite IH. rewrite strip_digit by exact Hd. rewrite strip_underscore.
    reflexivity.
Qed.

Lemma grouped_number_chars s :
  grouped s -> Forall (fun c => number_chars c = true) s.
Proof.
  induction 1 as [d Hd | d s Hd Hs IH | d s Hd Hs IH].
  - constructor; [|constructor]. unfold number_chars. rewrite Hd. reflexivity.
  - constructor; [|exact IH]. unfold number_chars. rewrite Hd. reflexivity.
  - constructor; [|constructor; [reflexivity | exact IH]].
    unfold number_chars. rewrite Hd. reflexivity.
Qed.

Lemma grouped_head s :
  grouped s -> exists d rest, s = d :: rest /\ ascii_digit d = true.
Proof. destruct 1; eauto. Qed.

Lemma ascii_digit_dispatch d :
  ascii_digit d = true ->
  bool_decide (d = " "%char) = false /\ bool_decide (d = newline) = false
  /\ single_char_literals d = None /\ isdigit d = true.
Proof.
  intros H.
  assert (Hd : isdigit d = true) by (unfold isdigit; rewrite H; reflexivity).
  repeat split; try exact Hd.
  - apply bool_decide_eq_false_2. intros ->. discriminate.
  - apply bool_decide_eq_false_2. intros ->. discriminate.
  - destruct (single_char_literals d) eqn:E; [|reflexivity]. exfalso.
    unfold single_char_literals in E.
    destruct d as [[] [] [] [] [] [] [] []]; cbn in E; try discriminate E;
      discriminate H.
Qed.

(** A well-grouped run of at most 4300 digits that ends at the end of
    the text or before a character outside [number_chars] is one
    IntLiteral, whose value is the number its digits write. *)
Lemma call_grouped_number pre run post ln :
  grouped run ->
  (count_digits run <= int_max_str_digits)%nat ->
  match post with [] => True | c :: _ => number_chars c = false end ->
  call (mkTokenizer (pre ++ run ++ post) (length pre) ln)
  = Ok (Token.mk TokenType.IntLiteral (VInt (decimal (strip_underscores run))) ln,
        mkTokenizer (pre ++ run ++ post) (length pre + length run) ln).
Proof.
  intros Hg Hcount Hstop.
  destruct (grouped_head _ Hg) as (d & rest & -> & Hd).
  pose proof (grouped_number_chars _ Hg) as Hall.
  apply Forall_cons in Hall as [_ Hall].
  set (src := pre ++ (d :: rest) ++ post).
  assert (Hlook : src !! length pre = Some d)
    by (apply list_lookup_middle; reflexivity).
  rewrite (call_at _ _ _ _ Hlook).
  cbn [call_loop source idx line]. rewrite Hlook.
  destruct (ascii_digit_dispatch d Hd) as (-> & -> & -> & ->).
  unfold tokenize_number. cbn [source idx line].
  assert (Hlen : length src = (length pre + S (length rest + length post))%nat).
  { unfold src. rewrite length_app. cbn [app length]. rewrite length_app. reflexivity. }
  assert (Hscan :
    scan number_chars src (length src - S (length pre)) (S (length pre))
    = (length pre + S (length rest))%nat).
  { assert (Hfuel : (length rest <= length src - S (length pre))%nat) by lia.
    revert Hfuel. generalize (length src - S (length pre))%nat. intros n Hfuel.
    unfold src.
    replace (pre ++ (d :: rest) ++ post) with ((pre ++ [d]) ++ rest ++ post)
      by (rewrite <- app_assoc; reflexivity).
    replace (S (length pre)) with (length (pre ++ [d]))
      by (rewrite length_app; cbn; lia).
    rewrite scan_run by assumption.
    rewrite length_app. cbn [length]. lia. }
  rewrite Hscan.
  replace (S (length pre) - 1)%nat with (length pre) by lia.
  replace (length pre + S (length rest))%nat
    with (length pre + length (d :: rest))%nat by reflexivity.
  unfold src at 1. rewrite slice_middle.
  unfold int. rewrite (int_digits_grouped _ Hg).
  apply Nat.leb_le in Hcount. rewrite Hcount. reflexivity.
Qed.

Example one_thousand :
  call (Tokenizer_init (text "1_000"))
  = Ok (Token.mk TokenType.IntLiteral (VInt 1000) 0, mkTokenizer (text "1_000") 5 0).
Proof. reflexivity. Qed.

(** C6: the run ["1_"] is scanned whole and handed to [int], which
    refuses an underscore that no digit follows; the same for a doubled
    underscore.  No token is returned: the call raises [ValueError], and
    so does the construction of a parser on such a text. *)
Theorem dangling_underscore_raises :
  call (Tokenizer_init (text "1_")) = Raise ValueError
  /\ call (Tokenizer_init (text "1__0")) = Raise ValueError
  /\ Parse.Parser_init (text "1_") = Raise ValueError.
Proof. repeat split; reflexivity. Qed.


(** *** Further properties of the tokenizer *)

(** X5: at or past the end of the text (the cursor is one past the end
    after an unterminated string) every call returns EndOfFile, carrying
    the cursor, and leaves the tokenizer as it is. *)
Theorem end_of_file_is_stable src i ln :
  (length src <= i)%nat ->
  call (mkTokenizer src i ln)
  = Ok (Token.mk TokenType.EndOfFile (VInt (Z.of_nat i)) ln, mkTokenizer src i ln).
Proof.
  intros H. unfold call. cbn [source idx].
  replace (length src - i)%nat with 0%nat by lia. reflexivity.
Qed.

Lemma end_of_file_is_stable_witness :
  call (mkTokenizer (text "'ab") 4 0)
  = Ok (Token.mk TokenType.EndOfFile (VInt 4) 0, mkTokenizer (text "'ab") 4 0).
Proof. apply (end_of_file_is_stable (text "'ab") 4 0). cbn. lia. Defined.

Lemma call_space src i ln :
  src !! i = Some " "%char ->
  call (mkTokenizer src i ln) = call (mkTokenizer src (S i) ln).
Proof.
  intros H. rewrite (call_at _ _ _ _ H).
  cbn [call_loop source idx line]. rewrite H.
  rewrite bool_decide_eq_true_2 by reflexivity. reflexivity.
Qed.

(** X6: spaces in front of a token are skipped without a trace: a call in
    front of [k] spaces returns what the call behind them returns. *)
Theorem spaces_are_skipped src ln k : forall i,
  (forall j, (i <= j < i + k)%nat -> src !! j = Some " "%char) ->
  call (mkTokenizer src i ln) = call (mkTokenizer src (i + k) ln).
Proof.
  induction k as [|k IH]; intros i H.
  - rewrite Nat.add_0_r. reflexivity.
  - rewrite call_space by (apply H; lia).
    rewrite IH by (intros j Hj; apply H; lia).
    f_equal. f_equal. lia.
Qed.

Lemma spaces_are_skipped_witness :
  call (mkTokenizer (text "a   b") 1 0) = call (mkTokenizer (text "a   b") (1 + 3) 0).
Proof.
  apply (spaces_are_skipped (text "a   b") 0 3 1).
  intros j Hj.
  destruct j as [|[|[|[|j]]]]; try reflexivity; lia.
Defined.

(** X7: a newline outside a string literal is not skipped: the line
    counter is incremented and then the call returns an Error token that
    carries the newline, on the new line. *)
Theorem newline_is_an_error_token src i ln :
  src !! i = Some newline ->
  call (mkTokenizer src i ln)
  = Ok (Token.mk TokenType.Error (UnknownCharacterError newline) (S ln),
        mkTokenizer src (S i) (S ln)).
Proof.
  intros H. rewrite (call_at _ _ _ _ H).
  cbn [call_loop source idx line]. rewrite H. reflexivity.
Qed.

Lemma newline_is_an_error_token_witness :
  call (mkTokenizer ("a" :: newline :: "b" :: nil)%char 1 0)
  = Ok (Token.mk TokenType.Error (UnknownCharacterError newline) 1,
        mkTokenizer ("a" :: newline :: "b" :: nil)%char 2 1).
Proof. apply (newline_is_an_error_token _ 1 0). reflexivity. Defined.

(** The loop of [tokenize_string] on a body that is never closed. *)
Lemma string_loop_open close body : forall pre n ln,
  close ∉ body ->
  (length body <= n)%nat ->
  string_loop close (pre ++ body) n (length pre) ln
  = ((length pre + length body)%nat, (ln + count_newlines body)%nat).
Proof.
  induction body as [|c body IH]; intros pre n ln Hnot Hn.
  - rewrite app_nil_r.
    assert (E : string_loop close pre n (length pre) ln = (length pre, ln)).
    { destruct n as [|n]; [reflexivity|]. cbn [string_loop].
      rewrite lookup_ge_None_2 by lia. reflexivity. }
    rewrite E. change (count_newlines []) with 0%nat. cbn [length]. f_equal; lia.
  - destruct n as [|n]; [cbn in Hn; lia|].
    apply not_elem_of_cons in Hnot as [Hne Hnot].
    cbn [string_loop]. rewrite list_lookup_middle by reflexivity.
    rewrite bool_decide_eq_false_2 by (intros E; apply Hne; symmetry; exact E).
    replace (pre ++ c :: body) with ((pre ++ [c]) ++ body)
      by (rewrite <- app_assoc; reflexivity).
    replace (S (length pre)) with (length (pre ++ [c]))
      by (rewrite length_app; cbn; lia).
    rewrite IH by (try assumption; cbn in Hn; lia).
    rewrite count_newlines_cons, length_app. cbn [length].
    destruct (bool_decide (c = newline)); f_equal; lia.
Qed.

Lemma slice_suffix (pre body : list ascii) :
  slice (length pre) (length pre + length body) (pre ++ body) = body.
Proof.
  pose proof (slice_middle pre body []) as H. rewrite app_nil_r in H. exact H.
Qed.

(** X8: a string literal that is never closed runs to the end of the
    text: the token carries everything behind the opening quote, the line
    counter has grown by its newlines, and the cursor is left one past the
    end of the text. *)
Theorem unterminated_string_literal pre body q ln :
  q = "'"%char \/ q = double_quote ->
  q ∉ body ->
  call (mkTokenizer (pre ++ q :: body) (length pre) ln)
  = Ok (Token.mk TokenType.StringLiteral (VStr (String.string_of_list_ascii body)) ln,
        mkTokenizer (pre ++ q :: body) (S (length (pre ++ q :: body)))
          (ln + count_newlines body)).
Proof.
  intros Hq Hnot.
  set (src := pre ++ q :: body).
  assert (Hlook : src !! length pre = Some q)
    by (apply list_lookup_middle; reflexivity).
  rewrite (call_at _ _ _ _ Hlook).
  cbn [call_loop source idx line]. rewrite Hlook.
  assert (Hdispatch :
    bool_decide (q = " "%char) = false /\ bool_decide (q = newline) = false
    /\ single_char_literals q = None /\ isdigit q = false
    /\ (isalpha q || bool_decide (q = underscore)) = false
    /\ (bool_decide (q = "'"%char) || bool_decide (q = double_quote)) = true)
    by (destruct Hq as [-> | ->]; repeat split; reflexivity).
  destruct Hdispatch as (-> & -> & -> & -> & -> & ->).
  unfold tokenize_string. cbn [source idx line].
  assert (Hlen : length src = S (length pre + length body)).
  { unfold src. rewrite length_app. cbn [length]. lia. }
  assert (Hfuel : (length body <= length src - S (length pre))%nat) by lia.
  revert Hfuel. generalize (length src - S (length pre))%nat. intros n Hfuel.
  assert (Hsrc : src = (pre ++ [q]) ++ body)
    by (unfold src; rewrite <- app_assoc; reflexivity).
  assert (Hpre : S (length pre) = length (pre ++ [q]))
    by (rewrite length_app; cbn; lia).
  rewrite Hsrc at 1. rewrite Hpre at 1.
  rewrite string_loop_open by assumption.
  replace (S (length (pre ++ [q]) + length body) - 1)%nat
    with (length (pre ++ [q]) + length body)%nat by lia.
  rewrite Hsrc at 1. rewrite Hpre at 1. rewrite slice_suffix.
  rewrite <- Hpre, Hlen. reflexivity.
Qed.

Lemma unterminated_string_literal_witness :
  call (mkTokenizer (text "x 'ab") 2 0)
  = Ok (Token.mk TokenType.StringLiteral (VStr "ab") 0, mkTokenizer (text "x 'ab") 6 0).
Proof.
  apply (unterminated_string_literal (text "x ") (text "ab") "'"%char 0).
  - left; reflexivity.
  - intros H. repeat (apply elem_of_cons in H as [H|H]; [discriminate|]).
    apply elem_of_nil in H. exact H.
Defined.

(** How [__call__] dispatches on a character that starts a word. *)
Lemma word_start_dispatch c :
  (isalpha c || bool_decide (c = underscore)) = true ->
  bool_decide (c = " "%char) = false /\ bool_decide (c = newline) = false
  /\ single_char_literals c = None /\ isdigit c = false.
Proof.
  destruct c as [[] [] [] [] [] [] [] []]; vm_compute;
    first [discriminate | intros _; repeat split; reflexivity].
Qed.

(** X9: a word (a letter or an underscore, then a maximal run of ASCII
    letters, digits and underscores) is one token with the cursor behind
    it: the keyword token when the word is one of the eight keywords, an
    Identifier that carries the word otherwise. *)
Theorem word_is_keyword_or_identifier pre c rest post ln :
  (isalpha c || bool_decide (c = underscore)) = true ->
  Forall (fun x => identifier_chars x = true) rest ->
  stops identifier_chars post ->
  call (mkTokenizer (pre ++ (c :: rest) ++ post) (length pre) ln)
  = Ok (word_token (String.string_of_list_ascii (c :: rest)) ln,
        mkTokenizer (pre ++ (c :: rest) ++ post)
          (length pre + length (c :: rest)) ln).
Proof.
  intros Hc Hall Hstop.
  set (src := pre ++ (c :: rest) ++ post).
  assert (Hlook : src !! length pre = Some c)
    by (apply list_lookup_middle; reflexivity).
  rewrite (call_at _ _ _ _ Hlook).
  cbn [call_loop source idx line]. rewrite Hlook.
  destruct (word_start_dispatch c Hc) as (-> & -> & -> & ->). rewrite Hc.
  unfold tokenize_identifier. cbn [source idx line].
  assert (Hlen : length src = (length pre + S (length rest + length post))%nat).
  { unfold src. rewrite length_app. cbn [app length]. rewrite length_app. reflexivity. }
  assert (Hscan :
    scan identifier_chars src (length src - S (length pre)) (S (length pre))
    = (length pre + S (length rest))%nat).
  { assert (Hfuel : (length rest <= length src - S (length pre))%nat) by lia.
    revert Hfuel. generalize (length src - S (length pre))%nat. intros n Hfuel.
    unfold src.
    replace (pre ++ (c :: rest) ++ post) with ((pre ++ [c]) ++ rest ++ post)
      by (rewrite <- app_assoc; reflexivity).
    replace (S (length pre)) with (length (pre ++ [c]))
      by (rewrite length_app; cbn; lia).
    rewrite scan_run by assumption.
    rewrite length_app. cbn [length]. lia. }
  rewrite Hscan.
  replace (S (length pre) - 1)%nat with (length pre) by lia.
  replace (length pre + S (length rest))%nat
    with (length pre + length (c :: rest))%nat by reflexivity.
  unfold src at 1 3. rewrite slice_middle.
  unfold word_token. destruct (keyword_map _); reflexivity.
Qed.

Lemma word_is_keyword_or_identifier_witness :
  call (mkTokenizer (text "if x") 0 0)
  = Ok (Token.mk TokenType.IfKW VNone 0, mkTokenizer (text "if x") 2 0).
Proof.
  apply (word_is_keyword_or_identifier [] "i"%char (text "f") (text " x") 0).
  - reflexivity.
  - repeat constructor.
  - reflexivity.
Defined.

Lemma regular_operator_dispatch c :
  is_Some (regular_operators c) ->
  bool_decide (c = " "%char) = false /\ bool_decide (c = newline) = false
  /\ single_char_literals c = None /\ isdigit c = false
  /\ (isalpha c || bool_decide (c = underscore)) = false
  /\ (bool_decide (c = "'"%char) || bool_decide (c = double_quote)) = false.
Proof.
  intros [x Hx]. revert Hx.
  destruct c as [[] [] [] [] [] [] [] []]; vm_compute;
    first [discriminate | intros _; repeat split; reflexivity].
Qed.

(** X10: an operator character of the table [regular_operators] and a
    ['='] right behind it are one token, the assign form of the pair;
    without the ['='] the character alone is the plain form. *)
Theorem regular_operator_longest_match src i ln c plain assign :
  src !! i = Some c ->
  regular_operators c = Some (plain, assign) ->
  call (mkTokenizer src i ln)
  = Ok (if bool_decide (src !! S i = Some "="%char)
        then (Token.mk assign VNone ln, mkTokenizer src (S (S i)) ln)
        else (Token.mk plain VNone ln, mkTokenizer src (S i) ln)).
Proof.
  intros Hc Hop. rewrite (call_at _ _ _ _ Hc).
  cbn [call_loop source idx line]. rewrite Hc.
  destruct (regular_operator_dispatch c) as (-> & -> & -> & -> & -> & ->);
    [eexists; exact Hop|].
  unfold operator_chain. rewrite Hop. unfold match_. cbn [source idx line].
  destruct (src !! S i) as [d|] eqn:Hd.
  - destruct (decide (d = "="%char)) as [->|Hne].
    + rewrite !bool_decide_eq_true_2 by reflexivity. reflexivity.
    + rewrite !bool_decide_eq_false_2; [reflexivity | congruence | exact Hne].
  - rewrite bool_decide_eq_false_2 by discriminate. reflexivity.
Qed.

Lemma regular_operator_longest_match_witness :
  call (mkTokenizer (text "a!=b") 1 0)
  = Ok (Token.mk TokenType.BangEqual VNone 0, mkTokenizer (text "a!=b") 3 0).
Proof.
  apply (regular_operator_longest_match (text "a!=b") 1 0 "!"%char
           TokenType.Bang TokenType.BangEqual); reflexivity.
Defined.

(** *** What every call keeps *)

Lemma scan_bounds chars src n : forall i,
  (i <= scan chars src n i)%nat
  /\ (scan chars src n i <= Nat.max i (length src))%nat.
Proof.
  induction n as [|n IH]; intros i; cbn [scan]; [lia|].
  destruct (src !! i) as [c|] eqn:E; [|lia].
  apply lookup_lt_Some in E.
  destruct (chars c); [|lia].
  destruct (IH (S i)) as [H1 H2]. lia.
Qed.

Lemma string_loop_bounds close src n : forall i ln,
  (i <= (string_loop close src n i ln).1)%nat
  /\ ((string_loop close src n i ln).1 <= Nat.max i (length src))%nat
  /\ (ln <= (string_loop close src n i ln).2)%nat.
Proof.
  induction n as [|n IH]; intros i ln; cbn [string_loop]; [cbn; lia|].
  destruct (src !! i) as [c|] eqn:E; [|cbn; lia].
  apply lookup_lt_Some in E.
  destruct (bool_decide (c = close)); [cbn; lia|].
  destruct (IH (S i) (if bool_decide (c = newline) then S ln else ln))
    as (H1 & H2 & H3).
  destruct (bool_decide (c = newline)); lia.
Qed.

Lemma later_refl t : later t t.
Proof. unfold later. repeat split; lia. Qed.

Lemma later_trans t1 t2 t3 : later t1 t2 -> later t2 t3 -> later t1 t3.
Proof.
  unfold later. intros (S1 & I1 & L1 & B1) (S2 & I2 & L2 & B2).
  rewrite S1 in *. repeat split; [congruence | lia ..].
Qed.

Lemma match_later c t :
  later t (match_ c t).2 /\ (idx (match_ c t).2 <= length (source t) \/ (match_ c t).2 = t)%nat.
Proof.
  unfold match_. destruct (source t !! idx t) as [c'|] eqn:E.
  - apply lookup_lt_Some in E.
    destruct (bool_decide (c' = c)); cbn [snd source idx line].
    + unfold later. cbn [source idx line]. split; [repeat split; lia | left; lia].
    + split; [apply later_refl | right; reflexivity].
  - cbn [snd]. split; [apply later_refl | right; reflexivity].
Qed.

Lemma regular_operators_types c plain assign :
  regular_operators c = Some (plain, assign) ->
  operator_type plain = true /\ operator_type assign = true.
Proof.
  destruct c as [[] [] [] [] [] [] [] []]; vm_compute;
    first [discriminate | intros H; inversion H; split; reflexivity].
Qed.

(** Case analysis on the characters [match] looks at. *)
Ltac chain_cases src Hlt :=
  repeat
    (cbn [fst snd source idx line Token.type Token.value Token.line];
     match goal with
     | H : src !! ?j = _ |- context [src !! ?j] => rewrite H
     | |- context [src !! ?j] =>
         let E := fresh "E" in
         destruct (src !! j) eqn:E; [pose proof (Hlt _ _ E)|]
     | H : bool_decide (?a = ?b) = _ |- context [bool_decide (?a = ?b)] =>
         rewrite H
     | |- context [bool_decide (?a = ?b)] => destruct (bool_decide (a = b)) eqn:?
     end).

(** The second chain of [__call__]: at most two more characters are
    taken, the line stays, and the token is an operator without payload or
    the Error token for the character. *)
Lemma operator_chain_spec c t :
  later t (operator_chain c t).2
  /\ line (operator_chain c t).2 = line t
  /\ Token.line (operator_chain c t).1 = line t
  /\ ((operator_type (Token.type (operator_chain c t).1) = true
       /\ Token.value (operator_chain c t).1 = VNone)
      \/ (Token.type (operator_chain c t).1 = TokenType.Error
          /\ Token.value (operator_chain c t).1 = UnknownCharacterError c
          /\ regular_operators c = None
          /\ c <> "-"%char /\ c <> ">"%char /\ c <> "<"%char)).
Proof.
  destruct t as [src i ln]. unfold operator_chain, match_, later.
  cbn [source idx line].
  assert (Hlt : forall j x, src !! j = Some x -> (j < length src)%nat)
    by (intros j x; apply lookup_lt_Some).
  destruct (regular_operators c) as [[plain assign]|] eqn:Hop.
  - destruct (regular_operators_types _ _ _ Hop) as [Hp Ha].
    destruct (src !! i) as [d|] eqn:E0;
      [apply Hlt in E0; destruct (bool_decide (d = "="%char))|];
      cbn [fst snd source idx line Token.type Token.value Token.line];
      (split; [repeat split; lia|]); (split; [reflexivity|]);
      (split; [reflexivity|]); left; split; first [assumption | reflexivity].
  - destruct (bool_decide (c = "-"%char)) eqn:Hm;
      [|destruct (bool_decide (c = ">"%char)) eqn:Hg;
        [|destruct (bool_decide (c = "<"%char)) eqn:Hl]].
    4: { apply bool_decide_eq_false in Hm, Hg, Hl.
         cbn [fst snd source idx line Token.type Token.value Token.line].
         split; [repeat split; lia|]. split; [reflexivity|]. split; [reflexivity|].
         right. repeat split; assumption. }
    all: chain_cases src Hlt.
    all: cbn [fst snd source idx line Token.type Token.value Token.line].
    all: (split; [repeat split; lia|]); (split; [reflexivity|]);
      (split; [reflexivity|]); left; split; reflexivity.
Qed.

Lemma digit_value_nonneg c : ascii_digit c = true -> 0 <= digit_value c.
Proof.
  unfold ascii_digit, between, digit_value. intros H.
  apply andb_true_iff in H as [H _]. apply N.leb_le in H. lia.
Qed.

Lemma int_digits_nonneg s : forall acc need n,
  0 <= acc -> int_digits acc need s = Some n -> 0 <= n.
Proof.
  induction s as [|c s IH]; intros acc need n Hacc H; cbn [int_digits] in H.
  - destruct need; inversion H. subst. exact Hacc.
  - destruct (ascii_digit c) eqn:Hd.
    + pose proof (digit_value_nonneg c Hd). eapply IH; [|exact H]. lia.
    + destruct (bool_decide (c = underscore)); [|discriminate].
      destruct need; [discriminate|]. eapply IH; [|exact H]. exact Hacc.
Qed.

Lemma int_nonneg s n : int s = Ok n -> 0 <= n.
Proof.
  unfold int. destruct (int_digits 0 true s) as [m|] eqn:E; [|discriminate].
  destruct (count_digits s <=? int_max_str_digits)%nat; [|discriminate].
  intros H. inversion H. subst. eapply int_digits_nonneg; [|exact E]. lia.
Qed.

Lemma int_raises s e : int s = Raise e -> e = ValueError.
Proof.
  unfold int. destruct (int_digits 0 true s); [|intros H; inversion H; reflexivity].
  destruct (count_digits s <=? int_max_str_digits)%nat; [discriminate|].
  intros H; inversion H; reflexivity.
Qed.

Lemma payload_keyword s kw ln :
  keyword_map s = Some kw -> payload_ok (Token.mk kw VNone ln).
Proof.
  unfold keyword_map.
  repeat match goal with
         | |- context [String.eqb s ?k] => destruct (String.eqb s k)
         end;
    intros H; inversion H; reflexivity.
Qed.

Lemma keyword_not_eof s kw :
  keyword_map s = Some kw -> kw <> TokenType.EndOfFile.
Proof.
  unfold keyword_map.
  repeat match goal with
         | |- context [String.eqb s ?k] => destruct (String.eqb s k)
         end;
    intros H; inversion H; discriminate.
Qed.

Lemma payload_single c tp ln :
  single_char_literals c = Some tp ->
  payload_ok (Token.mk tp VNone ln) /\ tp <> TokenType.EndOfFile.
Proof.
  intros H.
  destruct c as [[] [] [] [] [] [] [] []]; cbn in H; try discriminate H;
    inversion H; subst; (split; [reflexivity | discriminate]).
Qed.

Lemma payload_operator tp ln :
  operator_type tp = true ->
  payload_ok (Token.mk tp VNone ln) /\ tp <> TokenType.EndOfFile.
Proof.
  destruct tp; cbn; first [discriminate | intros _; split; [reflexivity | discriminate]].
Qed.

Lemma recognized_from_tests c :
  bool_decide (c = " "%char) = false ->
  bool_decide (c = newline) = false ->
  single_char_literals c = None ->
  isdigit c = false ->
  (isalpha c || bool_decide (c = underscore)) = false ->
  (bool_decide (c = "'"%char) || bool_decide (c = double_quote)) = false ->
  regular_operators c = None ->
  c <> "-"%char -> c <> ">"%char -> c <> "<"%char ->
  recognized c = false.
Proof.
  intros Hsp Hnl Hsc Hd Ha Hq Hop Hm Hg Hl.
  apply orb_false_elim in Ha as [Ha Hu]. apply orb_false_elim in Hq as [Hq1 Hq2].
  unfold recognized.
  rewrite Hsp, Hnl, Hsc, Hd, Ha, Hu, Hq1, Hq2, Hop.
  rewrite (bool_decide_eq_false_2 (c = "-"%char)) by assumption.
  rewrite (bool_decide_eq_false_2 (c = ">"%char)) by assumption.
  rewrite (bool_decide_eq_false_2 (c = "<"%char)) by assumption.
  reflexivity.
Qed.

(** Everything a returning call guarantees, by induction on the rounds of
    the loop. *)
Lemma call_loop_returns n : forall t tok t',
  (length (source t) - idx t <= n)%nat ->
  call_loop n t = Ok (tok, t') ->
  later t t'
  /\ payload_ok tok
  /\ (Token.type tok <> TokenType.EndOfFile -> (idx t < idx t')%nat)
  /\ (Token.type tok = TokenType.EndOfFile ->
      (length (source t) <= idx t')%nat /\ line t' = line t
      /\ Token.value tok = VInt (Z.of_nat (idx t'))).
Proof.
  induction n as [|n IH]; intros [src i ln] tok t' Hn H; cbn [source idx line] in *.
  - cbn in H. inversion H; subst. cbn.
    split; [apply later_refl|]. split; [eexists; split; [reflexivity | lia]|].
    split; [intros Hc; contradiction|]. intros _. repeat split. lia.
  - cbn [call_loop source idx line] in H.
    destruct (src !! i) as [c|] eqn:Hc.
    2: { apply lookup_ge_None_1 in Hc. inversion H; subst. cbn.
         split; [apply later_refl|]. split; [eexists; split; [reflexivity | lia]|].
         split; [intros Hx; contradiction|]. intros _. repeat split. exact Hc. }
    pose proof (lookup_lt_Some _ _ _ Hc) as Hlt.
    assert (Hstep : forall l', (ln <= l')%nat ->
              later (mkTokenizer src i ln) (mkTokenizer src (S i) l'))
      by (intros l' Hl; unfold later; cbn; repeat split; lia).
    destruct (bool_decide (c = " "%char)) eqn:Hsp.
    { apply IH in H; [|cbn; lia]. cbn [source idx line] in H.
      destruct H as (Hl & Hp & Hne & He).
      split; [eapply later_trans; [apply (Hstep ln); lia | exact Hl]|].
      split; [exact Hp|]. split; [intros Hx; specialize (Hne Hx); lia|].
      exact He. }
    destruct (bool_decide (c = newline)) eqn:Hnl.
    { apply bool_decide_eq_true in Hnl. subst c.
      inversion H; subst. clear H. cbn.
      split; [apply (Hstep (S ln)); lia|].
      split; [eexists; split; [reflexivity | right; reflexivity]|].
      split; [intros _; lia | discriminate]. }
    destruct (single_char_literals c) as [tp|] eqn:Hsc.
    { inversion H; subst. clear H.
      destruct (payload_single _ _ ln Hsc) as [Hp Hne].
      split; [apply (Hstep ln); lia|]. split; [exact Hp|].
      split; [intros _; cbn; lia | intros Hx; cbn in Hx; contradiction]. }
    destruct (isdigit c) eqn:Hd.
    { unfold tokenize_number in H. cbn [source idx line] in H.
      destruct (int _) as [v|] eqn:Hint; [|discriminate]. cbn in H.
      inversion H; subst. clear H.
      destruct (scan_bounds number_chars src (length src - S i) (S i)) as [H1 H2].
      split; [unfold later; cbn; repeat split; lia|].
      split; [eexists; split; [reflexivity | exact (int_nonneg _ _ Hint)]|].
      split; [intros _; cbn; lia | discriminate]. }
    destruct (isalpha c || bool_decide (c = underscore)) eqn:Ha.
    { unfold tokenize_identifier in H. cbn [source idx line] in H.
      destruct (scan_bounds identifier_chars src (length src - S i) (S i)) as [H1 H2].
      destruct (keyword_map _) as [kw|] eqn:Hkw; inversion H; subst; clear H.
      - split; [unfold later; cbn; repeat split; lia|].
        split; [exact (payload_keyword _ _ _ Hkw)|].
        split; [intros _; cbn; lia|].
        intros Hx. cbn in Hx. exfalso. exact (keyword_not_eof _ _ Hkw Hx).
      - split; [unfold later; cbn; repeat split; lia|].
        split; [eexists; split; [reflexivity | exact Hkw]|].
        split; [intros _; cbn; lia | discriminate]. }
    destruct (bool_decide (c = "'"%char) || bool_decide (c = double_quote)) eqn:Hq.
    { unfold tokenize_string in H. cbn [source idx line] in H.
      destruct (string_loop_bounds c src (length src - S i) (S i) ln) as (H1 & H2 & H3).
      destruct (string_loop c src (length src - S i) (S i) ln) as [i' ln'].
      cbn [fst snd] in *. inversion H; subst; clear H.
      split; [unfold later; cbn; repeat split; lia|].
      split; [eexists; reflexivity|].
      split; [intros _; cbn; lia | discriminate]. }
    inversion H as [Hch]. clear H.
    pose proof (operator_chain_spec c (mkTokenizer src (S i) ln))
      as (Hl & Hline & Htl & Hkind).
    rewrite Hch in Hl, Hline, Htl, Hkind. cbn [fst snd] in *.
    split; [eapply later_trans; [apply (Hstep ln); lia | exact Hl]|].
    destruct Hl as (_ & Hidx & _). cbn [idx] in Hidx.
    assert (Hpay : payload_ok tok /\ Token.type tok <> TokenType.EndOfFile).
    { destruct Hkind as [[Hop Hv]|(Htp & Hv & Hop & Hm & Hg & Hlo)].
      - destruct tok as [tp v l]. cbn in *. subst v.
        exact (payload_operator tp l Hop).
      - split; [|rewrite Htp; discriminate].
        unfold payload_ok. rewrite Htp. eexists. split; [exact Hv|]. left.
        apply recognized_from_tests; assumption. }
    destruct Hpay as [Hp Hne].
    split; [exact Hp|]. split; [intros _; lia | intros Hx; contradiction].
Qed.

(** X11: a call that returns never moves backwards and never touches the
    text: the cursor and the line counter do not decrease, the cursor stays
    within one past the end of the text, every token but EndOfFile takes at
    least one character, and EndOfFile is returned only with the cursor at
    or past the end, carrying the cursor. *)
Theorem call_moves_forward t tok t' :
  call t = Ok (tok, t') ->
  source t' = source t
  /\ (idx t <= idx t')%nat
  /\ (line t <= line t')%nat
  /\ (idx t' <= Nat.max (idx t) (S (length (source t))))%nat
  /\ (Token.type tok <> TokenType.EndOfFile -> (idx t < idx t')%nat)
  /\ (Token.type tok = TokenType.EndOfFile ->
      (length (source t) <= idx t')%nat /\ line t' = line t
      /\ Token.value tok = VInt (Z.of_nat (idx t'))).
Proof.
  intros H. apply call_loop_returns in H; [|lia].
  destruct H as ((Hs & Hi & Hl & Hb) & _ & Hne & He).
  repeat split; try assumption; apply He; assumption.
Qed.

Lemma call_moves_forward_witness :
  (idx (Tokenizer_init (text "  ab c")) < idx (mkTokenizer (text "  ab c") 4 0))%nat.
Proof.
  apply (call_moves_forward (Tokenizer_init (text "  ab c"))
           (Token.mk TokenType.Identifier (VStr "ab") 0)
           (mkTokenizer (text "  ab c") 4 0)).
  - reflexivity.
  - discriminate.
Defined.

(** X12: the payload of a returned token fits its type: an Identifier
    carries a word that is no keyword, an IntLiteral a number that is not
    negative, a StringLiteral a text, an Error token a character that is the
    newline or has no rule, EndOfFile the cursor, every other token
    nothing; BoolLiteral and FloatLiteral tokens are never returned. *)
Theorem call_payload t tok t' :
  call t = Ok (tok, t') -> payload_ok tok.
Proof. intros H. apply call_loop_returns in H; [|lia]. apply H. Qed.

Lemma call_payload_witness :
  payload_ok (Token.mk TokenType.IntLiteral (VInt 12) 0).
Proof.
  apply (call_payload (Tokenizer_init (text "12+x"))
           (Token.mk TokenType.IntLiteral (VInt 12) 0)
           (mkTokenizer (text "12+x") 2 0)).
  reflexivity.
Defined.

Lemma call_loop_raises n : forall t e,
  call_loop n t = Raise e ->
  e = ValueError
  /\ exists k c,
       (forall j, (j < k)%nat -> source t !! (idx t + j)%nat = Some " "%char)
       /\ source t !! (idx t + k)%nat = Some c
       /\ isdigit c = true.
Proof.
  induction n as [|n IH]; intros [src i ln] e H; [discriminate H|].
  cbn [call_loop source idx line] in H.
  destruct (src !! i) as [c|] eqn:Hc; [|discriminate H].
  destruct (bool_decide (c = " "%char)) eqn:Hsp.
  { apply bool_decide_eq_true in Hsp. subst c.
    apply IH in H as (He & k & c' & Hspaces & Hk & Hd). cbn [source idx] in *.
    split; [exact He|]. exists (S k), c'. split; [|split; [|exact Hd]].
    - intros [|j] Hj; [rewrite Nat.add_0_r; exact Hc|].
      rewrite <- (Hspaces j) by lia. f_equal; lia.
    - rewrite <- Hk. f_equal; lia. }
  destruct (bool_decide (c = newline)); [discriminate H|].
  destruct (single_char_literals c); [discriminate H|].
  destruct (isdigit c) eqn:Hd.
  { unfold tokenize_number in H.
    destruct (int _) as [v|e'] eqn:Hint; [discriminate H|].
    cbn [Py.bind] in H. inversion H; subst.
    split; [exact (int_raises _ _ Hint)|].
    exists 0%nat, c. cbn [source idx]. rewrite Nat.add_0_r.
    split; [intros j Hj; lia | split; assumption]. }
  destruct (isalpha c || bool_decide (c = underscore)); [discriminate H|].
  destruct (bool_decide (c = "'"%char) || bool_decide (c = double_quote));
    discriminate H.
Qed.

(** X13: the tokenizer raises nothing but [ValueError], and only with a
    digit under the cursor once the spaces in front of it are skipped. *)
Theorem call_raises_only_ValueError t e :
  call t = Raise e ->
  e = ValueError
  /\ exists k c,
       (forall j, (j < k)%nat -> source t !! (idx t + j)%nat = Some " "%char)
       /\ source t !! (idx t + k)%nat = Some c
       /\ isdigit c = true.
Proof. apply call_loop_raises. Qed.

Lemma call_raises_only_ValueError_witness :
  ValueError = ValueError
  /\ exists k c,
       (forall j, (j < k)%nat -> text " 1_" !! (0 + j)%nat = Some " "%char)
       /\ text " 1_" !! (0 + k)%nat = Some c
       /\ isdigit c = true.
Proof.
  apply (call_raises_only_ValueError (Tokenizer_init (text " 1_")) ValueError).
  reflexivity.
Defined.

Lemma int_digits_some_grouped s : forall acc need n,
  int_digits acc need s = Some n ->
  if need then grouped s
  else s = [] \/ grouped s \/ exists s', s = underscore :: s' /\ grouped s'.
Proof.
  induction s as [|c s IH]; intros acc need n H; cbn [int_digits] in H.
  - destruct need; [discriminate H | left; reflexivity].
  - destruct (ascii_digit c) eqn:Hd.
    + apply IH in H. cbn iota in H.
      assert (Hg : grouped (c :: s)).
      { destruct H as [-> | [Hg | (s' & -> & Hg)]].
        - apply grouped_last; exact Hd.
        - apply grouped_digit; assumption.
        - apply grouped_sep; assumption. }
      destruct need; [exact Hg | right; left; exact Hg].
    + destruct (bool_decide (c = underscore)) eqn:Hu; [|discriminate H].
      apply bool_decide_eq_true in Hu. subst c.
      destruct need; [discriminate H|].
      apply IH in H. cbn iota in H. right; right. eexists; split; [reflexivity | exact H].
Qed.

Lemma int_returns_iff s :
  (exists n, int s = Ok n)
  <-> grouped s /\ (count_digits s <= int_max_str_digits)%nat.
Proof.
  unfold int. split.
  - intros [n H]. destruct (int_digits 0 true s) as [m|] eqn:E; [|discriminate H].
    destruct (count_digits s <=? int_max_str_digits)%nat eqn:Ec; [|discriminate H].
    split; [exact (int_digits_some_grouped _ _ _ _ E) | apply Nat.leb_le; exact Ec].
  - intros [Hg Hc]. rewrite (int_digits_grouped _ Hg).
    apply Nat.leb_le in Hc. rewrite Hc. eexists; reflexivity.
Qed.

Lemma digit_start_dispatch d :
  isdigit d = true ->
  bool_decide (d = " "%char) = false /\ bool_decide (d = newline) = false
  /\ single_char_literals d = None.
Proof.
  destruct d as [[] [] [] [] [] [] [] []]; vm_compute;
    first [discriminate | intros _; repeat split; reflexivity].
Qed.

(** X14: in a text of code points below 256 (no other text is an
    [ascii] list; beyond them Unicode has further decimal digits, which
    [isdigit] and [int] accept and which are not covered here): on an
    [isdigit] character followed by a maximal run of ASCII digits and
    underscores the call hands the whole run to [int]: it returns one
    IntLiteral with the cursor behind the run when the run is ASCII digits
    with single underscores between digits, of at most 4300 digits, and
    raises [ValueError] in every other case (a superscript digit, a doubled
    or dangling underscore, more digits). *)
Theorem number_run_returns_or_raises pre d rest post ln :
  isdigit d = true ->
  Forall (fun x => number_chars x = true) rest ->
  stops number_chars post ->
  (call (mkTokenizer (pre ++ (d :: rest) ++ post) (length pre) ln)
   = Ok (Token.mk TokenType.IntLiteral
           (VInt (decimal (strip_underscores (d :: rest)))) ln,
         mkTokenizer (pre ++ (d :: rest) ++ post)
           (length pre + length (d :: rest)) ln)
   <-> grouped (d :: rest) /\ (count_digits (d :: rest) <= int_max_str_digits)%nat)
  /\ (call (mkTokenizer (pre ++ (d :: rest) ++ post) (length pre) ln)
      = Raise ValueError
      <-> ~ (grouped (d :: rest)
             /\ (count_digits (d :: rest) <= int_max_str_digits)%nat)).
Proof.
  intros Hd Hall Hstop.
  set (src := pre ++ (d :: rest) ++ post).
  assert (Hcall : call (mkTokenizer src (length pre) ln)
                  = Py.bind (int (d :: rest)) (fun number =>
                      Ok (Token.mk TokenType.IntLiteral (VInt number) ln,
                          mkTokenizer src (length pre + length (d :: rest)) ln))).
  { assert (Hlook : src !! length pre = Some d)
      by (apply list_lookup_middle; reflexivity).
    rewrite (call_at _ _ _ _ Hlook).
    cbn [call_loop source idx line]. rewrite Hlook.
    destruct (digit_start_dispatch d Hd) as (-> & -> & ->). rewrite Hd.
    unfold tokenize_number. cbn [source idx line].
    assert (Hlen : length src = (length pre + S (length rest + length post))%nat).
    { unfold src. rewrite length_app. cbn [app length]. rewrite length_app. reflexivity. }
    assert (Hscan :
      scan number_chars src (length src - S (length pre)) (S (length pre))
      = (length pre + S (length rest))%nat).
    { assert (Hfuel : (length rest <= length src - S (length pre))%nat) by lia.
      revert Hfuel. generalize (length src - S (length pre))%nat. intros n Hfuel.
      unfold src.
      replace (pre ++ (d :: rest) ++ post) with ((pre ++ [d]) ++ rest ++ post)
        by (rewrite <- app_assoc; reflexivity).
      replace (S (length pre)) with (length (pre ++ [d]))
        by (rewrite length_app; cbn; lia).
      rewrite scan_run by assumption.
      rewrite length_app. cbn [length]. lia. }
    rewrite Hscan.
    replace (S (length pre) - 1)%nat with (length pre) by lia.
    replace (length pre + S (length rest))%nat
      with (length pre + length (d :: rest))%nat by reflexivity.
    unfold src at 1. rewrite slice_middle. reflexivity. }
  rewrite Hcall. pose proof (int_returns_iff (d :: rest)) as Hiff.
  destruct (int (d :: rest)) as [v|e] eqn:Hint; cbn [Py.bind].
  - assert (Hg : grouped (d :: rest)
                 /\ (count_digits (d :: rest) <= int_max_str_digits)%nat)
      by (apply Hiff; eexists; reflexivity).
    assert (Hv : v = decimal (strip_underscores (d :: rest))).
    { unfold int in Hint. rewrite (int_digits_grouped _ (proj1 Hg)) in Hint.
      destruct (count_digits (d :: rest) <=? int_max_str_digits)%nat;
        inversion Hint; reflexivity. }
    subst v. split.
    + split; [intros _; exact Hg | reflexivity].
    + split; [discriminate | intros Hn; contradiction].
  - pose proof (int_raises _ _ Hint) as ->.
    assert (Hn : ~ (grouped (d :: rest)
                    /\ (count_digits (d :: rest) <= int_max_str_digits)%nat)).
    { intros Hg. apply Hiff in Hg as [n Hn]. discriminate Hn. }
    split.
    + split; [discriminate | intros Hg; contradiction].
    + split; [intros _; exact Hn | reflexivity].
Qed.

Lemma number_run_returns_or_raises_witness :
  call (mkTokenizer (text "x=1__0;") 2 0) = Raise ValueError.
Proof.
  apply (proj2 (number_run_returns_or_raises (text "x=") "1"%char (text "__0")
                  (text ";") 0 eq_refl
                  ltac:(repeat constructor) eq_refl)).
  intros [Hg _].
  cbn in Hg.
  inversion Hg; subst;
    match goal with
    | H : grouped _ |- _ => inversion H; subst
    end;
    match goal with
    | H : ascii_digit _ = true |- _ => discriminate H
    end.
Defined.

End LexerFacts.

(** ** Parser *)

Module ParseFacts.
Import Lexer Types Ast Parse.
Local Open Scope parser_scope.

(** *** Token types *)

Lemma to_int_inj a b : TokenType.to_int a = TokenType.to_int b -> a = b.
Proof.
  intros H.
  destruct a; cbn in H;
    (destruct b; first [reflexivity | discriminate H]).
Qed.

Lemma eqb_eq a b : TokenType.eqb a b = true <-> a = b.
Proof.
  unfold TokenType.eqb. rewrite Z.eqb_eq. split.
  - apply to_int_inj.
  - intros ->. reflexivity.
Qed.

Lemma eqb_neq a b : TokenType.eqb a b = false <-> a <> b.
Proof.
  rewrite <- eqb_eq. destruct (TokenType.eqb a b); split; congruence.
Qed.

(** *** Missing tokens *)

(** C4: when the current token is not the expected one, [consume]
    returns [False] and appends its message, and nothing else, at the end
    of the diagnostics; the current token, the tokenizer (so the cursor)
    and every other field of the parser are as before, and nothing is
    raised. *)
Theorem consume_missing_token p t s :
  Token.type (token p) <> t ->
  consume t s p = Return false (set_errors (errors p ++ [s]) p)
  /\ errors (set_errors (errors p ++ [s]) p) = errors p ++ [s]
  /\ token (set_errors (errors p ++ [s]) p) = token p
  /\ tokenizer (set_errors (errors p ++ [s]) p) = tokenizer p
  /\ symbol_table (set_errors (errors p ++ [s]) p) = symbol_table p
  /\ void_type (set_errors (errors p ++ [s]) p) = void_type p
  /\ source_code (set_errors (errors p ++ [s]) p) = source_code p.
Proof.
  intros Hne. apply eqb_neq in Hne.
  unfold consume, bind, get, errors_append, ret. rewrite Hne.
  repeat split; reflexivity.
Qed.


Lemma consume_missing_token_witness :
  exists p,
    Parser_init (text "x y") = Ok p
    /\ consume TokenType.Semicolon "Expected ';' after expression statement" p
       = Return false
           (set_errors (errors p ++ ["Expected ';' after expression statement"]) p).
Proof.
  eexists. split; [vm_compute; reflexivity|].
  apply consume_missing_token. vm_compute. discriminate.
Defined.

(** *** The symbol table never changes *)

Lemma keeps_ret {A} (a : A) : keeps_table (ret a).
Proof. intros p a' p' H. inversion H; reflexivity. Qed.

Lemma keeps_get {A} (f : Parser -> A) : keeps_table (get f).
Proof. intros p a' p' H. inversion H; reflexivity. Qed.

Lemma keeps_lift {A} (r : result A) : keeps_table (lift r).
Proof. intros p a' p' H. unfold lift in H. destruct r; inversion H; reflexivity. Qed.

Lemma keeps_out_of_fuel {A} : keeps_table (@out_of_fuel A).
Proof. intros p a' p' H. discriminate H. Qed.

Lemma keeps_bind {A B} (m : M A) (k : A -> M B) :
  keeps_table m -> (forall a, keeps_table (k a)) -> keeps_table (bind m k).
Proof.
  intros Hm Hk p b p' H. unfold bind in H.
  destruct (m p) as [a p1| |] eqn:E; try discriminate H.
  rewrite (Hk a _ _ _ H). exact (Hm _ _ _ E).
Qed.

Lemma keeps_read_token : keeps_table read_token.
Proof.
  intros p a p' H. unfold read_token in H.
  destruct (Lexer.call (tokenizer p)) as [[tok tz]|]; inversion H; reflexivity.
Qed.

Lemma keeps_errors_append s : keeps_table (errors_append s).
Proof. intros p a p' H. inversion H; reflexivity. Qed.

Lemma keeps_search_symbol key : keeps_table (search_symbol key).
Proof.
  intros p a p' H. unfold search_symbol, lift in H.
  destruct (search_scopes key (reverse (symbol_table p))); inversion H; reflexivity.
Qed.

Create HintDb keeps discriminated.
#[local] Hint Resolve keeps_ret keeps_get keeps_lift keeps_out_of_fuel
  keeps_read_token keeps_errors_append keeps_search_symbol : keeps.

(** One step through the body of a method. *)
Ltac keeps_step :=
  match goal with
  | |- keeps_table (bind _ _) => apply keeps_bind; [|intros ?]
  | |- keeps_table (if ?b then _ else _) => destruct b
  | |- keeps_table (match ?x with _ => _ end) => destruct x
  | |- keeps_table (let '(_, _) := ?x in _) => destruct x
  | |- keeps_table _ => solve [auto with keeps]
  end.
Ltac keeps := repeat keeps_step.

Lemma keeps_advance : keeps_table advance.
Proof. unfold advance. keeps. Qed.

Lemma keeps_match tp : keeps_table (match_ tp).
Proof. unfold match_. keeps. Qed.

Lemma keeps_consume t s : keeps_table (consume t s).
Proof. unfold consume. keeps. Qed.

#[local] Hint Resolve keeps_advance keeps_match keeps_consume : keeps.

Lemma keeps_parse_type_expression : keeps_table parse_type_expression.
Proof. unfold parse_type_expression. keeps. Qed.

#[local] Hint Resolve keeps_parse_type_expression : keeps.

Lemma keeps_arguments_loop n : forall names tys,
  keeps_table (arguments_loop n names tys).
Proof.
  induction n as [|n IH]; intros names tys; cbn [arguments_loop]; keeps.
Qed.

#[local] Hint Resolve keeps_arguments_loop : keeps.

Lemma keeps_expressions n :
  keeps_table (parse_atom n)
  /\ keeps_table (parse_parenthesis n)
  /\ (forall min_prec, keeps_table (parse_expression n min_prec))
  /\ (forall min_prec lhs, keeps_table (expression_loop n min_prec lhs)).
Proof.
  induction n as [|n (IHa & IHp & IHe & IHl)].
  - repeat split; intros; apply keeps_out_of_fuel.
  - repeat split; intros.
    + cbn [parse_atom]. keeps.
    + cbn [parse_parenthesis]. keeps.
    + cbn [parse_expression]. keeps.
    + cbn [expression_loop]. keeps.
Qed.


Lemma keeps_parse_expression n min_prec : keeps_table (parse_expression n min_prec).
Proof. apply keeps_expressions. Qed.

Lemma keeps_parse_atom n : keeps_table (parse_atom n).
Proof. apply keeps_expressions. Qed.

#[local] Hint Resolve keeps_parse_expression keeps_parse_atom : keeps.

Lemma keeps_parse_variable_declaration n :
  keeps_table (parse_variable_declaration n).
Proof. unfold parse_variable_declaration. keeps. Qed.

#[local] Hint Resolve keeps_parse_variable_declaration : keeps.

Lemma keeps_statements n :
  keeps_table (parse_statement n)
  /\ (forall statements, keeps_table (parse_block n statements))
  /\ keeps_table (parse_if n)
  /\ keeps_table (parse_function_definition n).
Proof.
  induction n as [|n (IHs & IHb & IHi & IHf)].
  - repeat split; intros; apply keeps_out_of_fuel.
  - repeat split; intros.
    + cbn [parse_statement]. keeps.
    + cbn [parse_block]. keeps.
    + cbn [parse_if]. keeps.
    + cbn [parse_function_definition]. keeps.
Qed.

Lemma keeps_parse_statement n : keeps_table (parse_statement n).
Proof. apply keeps_statements. Qed.

#[local] Hint Resolve keeps_parse_statement : keeps.

Lemma keeps_module_loop n : forall statements,
  keeps_table (module_loop n statements).
Proof. induction n as [|n IH]; intros statements; cbn [module_loop]; keeps. Qed.

Lemma Parser_init_table text p :
  Parser_init text = Ok p -> symbol_table p = root_table.
Proof.
  unfold Parser_init. intros H.
  destruct (Lexer.call (Tokenizer_init text)) as [[tok tz]|]; [|discriminate H].
  cbn in H. inversion H. reflexivity.
Qed.

Lemma search_root key e :
  search_scopes key (reverse root_table) = Ok (Some e) ->
  key = VStr "i32" /\ e = SymbolEntry.mk SymbolEntryKind.Type_ i32.
Proof.
  cbn. unfold dict_get. destruct key as [| |s|]; cbn; try discriminate.
  unfold root_scope.
  destruct (decide (s = "i32"%string)) as [->|Hne].
  - rewrite lookup_singleton_eq. cbn. intros H. inversion H. split; reflexivity.
  - rewrite lookup_singleton_ne by (intros E; apply Hne; symmetry; exact E).
    cbn. discriminate.
Qed.

Lemma parse_type_expression_root p t p' :
  symbol_table p = root_table ->
  parse_type_expression p = Return t p' ->
  t = void_type p \/ t = i32 \/ t = add_flags i32 Reference.
Proof.
  intros Hroot. unfold parse_type_expression, bind at 1, get at 1. cbv beta iota.
  unfold bind at 1.
  destruct (consume TokenType.Identifier "Type must be an identifier" p)
    as [b p1| |] eqn:Ec; try discriminate.
  assert (Ht1 : symbol_table p1 = root_table)
    by (rewrite (keeps_consume _ _ _ _ _ Ec); exact Hroot).
  assert (Hv1 : void_type p1 = void_type p).
  { unfold consume, bind, get, read_token, errors_append, ret in Ec.
    destruct (TokenType.eqb _ _).
    - destruct (Lexer.call (tokenizer p)) as [[tok tz]|]; inversion Ec; reflexivity.
    - inversion Ec; reflexivity. }
  unfold bind at 1, search_symbol, lift. rewrite Ht1.
  destruct (search_scopes (Token.value (token p)) (reverse root_table))
    as [[e|]|] eqn:Es; try discriminate.
  - apply search_root in Es as [_ ->].
    unfold bind at 1, get at 1. cbn [SymbolEntry.kind SymbolEntry.type SymbolEntryKind.eqb negb].
    unfold bind. destruct (match_ TokenType.Ampersand p1) as [[] p2| |];
      unfold ret; intros H; inversion H; auto.
  - unfold bind, get, errors_append, ret. intros H. inversion H.
    left. exact Hv1.
Qed.

(** *** The history of the symbol table *)

Lemma erases_ret {A} (a : A) : Traced.erases (Traced.ret a) (ret a).
Proof. intros p log. reflexivity. Qed.

Lemma erases_get {A} (f : Parser -> A) : Traced.erases (Traced.get f) (get f).
Proof. intros p log. reflexivity. Qed.

Lemma erases_lift {A} (r : result A) : Traced.erases (Traced.lift r) (lift r).
Proof. intros p log. destruct r; reflexivity. Qed.

Lemma erases_out_of_fuel {A} : Traced.erases (@Traced.out_of_fuel A) out_of_fuel.
Proof. intros p log. reflexivity. Qed.

Lemma erases_bind {A B} (mt : Traced.M A) (m : M A)
    (kt : A -> Traced.M B) (k : A -> M B) :
  Traced.erases mt m -> (forall a, Traced.erases (kt a) (k a)) ->
  Traced.erases (Traced.bind mt kt) (bind m k).
Proof.
  intros Hm Hk p log. unfold Traced.bind, bind. rewrite <- (Hm p log).
  destruct (mt p log) as [a p1 log1|e log1|log1]; cbn [Traced.erase];
    [apply Hk | reflexivity | reflexivity].
Qed.

Lemma erases_read_token : Traced.erases Traced.read_token read_token.
Proof.
  intros p log. unfold Traced.read_token, read_token.
  destruct (Lexer.call (tokenizer p)) as [[tok tz]|e]; reflexivity.
Qed.

Lemma erases_errors_append s :
  Traced.erases (Traced.errors_append s) (errors_append s).
Proof. intros p log. reflexivity. Qed.

Lemma erases_search_symbol key :
  Traced.erases (Traced.search_symbol key) (search_symbol key).
Proof.
  intros p log. unfold Traced.search_symbol, search_symbol, lift.
  destruct (search_scopes key (reverse (symbol_table p))); reflexivity.
Qed.

Create HintDb erases discriminated.
#[local] Hint Resolve erases_ret erases_get erases_lift erases_out_of_fuel
  erases_read_token erases_errors_append erases_search_symbol : erases.

(** One step through the two bodies, which are the same text. *)
Ltac erases_step :=
  match goal with
  | |- Traced.erases (Traced.bind _ _) (bind _ _) =>
      apply erases_bind; [|intros ?]
  | |- Traced.erases (if ?b then _ else _) (if ?b then _ else _) => destruct b
  | |- Traced.erases (match ?x with _ => _ end) (match ?x with _ => _ end) =>
      destruct x
  | |- Traced.erases _ _ => solve [auto with erases]
  end.
Ltac erases := repeat erases_step.

Lemma erases_advance : Traced.erases Traced.advance advance.
Proof. unfold Traced.advance, advance. erases. Qed.

Lemma erases_match tp : Traced.erases (Traced.match_ tp) (match_ tp).
Proof. unfold Traced.match_, match_. erases. Qed.

Lemma erases_consume t s : Traced.erases (Traced.consume t s) (consume t s).
Proof. unfold Traced.consume, consume. erases. Qed.

#[local] Hint Resolve erases_advance erases_match erases_consume : erases.

Lemma erases_parse_type_expression :
  Traced.erases Traced.parse_type_expression parse_type_expression.
Proof. unfold Traced.parse_type_expression, parse_type_expression. erases. Qed.

#[local] Hint Resolve erases_parse_type_expression : erases.

Lemma erases_arguments_loop n : forall names tys,
  Traced.erases (Traced.arguments_loop n names tys) (arguments_loop n names tys).
Proof.
  induction n as [|n IH]; intros names tys;
    cbn [Traced.arguments_loop arguments_loop]; erases.
Qed.

#[local] Hint Resolve erases_arguments_loop : erases.

Lemma erases_expressions n :
  Traced.erases (Traced.parse_atom n) (parse_atom n)
  /\ Traced.erases (Traced.parse_parenthesis n) (parse_parenthesis n)
  /\ (forall min_prec,
        Traced.erases (Traced.parse_expression n min_prec)
          (parse_expression n min_prec))
  /\ (forall min_prec lhs,
        Traced.erases (Traced.expression_loop n min_prec lhs)
          (expression_loop n min_prec lhs)).
Proof.
  induction n as [|n (IHa & IHp & IHe & IHl)].
  - split; [apply erases_out_of_fuel|]. split; [apply erases_out_of_fuel|].
    split; [intros mp | intros mp lhs]; apply erases_out_of_fuel.
  - split; [cbn [Traced.parse_atom parse_atom]; erases|].
    split; [cbn [Traced.parse_parenthesis parse_parenthesis]; erases|].
    split; [intros mp; cbn [Traced.parse_expression parse_expression]; erases
           | intros mp lhs; cbn [Traced.expression_loop expression_loop]; erases].
Qed.

Lemma erases_parse_expression n min_prec :
  Traced.erases (Traced.parse_expression n min_prec) (parse_expression n min_prec).
Proof. apply erases_expressions. Qed.

#[local] Hint Resolve erases_parse_expression : erases.

Lemma erases_parse_variable_declaration n :
  Traced.erases (Traced.parse_variable_declaration n) (parse_variable_declaration n).
Proof.
  unfold Traced.parse_variable_declaration, parse_variable_declaration. erases.
Qed.

#[local] Hint Resolve erases_parse_variable_declaration : erases.

Lemma erases_statements n :
  Traced.erases (Traced.parse_statement n) (parse_statement n)
  /\ (forall statements,
        Traced.erases (Traced.parse_block n statements) (parse_block n statements))
  /\ Traced.erases (Traced.parse_if n) (parse_if n)
  /\ Traced.erases (Traced.parse_function_definition n)
       (parse_function_definition n).
Proof.
  induction n as [|n (IHs & IHb & IHi & IHf)].
  - split; [apply erases_out_of_fuel|].
    split; [intros statements; apply erases_out_of_fuel|].
    split; apply erases_out_of_fuel.
  - split; [cbn [Traced.parse_statement parse_statement]; erases|].
    split; [intros statements; cbn [Traced.parse_block parse_block]; erases|].
    split; [cbn [Traced.parse_if parse_if]; erases
           | cbn [Traced.parse_function_definition parse_function_definition];
             erases].
Qed.

Lemma erases_module_loop n : forall statements,
  Traced.erases (Traced.module_loop n statements) (module_loop n statements).
Proof.
  pose proof (fun m => proj1 (erases_statements m)) as Hs.
  induction n as [|n IH]; intros statements;
    cbn [Traced.module_loop module_loop]; erases.
Qed.

(** The log is only added to. *)

Lemma grows_ret {A} (a : A) : Traced.grows (Traced.ret a).
Proof. intros p log. reflexivity. Qed.

Lemma grows_get {A} (f : Parser -> A) : Traced.grows (Traced.get f).
Proof. intros p log. reflexivity. Qed.

Lemma grows_lift {A} (r : result A) : Traced.grows (Traced.lift r).
Proof. intros p log. destruct r; reflexivity. Qed.

Lemma grows_out_of_fuel {A} : Traced.grows (@Traced.out_of_fuel A).
Proof. intros p log. reflexivity. Qed.

Lemma grows_bind {A B} (mt : Traced.M A) (kt : A -> Traced.M B) :
  Traced.grows mt -> (forall a, Traced.grows (kt a)) ->
  Traced.grows (Traced.bind mt kt).
Proof.
  intros Hm Hk p log. unfold Traced.bind. specialize (Hm p log).
  destruct (mt p log) as [a p1 log1|e log1|log1]; cbn [Traced.log_of] in *;
    [etrans; [exact Hm | apply Hk] | exact Hm | exact Hm].
Qed.

Lemma grows_read_token : Traced.grows Traced.read_token.
Proof.
  intros p log. unfold Traced.read_token, Traced.assigned.
  destruct (Lexer.call (tokenizer p)) as [[tok tz]|e]; cbn [Traced.log_of];
    [apply prefix_app_r | ]; reflexivity.
Qed.

Lemma grows_errors_append s : Traced.grows (Traced.errors_append s).
Proof. intros p log. cbn. apply prefix_app_r. reflexivity. Qed.

Lemma grows_search_symbol key : Traced.grows (Traced.search_symbol key).
Proof.
  intros p log. unfold Traced.search_symbol.
  destruct (search_scopes key (reverse (symbol_table p))); cbn [Traced.log_of];
    [apply prefix_app_r | ]; reflexivity.
Qed.

Create HintDb grows discriminated.
#[local] Hint Resolve grows_ret grows_get grows_lift grows_out_of_fuel
  grows_read_token grows_errors_append grows_search_symbol : grows.

Ltac grows_step :=
  match goal with
  | |- Traced.grows (Traced.bind _ _) => apply grows_bind; [|intros ?]
  | |- Traced.grows (if ?b then _ else _) => destruct b
  | |- Traced.grows (match ?x with _ => _ end) => destruct x
  | |- Traced.grows _ => solve [auto with grows]
  end.
Ltac grows := repeat grows_step.

Lemma grows_advance : Traced.grows Traced.advance.
Proof. unfold Traced.advance. grows. Qed.

Lemma grows_match tp : Traced.grows (Traced.match_ tp).
Proof. unfold Traced.match_. grows. Qed.

Lemma grows_consume t s : Traced.grows (Traced.consume t s).
Proof. unfold Traced.consume. grows. Qed.

#[local] Hint Resolve grows_advance grows_match grows_consume : grows.

Lemma grows_parse_type_expression : Traced.grows Traced.parse_type_expression.
Proof. unfold Traced.parse_type_expression. grows. Qed.

#[local] Hint Resolve grows_parse_type_expression : grows.

Lemma grows_arguments_loop n : forall names tys,
  Traced.grows (Traced.arguments_loop n names tys).
Proof.
  induction n as [|n IH]; intros names tys; cbn [Traced.arguments_loop]; grows.
Qed.

#[local] Hint Resolve grows_arguments_loop : grows.

Lemma grows_expressions n :
  Traced.grows (Traced.parse_atom n)
  /\ Traced.grows (Traced.parse_parenthesis n)
  /\ (forall min_prec, Traced.grows (Traced.parse_expression n min_prec))
  /\ (forall min_prec lhs, Traced.grows (Traced.expression_loop n min_prec lhs)).
Proof.
  induction n as [|n (IHa & IHp & IHe & IHl)].
  - split; [apply grows_out_of_fuel|]. split; [apply grows_out_of_fuel|].
    split; [intros mp | intros mp lhs]; apply grows_out_of_fuel.
  - split; [cbn [Traced.parse_atom]; grows|].
    split; [cbn [Traced.parse_parenthesis]; grows|].
    split; [intros mp; cbn [Traced.parse_expression]; grows
           | intros mp lhs; cbn [Traced.expression_loop]; grows].
Qed.

Lemma grows_parse_expression n min_prec :
  Traced.grows (Traced.parse_expression n min_prec).
Proof. apply grows_expressions. Qed.

#[local] Hint Resolve grows_parse_expression : grows.

Lemma grows_parse_variable_declaration n :
  Traced.grows (Traced.parse_variable_declaration n).
Proof. unfold Traced.parse_variable_declaration. grows. Qed.

#[local] Hint Resolve grows_parse_variable_declaration : grows.

Lemma grows_statements n :
  Traced.grows (Traced.parse_statement n)
  /\ (forall statements, Traced.grows (Traced.parse_block n statements))
  /\ Traced.grows (Traced.parse_if n)
  /\ Traced.grows (Traced.parse_function_definition n).
Proof.
  induction n as [|n (IHs & IHb & IHi & IHf)].
  - split; [apply grows_out_of_fuel|].
    split; [intros statements; apply grows_out_of_fuel|].
    split; apply grows_out_of_fuel.
  - split; [cbn [Traced.parse_statement]; grows|].
    split; [intros statements; cbn [Traced.parse_block]; grows|].
    split; [cbn [Traced.parse_if]; grows
           | cbn [Traced.parse_function_definition]; grows].
Qed.

Lemma grows_module_loop n : forall statements,
  Traced.grows (Traced.module_loop n statements).
Proof.
  pose proof (fun m => proj1 (grows_statements m)) as Hs.
  induction n as [|n IH]; intros statements; cbn [Traced.module_loop]; grows.
Qed.

(** Every entry of the log is an entry of the root table. *)

Lemma root_ret {A} (a : A) : Traced.stays_root (Traced.ret a).
Proof. intros p log Hp Hlog. split; assumption. Qed.

Lemma root_get {A} (f : Parser -> A) : Traced.stays_root (Traced.get f).
Proof. intros p log Hp Hlog. split; assumption. Qed.

Lemma root_lift {A} (r : result A) : Traced.stays_root (Traced.lift r).
Proof. intros p log Hp Hlog. destruct r; split; first [assumption | exact I]. Qed.

Lemma root_out_of_fuel {A} : Traced.stays_root (@Traced.out_of_fuel A).
Proof. intros p log Hp Hlog. split; [assumption | exact I]. Qed.

Lemma root_bind {A B} (mt : Traced.M A) (kt : A -> Traced.M B) :
  Traced.stays_root mt -> (forall a, Traced.stays_root (kt a)) ->
  Traced.stays_root (Traced.bind mt kt).
Proof.
  intros Hm Hk p log Hp Hlog. unfold Traced.bind.
  destruct (Hm p log Hp Hlog) as [Hl Hr].
  destruct (mt p log) as [a p1 log1|e log1|log1]; cbn [Traced.log_of] in *;
    [exact (Hk a p1 log1 Hr Hl) | split; [exact Hl | exact I] ..].
Qed.

Lemma root_assigned p' log :
  symbol_table p' = root_table ->
  Forall Traced.root_event log ->
  Forall Traced.root_event (Traced.log_of (Traced.assigned p' log))
  /\ match Traced.assigned p' log with
     | Traced.Return _ q _ => symbol_table q = root_table
     | _ => True
     end.
Proof.
  intros Hp Hlog. cbn. split; [|exact Hp].
  apply Forall_app. split; [exact Hlog|]. constructor; [exact Hp | constructor].
Qed.

Lemma root_read_token : Traced.stays_root Traced.read_token.
Proof.
  intros p log Hp Hlog. unfold Traced.read_token.
  destruct (Lexer.call (tokenizer p)) as [[tok tz]|e];
    [apply root_assigned; assumption | split; [exact Hlog | exact I]].
Qed.

Lemma root_errors_append s : Traced.stays_root (Traced.errors_append s).
Proof. intros p log Hp Hlog. apply root_assigned; assumption. Qed.

Lemma root_search_symbol key : Traced.stays_root (Traced.search_symbol key).
Proof.
  intros p log Hp Hlog. unfold Traced.search_symbol. rewrite Hp.
  destruct (search_scopes key (reverse root_table)) as [[e|]|err] eqn:Es;
    cbn [Traced.log_of]; (split; [|first [exact Hp | exact I]]);
    try exact Hlog.
  - apply Forall_app. split; [exact Hlog|]. constructor; [|constructor].
    apply search_root in Es as [-> ->]. right. split; reflexivity.
  - apply Forall_app. split; [exact Hlog|]. constructor; [|constructor].
    left. reflexivity.
Qed.

Create HintDb root discriminated.
#[local] Hint Resolve root_ret root_get root_lift root_out_of_fuel
  root_read_token root_errors_append root_search_symbol : root.

Ltac root_step :=
  match goal with
  | |- Traced.stays_root (Traced.bind _ _) => apply root_bind; [|intros ?]
  | |- Traced.stays_root (if ?b then _ else _) => destruct b
  | |- Traced.stays_root (match ?x with _ => _ end) => destruct x
  | |- Traced.stays_root _ => solve [auto with root]
  end.
Ltac root := repeat root_step.

Lemma root_advance : Traced.stays_root Traced.advance.
Proof. unfold Traced.advance. root. Qed.

Lemma root_match tp : Traced.stays_root (Traced.match_ tp).
Proof. unfold Traced.match_. root. Qed.

Lemma root_consume t s : Traced.stays_root (Traced.consume t s).
Proof. unfold Traced.consume. root. Qed.

#[local] Hint Resolve root_advance root_match root_consume : root.

Lemma root_parse_type_expression : Traced.stays_root Traced.parse_type_expression.
Proof. unfold Traced.parse_type_expression. root. Qed.

#[local] Hint Resolve root_parse_type_expression : root.

Lemma root_arguments_loop n : forall names tys,
  Traced.stays_root (Traced.arguments_loop n names tys).
Proof.
  induction n as [|n IH]; intros names tys; cbn [Traced.arguments_loop]; root.
Qed.

#[local] Hint Resolve root_arguments_loop : root.

Lemma root_expressions n :
  Traced.stays_root (Traced.parse_atom n)
  /\ Traced.stays_root (Traced.parse_parenthesis n)
  /\ (forall min_prec, Traced.stays_root (Traced.parse_expression n min_prec))
  /\ (forall min_prec lhs,
        Traced.stays_root (Traced.expression_loop n min_prec lhs)).
Proof.
  induction n as [|n (IHa & IHp & IHe & IHl)].
  - split; [apply root_out_of_fuel|]. split; [apply root_out_of_fuel|].
    split; [intros mp | intros mp lhs]; apply root_out_of_fuel.
  - split; [cbn [Traced.parse_atom]; root|].
    split; [cbn [Traced.parse_parenthesis]; root|].
    split; [intros mp; cbn [Traced.parse_expression]; root
           | intros mp lhs; cbn [Traced.expression_loop]; root].
Qed.

Lemma root_parse_expression n min_prec :
  Traced.stays_root (Traced.parse_expression n min_prec).
Proof. apply root_expressions. Qed.

#[local] Hint Resolve root_parse_expression : root.

Lemma root_parse_variable_declaration n :
  Traced.stays_root (Traced.parse_variable_declaration n).
Proof. unfold Traced.parse_variable_declaration. root. Qed.

#[local] Hint Resolve root_parse_variable_declaration : root.

Lemma root_statements n :
  Traced.stays_root (Traced.parse_statement n)
  /\ (forall statements, Traced.stays_root (Traced.parse_block n statements))
  /\ Traced.stays_root (Traced.parse_if n)
  /\ Traced.stays_root (Traced.parse_function_definition n).
Proof.
  induction n as [|n (IHs & IHb & IHi & IHf)].
  - split; [apply root_out_of_fuel|].
    split; [intros statements; apply root_out_of_fuel|].
    split; apply root_out_of_fuel.
  - split; [cbn [Traced.parse_statement]; root|].
    split; [intros statements; cbn [Traced.parse_block]; root|].
    split; [cbn [Traced.parse_if]; root
           | cbn [Traced.parse_function_definition]; root].
Qed.

Lemma root_module_loop n : forall statements,
  Traced.stays_root (Traced.module_loop n statements).
Proof.
  pose proof (fun m => proj1 (root_statements m)) as Hs.
  induction n as [|n IH]; intros statements; cbn [Traced.module_loop]; root.
Qed.

(** The two primitives that change the table would show in the log. *)
Lemma scope_changes_are_logged p log :
  symbol_table p = root_table ->
  ~ Forall Traced.root_event (Traced.log_of (Traced.enter_scope p log))
  /\ ~ Forall Traced.root_event (Traced.log_of (Traced.leave_scope p log)).
Proof.
  intros Hp. unfold Traced.enter_scope, Traced.leave_scope, Traced.assigned.
  rewrite Hp. cbn [Traced.log_of symbol_table set_symbol_table].
  split; intros H; apply Forall_app in H as [_ H]; inversion H as [|? ? Hev _]; subst;
    cbn in Hev; discriminate Hev.
Qed.

(** C5: the parser starts with one scope, holding only [i32], a Type
    entry for the signed 32-bit integer.  Throughout a call of
    [parse_module] it stays so: in the log of the call, which records the
    symbol table after every assignment the parser makes to itself and
    every lookup that returns, every table is that one scope and every
    lookup finds nothing or finds the built-in under its name, whether the
    call returns, raises or is not finished; a push, a pop or an insertion
    would show as another table.  The logged methods are the methods (their
    results are the same, and the log is only added to).  So every parsing
    method returns with the symbol table it was called with, a lookup
    finds only the built-in, and a type expression yields the built-in type
    (with the Reference flag after [&]) or, with a diagnostic, the Void
    placeholder. *)
Theorem symbol_table_is_the_root_scope :
  (forall text p, Parser_init text = Ok p -> symbol_table p = root_table)
  /\ root_table
     = [ {[ "i32"%string :=
             SymbolEntry.mk SymbolEntryKind.Type_ (Qualified (Integer 32 true) 0) ]} ]
  /\ (keeps_table advance
      /\ (forall tp, keeps_table (match_ tp))
      /\ (forall t s, keeps_table (consume t s))
      /\ (forall key, keeps_table (search_symbol key))
      /\ keeps_table parse_type_expression)
  /\ (forall n,
        keeps_table (parse_atom n)
        /\ keeps_table (parse_parenthesis n)
        /\ (forall min_prec, keeps_table (parse_expression n min_prec))
        /\ keeps_table (parse_variable_declaration n)
        /\ keeps_table (parse_statement n)
        /\ (forall statements, keeps_table (parse_block n statements))
        /\ keeps_table (parse_if n)
        /\ keeps_table (parse_function_definition n)
        /\ keeps_table (parse_module n))
  /\ (forall text n p m p',
        Parser_init text = Ok p ->
        parse_module n p = Return m p' ->
        symbol_table p' = root_table)
  /\ (forall p key e p',
        symbol_table p = root_table ->
        search_symbol key p = Return (Some e) p' ->
        key = VStr "i32" /\ e = SymbolEntry.mk SymbolEntryKind.Type_ i32 /\ p' = p)
  /\ (forall p t p',
        symbol_table p = root_table ->
        parse_type_expression p = Return t p' ->
        t = void_type p \/ t = i32 \/ t = add_flags i32 Reference)
  /\ (forall n p log,
        Traced.erase (Traced.parse_module n p log) = parse_module n p
        /\ Traced.erase (Traced.parse_statement n p log) = parse_statement n p
        /\ (forall min_prec,
              Traced.erase (Traced.parse_expression n min_prec p log)
              = parse_expression n min_prec p)
        /\ Traced.erase (Traced.parse_type_expression p log)
           = parse_type_expression p)
  /\ (forall n p log,
        log `prefix_of` Traced.log_of (Traced.parse_module n p log))
  /\ (forall text n p,
        Parser_init text = Ok p ->
        Forall Traced.root_event
          (Traced.log_of
             (Traced.parse_module n p [Traced.Table (symbol_table p)])))
  /\ (forall n text, Forall Traced.root_event (Traced.history n text))
  /\ (forall p log,
        symbol_table p = root_table ->
        ~ Forall Traced.root_event (Traced.log_of (Traced.enter_scope p log))
        /\ ~ Forall Traced.root_event (Traced.log_of (Traced.leave_scope p log))).
Proof.
  split; [exact Parser_init_table|].
  split; [reflexivity|].
  split.
  { repeat split; intros; auto with keeps. }
  split.
  { intros n. pose proof (keeps_expressions n) as (Ha & Hp & He & _).
    pose proof (keeps_statements n) as (Hs & Hb & Hi & Hf).
    repeat split; auto with keeps. apply keeps_module_loop. }
  split.
  { intros text n p m p' Hinit Hrun.
    rewrite (keeps_module_loop n [] _ _ _ Hrun). exact (Parser_init_table _ _ Hinit). }
  split.
  { intros p key e p' Hroot H. unfold search_symbol, lift in H. rewrite Hroot in H.
    destruct (search_scopes key (reverse root_table)) as [[e'|]|] eqn:Es;
      inversion H; subst.
    apply search_root in Es as [-> ->]. repeat split; reflexivity. }
  split; [exact parse_type_expression_root|].
  assert (Hlog : forall text n p,
             Parser_init text = Ok p ->
             Forall Traced.root_event
               (Traced.log_of
                  (Traced.parse_module n p [Traced.Table (symbol_table p)]))).
  { intros text n p Hinit. pose proof (Parser_init_table _ _ Hinit) as Hp.
    apply (root_module_loop n [] p); [exact Hp|].
    constructor; [exact Hp | constructor]. }
  split.
  { intros n p log.
    split; [apply (erases_module_loop n [])|].
    split; [apply (proj1 (erases_statements n))|].
    split; [intros mp; apply erases_parse_expression|].
    apply erases_parse_type_expression. }
  split; [intros n p log; apply (grows_module_loop n [])|].
  split; [exact Hlog|].
  split.
  { intros n text. unfold Traced.history.
    destruct (Parser_init text) as [p|e] eqn:Hinit; [|constructor].
    exact (Hlog text n p Hinit). }
  exact scope_changes_are_logged.
Qed.

Lemma symbol_table_is_the_root_scope_witness :
  exists p,
    Parser_init (text "fn f() -> i32 { var c: t; var d: i32; }") = Ok p
    /\ Forall Traced.root_event
         (Traced.log_of
            (Traced.parse_module 9 p [Traced.Table (symbol_table p)])).
Proof.
  eexists. split; [vm_compute; reflexivity|].
  lazymatch goal with
  | |- Forall _ (Traced.log_of (Traced.parse_module _ ?P _)) =>
      apply (proj1 (proj2 (proj2 (proj2 (proj2 (proj2 (proj2 (proj2 (proj2
               (proj2 symbol_table_is_the_root_scope)))))))))
               (text "fn f() -> i32 { var c: t; var d: i32; }") 9%nat P)
  end.
  vm_compute; reflexivity.
Defined.

(** *** Name resolution *)

Lemma parse_type_expression_unknown p name :
  Token.type (token p) = TokenType.Identifier ->
  Token.value (token p) = VStr name ->
  Forall (fun d : gmap string SymbolEntry.t => d !! name = None) (symbol_table p) ->
  forall tok tz,
    Lexer.call (tokenizer p) = Ok (tok, tz) ->
    parse_type_expression p
    = Return (void_type p)
        (set_errors (errors p ++ ["No type found with name " +:+ name])
           (set_token tz tok p)).
Proof.
  intros Htp Hval Hnone tok tz Hcall.
  unfold parse_type_expression, consume, bind, get, read_token, ret.
  rewrite Htp.
  change (TokenType.eqb TokenType.Identifier TokenType.Identifier) with true.
  cbv beta iota. rewrite Hcall.
  unfold search_symbol, lift. cbn [symbol_table set_token].
  assert (Hs : search_scopes (Token.value (token p)) (reverse (symbol_table p)) = Ok None).
  { rewrite Hval. apply Forall_reverse in Hnone.
    induction Hnone as [|d ds Hd _ IH]; [reflexivity|].
    cbn. rewrite Hd. exact IH. }
  rewrite Hs. unfold errors_append. cbn. rewrite Hval. reflexivity.
Qed.

(** C3: parsing ["var x: notatype;"] returns a module with one
    declaration, of [x] with the Void placeholder [QualifiedType(VoidType())]
    as its type and no initializer, and the diagnostics are the one
    message that names [notatype]. *)
Theorem unknown_type_name_gives_void :
  forall n,
    run (2 + n) "var x: notatype;"
    = Parsed
        (ModuleDefinition
           [VariableDeclaration (VStr "x") (QualifiedType_init VoidType 0) None])
        ["No type found with name notatype"].
Proof. intros n. vm_compute. reflexivity. Qed.

(** *** Operators *)

(** The tiers of [operator_map], as (precedence, tokens); every entry is
    left-associative. *)
Lemma operator_map_tiers :
  Forall (fun '(prec, tps) =>
            Forall (fun tp =>
                      exists k, operator_map tp = Some (OpInfo.mk prec true k)) tps)
    [ (0, [TokenType.Star; TokenType.Slash; TokenType.Percent]);
      (-1, [TokenType.Plus; TokenType.Minus]);
      (-2, [TokenType.LShift; TokenType.RShift]);
      (-3, [TokenType.Greater; TokenType.GreaterEqual;
            TokenType.Lesser; TokenType.LesserEqual]);
      (-4, [TokenType.Equal; TokenType.BangEqual]);
      (-5, [TokenType.Ampersand]);
      (-6, [TokenType.Caret]);
      (-7, [TokenType.Pipe]) ].
Proof. repeat constructor; eexists; reflexivity. Qed.

Lemma operator_map_left_associative tp info :
  operator_map tp = Some info -> OpInfo.left_associativity info = true.
Proof. destruct tp; cbn; intros H; inversion H; reflexivity. Qed.

Example precedence_example n :
  exists p,
    run_expression (6 + n) "1 + 2 * 3"
    = Return
        (Some (BinaryOperator (int_const 1) BinaryOperatorKind.Add
                 (Some (BinaryOperator (int_const 2) BinaryOperatorKind.Multiply
                          (int_const 3))))) p.
Proof. eexists. vm_compute. reflexivity. Qed.

Example left_associative_example n :
  exists p,
    run_expression (6 + n) "1 - 2 - 3"
    = Return
        (Some (BinaryOperator
                 (Some (BinaryOperator (int_const 1) BinaryOperatorKind.Subtract
                          (int_const 2)))
                 BinaryOperatorKind.Subtract (int_const 3))) p.
Proof. eexists. vm_compute. reflexivity. Qed.

Example unary_binds_tighter n :
  exists p,
    run_expression (5 + n) "-a * b"
    = Return
        (Some (BinaryOperator
                 (Some (UnaryOperator UnaryOperatorKind.Negate
                          (Some (Identifier (VStr "a")))))
                 BinaryOperatorKind.Multiply (Some (Identifier (VStr "b"))))) p.
Proof. eexists. vm_compute. reflexivity. Qed.

(** The program of src/main.py. *)
Example main_program n :
  run (13 + n)
    "fn func(a: i32, b: i32) -> i32 { var c: i32 = a + b; return c * c + a * b; }"
  = Parsed
      (ModuleDefinition
         [FunctionDef (VStr "func") (Function i32 [i32; i32]) [VStr "a"; VStr "b"]
            (Some (StatementBlock
                     [VariableDeclaration (VStr "c") i32
                        (Some (BinaryOperator (Some (Identifier (VStr "a")))
                                 BinaryOperatorKind.Add
                                 (Some (Identifier (VStr "b")))));
                      ReturnStatement
                        (Some (BinaryOperator
                                 (Some (BinaryOperator
                                          (Some (Identifier (VStr "c")))
                                          BinaryOperatorKind.Multiply
                                          (Some (Identifier (VStr "c")))))
                                 BinaryOperatorKind.Add
                                 (Some (BinaryOperator
                                          (Some (Identifier (VStr "a")))
                                          BinaryOperatorKind.Multiply
                                          (Some (Identifier (VStr "b")))))))]))])
      [].
Proof. vm_compute. reflexivity. Qed.

(** C2: the table keys [CmpEqual] on the token of ["="], not on the
    token of ["=="].  ["=="] lexes to EqualEqual, which is no key of
    [operator_map]: [parse_expression] on ["1 == 2"] returns the constant
    1 alone and stops in front of the ["=="]; it is ["1 = 2"] that gives
    the comparison [(1 == 2)]. *)
Theorem double_equal_is_not_an_operator :
  Lexer.call (Tokenizer_init (text "=="))
    = Ok (Token.mk TokenType.EqualEqual VNone 0, mkTokenizer (text "==") 2 0)
  /\ operator_map TokenType.EqualEqual = None
  /\ operator_map TokenType.Equal
     = Some (OpInfo.mk (-4) true BinaryOperatorKind.CmpEqual)
  /\ BinaryOperatorKind.operator_strings BinaryOperatorKind.CmpEqual = "=="%string
  /\ (forall n, exists p,
        run_expression (3 + n) "1 == 2" = Return (int_const 1) p
        /\ Token.type (token p) = TokenType.EqualEqual
        /\ errors p = [])
  /\ (forall n, exists p,
        run_expression (5 + n) "1 = 2"
        = Return (Some (BinaryOperator (int_const 1) BinaryOperatorKind.CmpEqual
                          (int_const 2))) p
        /\ Token.type (token p) = TokenType.EndOfFile).
Proof.
  split; [reflexivity|]. split; [reflexivity|]. split; [reflexivity|].
  split; [reflexivity|]. split.
  - intros n. eexists. split; [vm_compute; reflexivity|]. split; reflexivity.
  - intros n. eexists. split; [vm_compute; reflexivity|]. reflexivity.
Qed.

(** *** Termination *)

(** On a closing parenthesis no branch of [parse_statement] or of
    [parse_atom] applies: the statement is an expression statement without
    expression, one diagnostic is added and the token stays. *)
Lemma parse_statement_on_RParen n p :
  Token.type (token p) = TokenType.RParen ->
  parse_statement n p = OutOfFuel
  \/ parse_statement n p
     = Return (ExpressionStatement None)
         (set_errors (errors p ++ [stuck_message]) p).
Proof.
  intros Htp.
  destruct p as [sc tz [tp v l] es st vt]. cbn in Htp. subst tp.
  destruct n as [|[|[|n]]]; [left; reflexivity ..|].
  right. vm_compute. reflexivity.
Qed.

Lemma module_loop_on_RParen n : forall statements p,
  Token.type (token p) = TokenType.RParen ->
  module_loop n statements p = OutOfFuel.
Proof.
  induction n as [|n IH]; intros statements p Htp; [reflexivity|].
  cbn [module_loop]. unfold bind at 1, get at 1. rewrite Htp.
  cbn [TokenType.eqb TokenType.to_int Z.eqb Pos.eqb negb].
  unfold bind.
  destruct (parse_statement_on_RParen n p Htp) as [-> | ->]; [reflexivity|].
  apply IH. exact Htp.
Qed.

(** C1: on the text [")"] the loop of [parse_module] never ends: every
    round appends a diagnostic and leaves the token where it is, so no
    amount of fuel lets the call return.  Other texts make the call
    raise: ["1_"] (the tokenizer's [int] fails) and ["var x: @;"] (the
    Error token's payload is looked up in the symbol table and cannot be
    hashed). *)
Theorem parse_module_does_not_return :
  (forall n, run n ")" = Unfinished)
  /\ (forall n, run n "1_" = Failed ValueError)
  /\ (forall n, run (3 + n) "var x: @;" = Failed TypeError).
Proof.
  split; [|split].
  - intros n. unfold run.
    destruct (Parser_init (String.list_ascii_of_string ")")) as [p|e] eqn:E;
      [|vm_compute in E; discriminate E].
    assert (Htp : Token.type (token p) = TokenType.RParen)
      by (vm_compute in E; inversion E; reflexivity).
    unfold parse_module. rewrite (module_loop_on_RParen n [] p Htp). reflexivity.
  - intros n. reflexivity.
  - intros n. vm_compute. reflexivity.
Qed.


(** *** Further properties of the parser *)

Lemma match_mismatch p tp :
  Token.type (token p) <> tp -> match_ tp p = Return false p.
Proof.
  intros H. apply eqb_neq in H. unfold match_, bind, get, ret. rewrite H. reflexivity.
Qed.

(** X15: [match] and [consume] do the same on the expected token: they
    read the next token and return [True], diagnostics untouched.  On any
    other token [match] returns [False] and changes nothing at all, where
    [consume] appends its message. *)
Theorem match_and_consume p tp s :
  (Token.type (token p) = tp ->
     consume tp s p = match_ tp p
     /\ forall b p', match_ tp p = Return b p' ->
          b = true /\ errors p' = errors p
          /\ Lexer.call (tokenizer p) = Ok (token p', tokenizer p'))
  /\ (Token.type (token p) <> tp ->
        match_ tp p = Return false p
        /\ consume tp s p = Return false (set_errors (errors p ++ [s]) p)).
Proof.
  split.
  - intros Htp. apply eqb_eq in Htp.
    unfold consume, match_, bind, get, ret. rewrite Htp. split; [reflexivity|].
    intros b p'. unfold read_token.
    destruct (Lexer.call (tokenizer p)) as [[tok tz]|]; [|discriminate].
    intros H. inversion H; subst. repeat split.
  - intros Hne. split; [exact (match_mismatch p tp Hne)|].
    apply eqb_neq in Hne. unfold consume, bind, get, errors_append, ret.
    rewrite Hne. reflexivity.
Qed.

Lemma match_and_consume_witness :
  exists p,
    Parser_init (text "x;") = Ok p
    /\ consume TokenType.Identifier "expected a name" p = match_ TokenType.Identifier p
    /\ match_ TokenType.Semicolon p = Return false p.
Proof.
  eexists. split; [vm_compute; reflexivity|]. split.
  - apply (proj1 (match_and_consume _ TokenType.Identifier "expected a name")).
    reflexivity.
  - apply (proj2 (match_and_consume _ TokenType.Semicolon "expected ';'")).
    vm_compute. discriminate.
Defined.

(** *** Scopes *)

Lemma set_symbol_table_same p : set_symbol_table (symbol_table p) p = p.
Proof. destruct p; reflexivity. Qed.

(** X16: [enter_scope] followed by [leave_scope] gives back the parser as
    it was; a lookup by name between the two finds what it found before;
    [leave_scope] on a parser without scopes raises [IndexError]. *)
Theorem scope_round_trip p :
  bind enter_scope (fun _ => leave_scope) p = Return tt p
  /\ (forall k,
        bind enter_scope (fun _ => search_symbol (VStr k)) p
        = match search_symbol (VStr k) p with
          | Return r _ => Return r (set_symbol_table (symbol_table p ++ [∅]) p)
          | Raised e => Raised e
          | OutOfFuel => OutOfFuel
          end)
  /\ (symbol_table p = [] -> leave_scope p = Raised IndexError).
Proof.
  split; [|split].
  - unfold bind, enter_scope, leave_scope. cbn [symbol_table set_symbol_table].
    destruct (symbol_table p ++ [∅]) as [|d l] eqn:E.
    { apply app_eq_nil in E as [_ E]. discriminate E. }
    rewrite <- E, removelast_last.
    destruct p; reflexivity.
  - intros k. unfold bind, enter_scope, search_symbol, lift.
    cbn [symbol_table set_symbol_table].
    rewrite reverse_snoc. cbn [search_scopes dict_get Py.bind].
    rewrite lookup_empty.
    destruct (search_scopes (VStr k) (reverse (symbol_table p))); reflexivity.
  - intros E. unfold leave_scope. rewrite E. reflexivity.
Qed.

Lemma scope_round_trip_witness :
  exists p,
    Parser_init (text "x") = Ok p
    /\ leave_scope (set_symbol_table [] p) = Raised IndexError.
Proof.
  eexists. split; [vm_compute; reflexivity|].
  apply (proj2 (proj2 (scope_round_trip _))). reflexivity.
Defined.

Lemma search_scopes_skip k skipped rest :
  Forall (fun s : gmap string SymbolEntry.t => s !! k = None) skipped ->
  search_scopes (VStr k) (skipped ++ rest) = search_scopes (VStr k) rest.
Proof.
  induction 1 as [|s skipped Hs _ IH]; [reflexivity|].
  cbn. rewrite Hs. exact IH.
Qed.

(** X17: lookup is innermost first, over any stack of scopes: the lookup
    of a name returns the entry of the last scope that has the name,
    whatever the scopes before it hold under that name, and returns nothing
    when no scope has it; the parser is not changed. *)
Theorem innermost_scope_shadows p k :
  (forall outer d inner e,
      symbol_table p = outer ++ d :: inner ->
      d !! k = Some e ->
      Forall (fun s : gmap string SymbolEntry.t => s !! k = None) inner ->
      search_symbol (VStr k) p = Return (Some e) p)
  /\ (Forall (fun s : gmap string SymbolEntry.t => s !! k = None) (symbol_table p) ->
      search_symbol (VStr k) p = Return None p).
Proof.
  split.
  - intros outer d inner e Htable Hd Hinner.
    unfold search_symbol, lift. rewrite Htable.
    rewrite reverse_app, reverse_cons, <- app_assoc.
    rewrite search_scopes_skip by (apply Forall_reverse; exact Hinner).
    cbn. rewrite Hd. reflexivity.
  - intros Hnone. unfold search_symbol, lift.
    rewrite <- (app_nil_r (reverse (symbol_table p))).
    rewrite search_scopes_skip by (apply Forall_reverse; exact Hnone).
    reflexivity.
Qed.

Lemma innermost_scope_shadows_witness :
  let shadow : gmap string SymbolEntry.t :=
    {[ "i32"%string := SymbolEntry.mk SymbolEntryKind.Variable_ (Qualified Void 0) ]} in
  let p :=
    mkParser [] (Tokenizer_init []) (Token.mk TokenType.EndOfFile (VInt 0) 0) []
      [root_scope; shadow; ∅] (Qualified Void 0) in
  root_scope !! "i32"%string = Some (SymbolEntry.mk SymbolEntryKind.Type_ i32)
  /\ search_symbol (VStr "i32") p
     = Return (Some (SymbolEntry.mk SymbolEntryKind.Variable_ (Qualified Void 0))) p.
Proof.
  intros shadow p. split; [reflexivity|].
  apply (proj1 (innermost_scope_shadows p "i32") [root_scope] shadow [∅]).
  - reflexivity.
  - reflexivity.
  - constructor; [reflexivity | constructor].
Defined.

(** X18: the payload of an Error token cannot be looked up: in a parser
    with a scope, [search_symbol] on it raises [TypeError], and so does
    [parse_type_expression] when the current token is an Error token (after
    recording that the type must be an identifier, which is lost with the
    exception). *)
Theorem error_token_lookup_raises p c :
  symbol_table p <> [] ->
  search_symbol (UnknownCharacterError c) p = Raised TypeError
  /\ (Token.type (token p) = TokenType.Error ->
      Token.value (token p) = UnknownCharacterError c ->
      parse_type_expression p = Raised TypeError).
Proof.
  intros Hne.
  assert (Hs : forall q, symbol_table q = symbol_table p ->
                 search_symbol (UnknownCharacterError c) q = Raised TypeError).
  { intros q Hq. unfold search_symbol, lift. rewrite Hq.
    destruct (symbol_table p) as [|d l _] using rev_ind; [contradiction|].
    rewrite reverse_snoc. reflexivity. }
  split; [apply Hs; reflexivity|].
  intros Htp Hv. unfold parse_type_expression, bind at 1, get at 1. cbv beta iota.
  unfold bind at 1, consume, bind at 1, get at 1. rewrite Htp.
  change (TokenType.eqb TokenType.Error TokenType.Identifier) with false.
  cbv beta iota. unfold bind at 1, errors_append, ret. unfold bind at 1.
  rewrite Hv, Hs by reflexivity. reflexivity.
Qed.

Lemma error_token_lookup_raises_witness :
  exists p,
    Parser_init (text "@") = Ok p
    /\ parse_type_expression p = Raised TypeError.
Proof.
  eexists. split; [vm_compute; reflexivity|].
  match goal with
  | |- parse_type_expression ?p = _ =>
      apply (proj2 (error_token_lookup_raises p "@"%char
                      ltac:(vm_compute; discriminate)))
  end; reflexivity.
Defined.

(** *** What every method keeps *)

Lemma follows_refl p : follows p p.
Proof.
  unfold follows. split; [reflexivity|].
  split; [reflexivity|]. split; [reflexivity|].
  apply LexerFacts.later_refl.
Qed.

Lemma follows_trans p1 p2 p3 : follows p1 p2 -> follows p2 p3 -> follows p1 p3.
Proof.
  unfold follows. intros (E1 & S1 & V1 & L1) (E2 & S2 & V2 & L2).
  split; [etrans; eassumption|]. split; [congruence|]. split; [congruence|].
  eapply LexerFacts.later_trans; eassumption.
Qed.

Lemma advances_ret {A} (a : A) : advances (ret a).
Proof. intros p a' p' H. inversion H; subst. apply follows_refl. Qed.

Lemma advances_get {A} (f : Parser -> A) : advances (get f).
Proof. intros p a' p' H. inversion H; subst. apply follows_refl. Qed.

Lemma advances_lift {A} (r : result A) : advances (lift r).
Proof.
  intros p a' p' H. unfold lift in H. destruct r; inversion H; subst.
  apply follows_refl.
Qed.

Lemma advances_out_of_fuel {A} : advances (@out_of_fuel A).
Proof. intros p a' p' H. discriminate H. Qed.

Lemma advances_bind {A B} (m : M A) (k : A -> M B) :
  advances m -> (forall a, advances (k a)) -> advances (bind m k).
Proof.
  intros Hm Hk p b p' H. unfold bind in H.
  destruct (m p) as [a p1| |] eqn:E; try discriminate H.
  eapply follows_trans; [exact (Hm _ _ _ E) | exact (Hk a _ _ _ H)].
Qed.

Lemma advances_read_token : advances read_token.
Proof.
  intros p a p' H. unfold read_token in H.
  destruct (Lexer.call (tokenizer p)) as [[tok tz]|] eqn:E; inversion H; subst.
  unfold follows. cbn [errors source_code void_type tokenizer set_token].
  split; [reflexivity|]. split; [reflexivity|]. split; [reflexivity|].
  unfold Lexer.call in E. apply LexerFacts.call_loop_returns in E; [|lia].
  apply E.
Qed.

Lemma advances_errors_append s : advances (errors_append s).
Proof.
  intros p a p' H. inversion H; subst. unfold follows.
  cbn [errors source_code void_type tokenizer set_errors].
  split; [apply prefix_app_r; reflexivity|].
  split; [reflexivity|]. split; [reflexivity|].
  apply LexerFacts.later_refl.
Qed.

Lemma advances_search_symbol key : advances (search_symbol key).
Proof.
  intros p a p' H. unfold search_symbol, lift in H.
  destruct (search_scopes key (reverse (symbol_table p))); inversion H; subst.
  apply follows_refl.
Qed.

Create HintDb advances discriminated.
#[local] Hint Resolve advances_ret advances_get advances_lift advances_out_of_fuel
  advances_read_token advances_errors_append advances_search_symbol : advances.

Ltac advances_step :=
  match goal with
  | |- advances (bind _ _) => apply advances_bind; [|intros ?]
  | |- advances (if ?b then _ else _) => destruct b
  | |- advances (match ?x with _ => _ end) => destruct x
  | |- advances (let '(_, _) := ?x in _) => destruct x
  | |- advances _ => solve [auto with advances]
  end.
Ltac advances := repeat advances_step.

Lemma advances_advance : advances advance.
Proof. unfold advance. advances. Qed.

Lemma advances_match tp : advances (match_ tp).
Proof. unfold match_. advances. Qed.

Lemma advances_consume t s : advances (consume t s).
Proof. unfold consume. advances. Qed.

#[local] Hint Resolve advances_advance advances_match advances_consume : advances.

Lemma advances_parse_type_expression : advances parse_type_expression.
Proof. unfold parse_type_expression. advances. Qed.

#[local] Hint Resolve advances_parse_type_expression : advances.

Lemma advances_arguments_loop n : forall names tys,
  advances (arguments_loop n names tys).
Proof.
  induction n as [|n IH]; intros names tys; cbn [arguments_loop]; advances.
Qed.

#[local] Hint Resolve advances_arguments_loop : advances.

Lemma advances_expressions n :
  advances (parse_atom n)
  /\ advances (parse_parenthesis n)
  /\ (forall min_prec, advances (parse_expression n min_prec))
  /\ (forall min_prec lhs, advances (expression_loop n min_prec lhs)).
Proof.
  induction n as [|n (IHa & IHp & IHe & IHl)].
  - split; [apply advances_out_of_fuel|]. split; [apply advances_out_of_fuel|].
    split; [intros mp | intros mp lhs]; apply advances_out_of_fuel.
  - split; [cbn [parse_atom]; advances|].
    split; [cbn [parse_parenthesis]; advances|].
    split; [intros mp; cbn [parse_expression]; advances
           | intros mp lhs; cbn [expression_loop]; advances].
Qed.

Lemma advances_parse_expression n min_prec : advances (parse_expression n min_prec).
Proof. apply advances_expressions. Qed.

#[local] Hint Resolve advances_parse_expression : advances.

Lemma advances_parse_variable_declaration n :
  advances (parse_variable_declaration n).
Proof. unfold parse_variable_declaration. advances. Qed.

#[local] Hint Resolve advances_parse_variable_declaration : advances.

Lemma advances_statements n :
  advances (parse_statement n)
  /\ (forall statements, advances (parse_block n statements))
  /\ advances (parse_if n)
  /\ advances (parse_function_definition n).
Proof.
  induction n as [|n (IHs & IHb & IHi & IHf)].
  - split; [apply advances_out_of_fuel|].
    split; [intros statements; apply advances_out_of_fuel|].
    split; apply advances_out_of_fuel.
  - split; [cbn [parse_statement]; advances|].
    split; [intros statements; cbn [parse_block]; advances|].
    split; [cbn [parse_if]; advances | cbn [parse_function_definition]; advances].
Qed.

Lemma advances_parse_statement n : advances (parse_statement n).
Proof. apply advances_statements. Qed.

#[local] Hint Resolve advances_parse_statement : advances.

Lemma advances_module_loop n : forall statements,
  advances (module_loop n statements).
Proof. induction n as [|n IH]; intros statements; cbn [module_loop]; advances. Qed.

Lemma advances_appends {A} (m : M A) : advances m -> appends_only m.
Proof. intros H p a p' E. apply (H _ _ _ E). Qed.

Lemma advances_frame {A} (m : M A) : advances m -> keeps_frame m.
Proof.
  intros H p a p' E. destruct (H _ _ _ E) as (_ & Hs & Hv & Hsrc & Hi & Hl & _).
  repeat split; assumption.
Qed.

(** X19: the diagnostics are append-only: whatever a parsing method
    returns, the diagnostics after the call start with the diagnostics
    before it, in the same order. *)
Theorem diagnostics_are_append_only n :
  (appends_only advance
   /\ (forall tp, appends_only (match_ tp))
   /\ (forall t s, appends_only (consume t s))
   /\ appends_only parse_type_expression)
  /\ appends_only (parse_atom n)
  /\ appends_only (parse_parenthesis n)
  /\ (forall min_prec, appends_only (parse_expression n min_prec))
  /\ appends_only (parse_variable_declaration n)
  /\ appends_only (parse_statement n)
  /\ (forall statements, appends_only (parse_block n statements))
  /\ appends_only (parse_if n)
  /\ appends_only (parse_function_definition n)
  /\ appends_only (parse_module n).
Proof.
  pose proof (advances_expressions n) as (Ha & Hp & He & _).
  pose proof (advances_statements n) as (Hs & Hb & Hi & Hf).
  repeat match goal with
         | |- _ /\ _ => split
         | |- forall _, _ => intro
         end;
    apply advances_appends; auto with advances.
  apply advances_module_loop.
Qed.

Lemma diagnostics_are_append_only_witness :
  exists p m p',
    Parser_init (text "var x: t; )") = Ok p
    /\ parse_statement 5 p = Return m p'
    /\ errors p `prefix_of` errors p'.
Proof.
  eexists; eexists; eexists.
  split; [vm_compute; reflexivity|].
  split; [vm_compute; reflexivity|].
  eapply (proj1 (proj2 (proj2 (proj2 (proj2 (proj2 (diagnostics_are_append_only 5)))))));
    vm_compute; reflexivity.
Defined.

(** X20: no parsing method changes the text or the Void placeholder, and
    none moves the tokenizer backwards: after the call the tokenizer reads
    the same text, with a cursor and a line counter that are not smaller. *)
Theorem parser_moves_forward n :
  (keeps_frame advance
   /\ (forall tp, keeps_frame (match_ tp))
   /\ (forall t s, keeps_frame (consume t s))
   /\ keeps_frame parse_type_expression)
  /\ keeps_frame (parse_atom n)
  /\ keeps_frame (parse_parenthesis n)
  /\ (forall min_prec, keeps_frame (parse_expression n min_prec))
  /\ keeps_frame (parse_variable_declaration n)
  /\ keeps_frame (parse_statement n)
  /\ (forall statements, keeps_frame (parse_block n statements))
  /\ keeps_frame (parse_if n)
  /\ keeps_frame (parse_function_definition n)
  /\ keeps_frame (parse_module n).
Proof.
  pose proof (advances_expressions n) as (Ha & Hp & He & _).
  pose proof (advances_statements n) as (Hs & Hb & Hi & Hf).
  repeat match goal with
         | |- _ /\ _ => split
         | |- forall _, _ => intro
         end;
    apply advances_frame; auto with advances.
  apply advances_module_loop.
Qed.

Lemma parser_moves_forward_witness :
  exists p m p',
    Parser_init (text "x + 1;") = Ok p
    /\ parse_statement 6 p = Return m p'
    /\ (idx (tokenizer p) <= idx (tokenizer p'))%nat.
Proof.
  eexists; eexists; eexists.
  split; [vm_compute; reflexivity|].
  split; [vm_compute; reflexivity|].
  eapply (proj1 (proj2 (proj2 (proj2 (proj2 (proj2 (parser_moves_forward 6)))))));
    vm_compute; reflexivity.
Defined.

(** *** Tokens on which nothing is read *)

(** X21: on a token that starts no atom, [parse_atom] returns [None] and
    leaves the parser exactly as it was: no token is read and no
    diagnostic is recorded. *)
Theorem parse_atom_on_other_tokens n p :
  starts_atom (Token.type (token p)) = false ->
  parse_atom (S n) p = Return None p.
Proof.
  intros H. destruct p as [sc tz [tp v l] es st vt]. cbn [token Token.type] in H.
  destruct tp; first [discriminate H | reflexivity].
Qed.

Lemma parse_atom_on_other_tokens_witness :
  exists p,
    Parser_init (text "]") = Ok p /\ parse_atom 1 p = Return None p.
Proof.
  eexists. split; [vm_compute; reflexivity|].
  apply parse_atom_on_other_tokens. reflexivity.
Defined.

Lemma parse_statement_no_progress n p :
  no_progress (Token.type (token p)) = true ->
  parse_statement n p = OutOfFuel
  \/ parse_statement n p
     = Return (ExpressionStatement None)
         (set_errors (errors p ++ [stuck_message]) p).
Proof.
  intros H. destruct p as [sc tz [tp v l] es st vt]. cbn [token Token.type] in H.
  destruct tp; try discriminate H;
    (destruct n as [|[|[|n]]]; [left; reflexivity ..|]); right; reflexivity.
Qed.

(** X22: when the current token starts no statement and no atom and is
    neither an operator nor a [';'], a statement is parsed without reading
    anything, so the statement loops never end: [parse_module] does not
    return unless that token is EndOfFile, and [parse_block] does not return
    unless it is the closing brace (so a block left open at the end of the
    text is never finished). *)
Theorem loops_do_not_end_without_progress n :
  (forall statements p,
      no_progress (Token.type (token p)) = true ->
      Token.type (token p) <> TokenType.EndOfFile ->
      module_loop n statements p = OutOfFuel)
  /\ (forall p,
        no_progress (Token.type (token p)) = true ->
        Token.type (token p) <> TokenType.EndOfFile ->
        parse_module n p = OutOfFuel)
  /\ (forall statements p,
        no_progress (Token.type (token p)) = true ->
        Token.type (token p) <> TokenType.RBrace ->
        parse_block n statements p = OutOfFuel).
Proof.
  assert (Hm : forall statements p,
             no_progress (Token.type (token p)) = true ->
             Token.type (token p) <> TokenType.EndOfFile ->
             module_loop n statements p = OutOfFuel).
  { induction n as [|n IH]; intros statements p Hnp Hne; [reflexivity|].
    cbn [module_loop]. unfold bind at 1, get at 1.
    apply eqb_neq in Hne. rewrite Hne. cbn [negb]. unfold bind.
    destruct (parse_statement_no_progress n p Hnp) as [-> | ->]; [reflexivity|].
    apply IH; [exact Hnp | apply eqb_neq; exact Hne]. }
  split; [exact Hm|]. split; [intros p; apply Hm|]. clear Hm.
  induction n as [|n IH]; intros statements p Hnp Hne; [reflexivity|].
  cbn [parse_block]. unfold bind at 1.
  rewrite (match_mismatch p TokenType.RBrace Hne). cbn [negb]. unfold bind.
  destruct (parse_statement_no_progress n p Hnp) as [-> | ->]; [reflexivity|].
  apply IH; [exact Hnp | exact Hne].
Qed.

Lemma loops_do_not_end_without_progress_witness :
  exists p,
    Parser_init (text "{") = Ok p
    /\ exists p', match_ TokenType.LBrace p = Return true p'
                  /\ parse_block 40 [] p' = OutOfFuel.
Proof.
  eexists. split; [vm_compute; reflexivity|].
  eexists. split; [vm_compute; reflexivity|].
  apply (proj2 (proj2 (loops_do_not_end_without_progress 40))).
  - reflexivity.
  - discriminate.
Defined.

(** *** Results and exceptions *)

Lemma yields_ret {A} (a : A) (Q : A -> Prop) : Q a -> yields (ret a) Q.
Proof. intros H p. exact H. Qed.

Lemma yields_get {A} (f : Parser -> A) : yields (get f) (fun _ => True).
Proof. intros p. exact I. Qed.

Lemma yields_out_of_fuel {A} (Q : A -> Prop) : yields (@out_of_fuel A) Q.
Proof. intros p. exact I. Qed.

Lemma yields_bind {A B} (m : M A) (k : A -> M B) (Q : A -> Prop) (Q' : B -> Prop) :
  yields m Q -> (forall a, Q a -> yields (k a) Q') -> yields (bind m k) Q'.
Proof.
  intros Hm Hk p. unfold bind. specialize (Hm p).
  destruct (m p) as [a p1|e|]; [exact (Hk a Hm p1) | exact Hm | exact I].
Qed.

Lemma yields_weaken {A} (m : M A) (Q Q' : A -> Prop) :
  yields m Q -> (forall a, Q a -> Q' a) -> yields m Q'.
Proof.
  intros Hm HQ p. specialize (Hm p).
  destruct (m p); [apply HQ; exact Hm | exact Hm | exact I].
Qed.

Lemma yields_read_token : yields read_token (fun _ => True).
Proof.
  intros p. unfold read_token.
  destruct (Lexer.call (tokenizer p)) as [[tok tz]|e] eqn:E; [exact I|].
  left. exact (proj1 (LexerFacts.call_loop_raises _ _ _ E)).
Qed.

Lemma yields_errors_append s : yields (errors_append s) (fun _ => True).
Proof. intros p. exact I. Qed.

Lemma search_scopes_raises key scopes e :
  search_scopes key scopes = Raise e -> e = TypeError.
Proof.
  induction scopes as [|d ds IH]; [discriminate|].
  cbn. destruct key; cbn; try (destruct (d !! _); [discriminate | exact IH]);
    try exact IH.
  intros H. inversion H. reflexivity.
Qed.

Lemma yields_search_symbol key : yields (search_symbol key) (fun _ => True).
Proof.
  intros p. unfold search_symbol, lift.
  destruct (search_scopes key (reverse (symbol_table p))) as [r|e] eqn:E; [exact I|].
  right. exact (search_scopes_raises _ _ _ E).
Qed.

Create HintDb yields discriminated.
#[local] Hint Resolve yields_get yields_out_of_fuel yields_read_token
  yields_errors_append yields_search_symbol : yields.

(** One step through the body of a method; a result that is not looked
    at needs no postcondition. *)
Ltac yields_step :=
  match goal with
  | |- yields (bind _ _) _ =>
      first [ eapply yields_bind; [solve [eauto with yields] | intros ? ?]
            | eapply (yields_bind _ _ (fun _ => True)); [|intros ? _] ]
  | |- yields (if ?b then _ else _) _ => destruct b
  | |- yields (match ?x with _ => _ end) _ => destruct x
  | |- yields (ret _) _ => apply yields_ret; try exact I
  | |- yields _ (fun _ => True) =>
      first [ solve [eauto with yields]
            | eapply yields_weaken; [solve [eauto with yields] | intros ? _; exact I] ]
  | |- yields _ _ => solve [eauto with yields]
  end.
Ltac yields := repeat yields_step.

Lemma yields_advance : yields advance (fun _ => True).
Proof. unfold advance. yields. Qed.

Lemma yields_match tp : yields (match_ tp) (fun _ => True).
Proof. unfold match_. yields. Qed.

Lemma yields_consume t s : yields (consume t s) (fun _ => True).
Proof. unfold consume. yields. Qed.

#[local] Hint Resolve yields_advance yields_match yields_consume : yields.

Lemma yields_parse_type_expression : yields parse_type_expression (fun _ => True).
Proof. unfold parse_type_expression. yields. Qed.

#[local] Hint Resolve yields_parse_type_expression : yields.

(** The argument loop extends both lists by one per round. *)
Lemma yields_arguments_loop n : forall names tys,
  length names = length tys ->
  yields (arguments_loop n names tys) (fun r => length r.1 = length r.2).
Proof.
  induction n as [|n IH]; intros names tys Hlen; cbn [arguments_loop];
    [apply yields_out_of_fuel|].
  assert (Hlen' : forall a b, length (names ++ [a]) = length (tys ++ [b]))
    by (intros a b; rewrite !length_app; cbn; lia).
  yields; try exact Hlen; try apply Hlen'.
Qed.

Lemma yields_expressions n :
  yields (parse_atom n) (fun _ => True)
  /\ yields (parse_parenthesis n) (fun _ => True)
  /\ (forall min_prec, yields (parse_expression n min_prec) (fun _ => True))
  /\ (forall min_prec lhs, yields (expression_loop n min_prec lhs) (fun _ => True)).
Proof.
  induction n as [|n (IHa & IHp & IHe & IHl)].
  - split; [apply yields_out_of_fuel|]. split; [apply yields_out_of_fuel|].
    split; [intros mp | intros mp lhs]; apply yields_out_of_fuel.
  - split; [cbn [parse_atom]; yields|].
    split; [cbn [parse_parenthesis]; yields|].
    split; [intros mp; cbn [parse_expression]; yields
           | intros mp lhs; cbn [expression_loop]; yields].
Qed.

Lemma yields_parse_expression n min_prec :
  yields (parse_expression n min_prec) (fun _ => True).
Proof. apply yields_expressions. Qed.

#[local] Hint Resolve yields_parse_expression : yields.

Lemma yields_parse_variable_declaration n :
  yields (parse_variable_declaration n) (fun _ => True).
Proof. unfold parse_variable_declaration. yields. Qed.

#[local] Hint Resolve yields_parse_variable_declaration : yields.

Lemma FunctionDefinition_returns name ret args names code :
  length args = length names ->
  (code = None \/ exists body, code = Some (StatementBlock body)) ->
  FunctionDefinition name (FunctionType ret args) names code
  = Ok (FunctionDef name (Function ret args) names code).
Proof.
  intros Hlen Hcode. unfold FunctionDefinition, FunctionType. cbn [arguments].
  apply Nat.eqb_eq in Hlen. rewrite Hlen. cbn [assert Py.bind].
  destruct Hcode as [-> | [body ->]]; reflexivity.
Qed.

Lemma yields_FunctionDefinition name ret args names code :
  length args = length names ->
  (code = None \/ exists body, code = Some (StatementBlock body)) ->
  yields (lift (FunctionDefinition name (FunctionType ret args) names code))
    well_formed_function.
Proof.
  intros Hlen Hcode p. rewrite FunctionDefinition_returns by assumption.
  cbn. unfold well_formed_function. eauto 10.
Qed.

Lemma yields_statements n :
  yields (parse_statement n) (fun _ => True)
  /\ (forall statements,
        yields (parse_block n statements) (fun s => exists body, s = StatementBlock body))
  /\ yields (parse_if n) (fun _ => True)
  /\ yields (parse_function_definition n) well_formed_function.
Proof.
  induction n as [|n (IHs & IHb & IHi & IHf)].
  - split; [apply yields_out_of_fuel|].
    split; [intros statements; apply yields_out_of_fuel|].
    split; apply yields_out_of_fuel.
  - split; [cbn [parse_statement]; yields|].
    split; [intros statements; cbn [parse_block]; yields; eexists; reflexivity|].
    split; [cbn [parse_if]; yields|].
    cbn [parse_function_definition].
    eapply yields_bind; [apply yields_get | intros tok _].
    eapply yields_bind; [apply yields_consume | intros ? _].
    eapply yields_bind; [apply yields_consume | intros ? _].
    eapply yields_bind; [apply (yields_arguments_loop n [] []); reflexivity|].
    intros [arg_names arg_types] Hlen. cbn [fst snd] in Hlen.
    eapply yields_bind; [apply yields_consume | intros ? _].
    eapply yields_bind; [apply yields_consume | intros ? _].
    eapply yields_bind; [apply yields_parse_type_expression | intros ret_tp _].
    eapply yields_bind; [apply yields_match | intros m _].
    destruct m.
    + apply yields_FunctionDefinition; [symmetry; exact Hlen | left; reflexivity].
    + eapply yields_bind; [apply yields_consume | intros ? _].
      eapply yields_bind; [apply IHb | intros code [body ->]].
      apply yields_FunctionDefinition; [symmetry; exact Hlen | right; eexists; reflexivity].
Qed.

Lemma yields_module_loop n : forall statements,
  yields (module_loop n statements) (fun _ => True).
Proof.
  pose proof (fun m => proj1 (yields_statements m)) as Hs.
  induction n as [|n IH]; intros statements; cbn [module_loop]; yields.
Qed.

(** X23: a function definition the parser returns has as many parameter
    names as parameter types and a body that is absent or a block: the two
    assertions of [FunctionDefinition.__init__] never fail in
    [parse_function_definition]. *)
Theorem function_definitions_are_well_formed n p :
  (forall s p', parse_function_definition n p = Return s p' ->
                well_formed_function s)
  /\ parse_function_definition n p <> Raised AssertionError.
Proof.
  pose proof (proj2 (proj2 (proj2 (yields_statements n))) p) as H.
  split.
  - intros s p' E. rewrite E in H. exact H.
  - intros E. rewrite E in H. destruct H as [H|H]; discriminate H.
Qed.

Lemma function_definitions_are_well_formed_witness :
  exists p s p',
    Parser_init (text "f(a: i32, b: i32) -> i32;") = Ok p
    /\ parse_function_definition 5 p = Return s p'
    /\ well_formed_function s.
Proof.
  eexists; eexists; eexists.
  split; [vm_compute; reflexivity|].
  lazymatch goal with
  | |- parse_function_definition _ ?P = _ /\ _ =>
      split;
        [ vm_compute; reflexivity
        | eapply (proj1 (function_definitions_are_well_formed 5 P));
          vm_compute; reflexivity ]
  end.
Defined.

(** X24: no parsing method fails an assertion of the code or pops a scope
    that is not there: neither the construction of a parser nor
    [parse_module], nor any statement, expression or type-expression
    method, raises [AssertionError] or [IndexError], on any text and with
    any fuel. *)
Theorem parsing_fails_no_assertion n :
  (forall text,
      Parser_init text <> Raise AssertionError
      /\ Parser_init text <> Raise IndexError)
  /\ (forall p,
        parse_module n p <> Raised AssertionError
        /\ parse_module n p <> Raised IndexError)
  /\ (forall p,
        parse_statement n p <> Raised AssertionError
        /\ parse_statement n p <> Raised IndexError)
  /\ (forall statements p,
        parse_block n statements p <> Raised AssertionError
        /\ parse_block n statements p <> Raised IndexError)
  /\ (forall p,
        parse_function_definition n p <> Raised AssertionError
        /\ parse_function_definition n p <> Raised IndexError)
  /\ (forall min_prec p,
        parse_expression n min_prec p <> Raised AssertionError
        /\ parse_expression n min_prec p <> Raised IndexError)
  /\ (forall p,
        parse_type_expression p <> Raised AssertionError
        /\ parse_type_expression p <> Raised IndexError)
  /\ (forall text,
        run n text <> Failed AssertionError
        /\ run n text <> Failed IndexError).
Proof.
  assert (Hy : forall A (m : M A) (Q : A -> Prop) p,
             yields m Q ->
             m p <> Raised AssertionError /\ m p <> Raised IndexError).
  { intros A m Q p H. specialize (H p).
    split; intros E; rewrite E in H; destruct H as [H|H]; discriminate H. }
  assert (Hi : forall text,
             Parser_init text <> Raise AssertionError
             /\ Parser_init text <> Raise IndexError).
  { intros text. unfold Parser_init.
    destruct (Lexer.call (Tokenizer_init text)) as [[tok tz]|e] eqn:E.
    - cbn. split; discriminate.
    - pose proof (proj1 (LexerFacts.call_loop_raises _ _ _ E)) as ->.
      cbn. split; discriminate. }
  pose proof (yields_statements n) as (Hs & Hb & _ & Hf).
  split; [exact Hi|].
  split; [intros p; exact (Hy _ _ _ p (yields_module_loop n []))|].
  split; [intros p; exact (Hy _ _ _ p Hs)|].
  split; [intros statements p; exact (Hy _ _ _ p (Hb statements))|].
  split; [intros p; exact (Hy _ _ _ p Hf)|].
  split; [intros mp p; exact (Hy _ _ _ p (yields_parse_expression n mp))|].
  split; [intros p; exact (Hy _ _ _ p yields_parse_type_expression)|].
  intros text. unfold run.
  destruct (Parser_init _) as [p|e] eqn:Ep.
  - destruct (Hy _ _ _ p (yields_module_loop n [])) as [H1 H2].
    unfold parse_module.
    destruct (module_loop n [] p) as [m p'|e|]; split; try discriminate;
      intros E; inversion E; subst; [apply H1 | apply H2]; reflexivity.
  - destruct (Hi (String.list_ascii_of_string text)) as [H1 H2].
    split; intros E; inversion E; subst; [apply H1 | apply H2]; exact Ep.
Qed.

Lemma module_loop_returns n : forall statements p m p',
  module_loop n statements p = Return m p' ->
  (exists rest, m = ModuleDefinition (statements ++ rest))
  /\ Token.type (token p') = TokenType.EndOfFile.
Proof.
  induction n as [|n IH]; intros statements p m p' H; [discriminate H|].
  cbn [module_loop] in H. unfold bind at 1, get at 1 in H.
  destruct (TokenType.eqb (Token.type (token p)) TokenType.EndOfFile) eqn:E;
    cbn [negb] in H.
  - inversion H; subst. split; [exists []; rewrite app_nil_r; reflexivity|].
    apply eqb_eq. exact E.
  - unfold bind in H.
    destruct (parse_statement n p) as [s p1| |]; try discriminate H.
    apply IH in H as ([rest ->] & Hend).
    split; [exists (s :: rest); rewrite <- app_assoc; reflexivity | exact Hend].
Qed.

(** X25: [parse_module] returns only at the end of the input: what it
    returns is a ModuleDefinition, and the current token of the parser is
    then EndOfFile. *)
Theorem parse_module_returns_at_end_of_file n p m p' :
  parse_module n p = Return m p' ->
  (exists statements, m = ModuleDefinition statements)
  /\ Token.type (token p') = TokenType.EndOfFile.
Proof.
  intros H. apply module_loop_returns in H as ([rest ->] & Hend).
  split; [eexists; reflexivity | exact Hend].
Qed.

Lemma parse_module_returns_at_end_of_file_witness :
  exists p m p',
    Parser_init (text "x; y;") = Ok p
    /\ parse_module 6 p = Return m p'
    /\ Token.type (token p') = TokenType.EndOfFile.
Proof.
  eexists; eexists; eexists.
  split; [vm_compute; reflexivity|].
  lazymatch goal with
  | |- parse_module _ ?P = _ /\ _ =>
      split;
        [ vm_compute; reflexivity
        | eapply (parse_module_returns_at_end_of_file 6 P);
          vm_compute; reflexivity ]
  end.
Defined.

Lemma expression_loop_returns n : forall min_prec lhs p e p',
  expression_loop n min_prec lhs p = Return e p' ->
  stops_before min_prec (Token.type (token p'))
  /\ (e = lhs \/ folded_at min_prec e).
Proof.
  induction n as [|n IH]; intros min_prec lhs p e p' H; [discriminate H|].
  cbn [expression_loop] in H. unfold bind at 1, get at 1 in H.
  destruct (operator_map (Token.type (token p))) as [info|] eqn:Hop.
  - destruct (OpInfo.precedence info <? min_prec) eqn:Hlt.
    + inversion H; subst. split; [|left; reflexivity].
      unfold stops_before. rewrite Hop. apply Z.ltb_lt. exact Hlt.
    + unfold bind at 1 in H.
      destruct (advance p) as [t p1| |]; try discriminate H.
      unfold bind at 1 in H.
      destruct (parse_expression n _ p1) as [rhs p2| |]; try discriminate H.
      apply IH in H as [Hstop Hfold]. split; [exact Hstop|]. right.
      destruct Hfold as [-> | Hfold]; [|exact Hfold].
      exists lhs, rhs, (Token.type (token p)), info.
      split; [exact Hop|]. split; [apply Z.ltb_ge; exact Hlt | reflexivity].
  - inversion H; subst. split; [|left; reflexivity].
    unfold stops_before. rewrite Hop. exact I.
Qed.

(** X26: precedence climbing, as [parse_expression] does it: when
    [parse_expression(min_prec)] returns, the current token is no operator
    of the table with precedence [min_prec] or more, and the result is
    either the atom it read first or a binary operator of the table whose
    precedence is at least [min_prec]. *)
Theorem parse_expression_climbs n min_prec p e p' :
  parse_expression n min_prec p = Return e p' ->
  stops_before min_prec (Token.type (token p'))
  /\ exists n' atom p1,
       parse_atom n' p = Return atom p1
       /\ (e = atom \/ folded_at min_prec e).
Proof.
  destruct n as [|n]; [discriminate|].
  cbn [parse_expression]. unfold bind.
  destruct (parse_atom n p) as [atom p1| |] eqn:Ha; try discriminate.
  intros H. apply expression_loop_returns in H as [Hstop Hfold].
  split; [exact Hstop|]. exists n, atom, p1. split; [exact Ha | exact Hfold].
Qed.

Lemma parse_expression_climbs_witness :
  exists p e p',
    Parser_init (text "a * b + c") = Ok p
    /\ parse_expression 5 0 p = Return e p'
    /\ stops_before 0 (Token.type (token p')).
Proof.
  eexists; eexists; eexists.
  split; [vm_compute; reflexivity|].
  lazymatch goal with
  | |- parse_expression _ _ ?P = _ /\ _ =>
      split;
        [ vm_compute; reflexivity
        | eapply (fun e p' H => proj1 (parse_expression_climbs 5 0 P e p' H));
          vm_compute; reflexivity ]
  end.
Defined.

End ParseFacts.
